(** * Satyavak: the live courtroom audio session

    A shallow embedding of the [LiveCourtroomSession] component and of the
    one-shot text-to-speech helper it calls, [getTextToSpeech] of
    services/geminiService.

    The component is a set of callbacks closing over React state and
    mutable refs.  Here every callback is a function on one [Session]
    record that holds the React state, the refs, and the part of the
    browser and of the GenAI SDK the callbacks talk to (audio nodes, the
    session promise, the channel, the console).  JavaScript runs each
    callback to completion before the next one; promise reactions run as
    microtasks right after the callback that queued them.  [onmessage]
    awaits the decoding of a frame: what it does before and after the
    [await] is kept apart ([onModelAudio_begin], [onModelAudio_resume]),
    and one turn of the loop runs both, the decoder of utils/audio doing no
    asynchronous work of its own.

    Conventions.
    - [audioContext.currentTime], [audioBuffer.duration] and the tracked
      next start time are doubles: binary64 floats ([float]), with the
      IEEE addition, division and comparisons of the source.
    - A captured float sample is the rational it denotes; the product with
      32768 is exact on a 32-bit float.
    - JavaScript strings are [string]; a character is its code unit. *)

From Stdlib Require Import ZArith QArith Qminmax List String Ascii Bool Lia Lqa.
From Stdlib Require Import Floats.
Import ListNotations.
Open Scope Z_scope.

(** ** Audio codec adapter *)

Module Codec.

(** *** Transport encoding *)

Definition b64_char (i : Z) : ascii :=
  ascii_of_N (Z.to_N
    (if i <? 26 then 65 + i
     else if i <? 52 then 71 + i
     else if i <? 62 then i - 4
     else if i =? 62 then 43 else 47)).

Definition b64_value (c : ascii) : option Z :=
  let n := Z.of_N (N_of_ascii c) in
  if (65 <=? n) && (n <=? 90) then Some (n - 65)
  else if (97 <=? n) && (n <=? 122) then Some (n - 71)
  else if (48 <=? n) && (n <=? 57) then Some (n + 4)
  else if n =? 43 then Some 62
  else if n =? 47 then Some 63
  else None.

Definition pad : ascii := "="%char.

(** Modelled from the spec: [encode] of utils/audio, which is not among the
    sources.  Section 4.1 and the glossary of data make it the text-safe
    (base64) encoding of the packed bytes: three bytes become four
    characters of the base64 alphabet, the tail is padded with [=]. *)
Fixpoint encode (bytes : list Z) : string :=
  match bytes with
  | [] => EmptyString
  | a :: [] =>
      String (b64_char (Z.shiftr a 2))
     (String (b64_char (Z.shiftl (Z.land a 3) 4))
     (String pad (String pad EmptyString)))
  | a :: b :: [] =>
      String (b64_char (Z.shiftr a 2))
     (String (b64_char (Z.lor (Z.shiftl (Z.land a 3) 4) (Z.shiftr b 4)))
     (String (b64_char (Z.shiftl (Z.land b 15) 2))
     (String pad EmptyString)))
  | a :: b :: c :: rest =>
      String (b64_char (Z.shiftr a 2))
     (String (b64_char (Z.lor (Z.shiftl (Z.land a 3) 4) (Z.shiftr b 4)))
     (String (b64_char (Z.lor (Z.shiftl (Z.land b 15) 2) (Z.shiftr c 6)))
     (String (b64_char (Z.land c 63)) (encode rest))))
  end.

Inductive sextet : Type :=
  | Sx (v : Z)
  | Pad
  | Bad.

Definition classify (c : ascii) : sextet :=
  if Ascii.eqb c pad then Pad
  else match b64_value c with
       | Some v => Sx v
       | None => Bad
       end.

Definition byte1 (a b : Z) : Z := Z.lor (Z.shiftl (Z.land a 63) 2) (Z.shiftr b 4).
Definition byte2 (b c : Z) : Z := Z.lor (Z.shiftl (Z.land b 15) 4) (Z.shiftr c 2).
Definition byte3 (c d : Z) : Z := Z.lor (Z.shiftl (Z.land c 3) 6) d.

Fixpoint decode_sextets (l : list sextet) : option (list Z) :=
  match l with
  | [] => Some []
  | Sx a :: Sx b :: Pad :: Pad :: [] => Some [byte1 a b]
  | Sx a :: Sx b :: Sx c :: Pad :: [] => Some [byte1 a b; byte2 b c]
  | Sx a :: Sx b :: Sx c :: Sx d :: rest =>
      match decode_sextets rest with
      | Some t => Some (byte1 a b :: byte2 b c :: byte3 c d :: t)
      | None => None
      end
  | _ => None
  end.

(** Modelled from the spec: [decode] of utils/audio, which is not among the
    sources.  It deserialises the transport-encoded text into bytes and
    fails on malformed input (section 4.1); [None] is that failure. *)
Definition decode (base64 : string) : option (list Z) :=
  decode_sextets (map classify (list_ascii_of_string base64)).

(** *** Playback buffers *)

Record AudioBuffer : Type := mkAudioBuffer {
  sampleRate : positive;
  numberOfChannels : positive;
  channelData : list Z
}.

(** A length or a sample rate as a double; it is below 2^53 in the browser
    and converts exactly. *)
Definition number (n : Z) : float := of_uint63 (Uint63.of_Z n).

(** [audioBuffer.duration]: frames over sample rate, in seconds, a double
    division. *)
Definition duration (b : AudioBuffer) : float :=
  (number (Z.of_nat (List.length (channelData b)) / Z.pos (numberOfChannels b)) /
   number (Z.pos (sampleRate b)))%float.

Definition int16_of_bytes (lo hi : Z) : Z :=
  let u := lo + 256 * hi in
  if u >=? 32768 then u - 65536 else u.

Fixpoint samples_of_bytes (bytes : list Z) : option (list Z) :=
  match bytes with
  | [] => Some []
  | lo :: hi :: rest =>
      match samples_of_bytes rest with
      | Some t => Some (int16_of_bytes lo hi :: t)
      | None => None
      end
  | _ :: [] => None
  end.

(** Modelled from the spec: [decodeAudioData] of utils/audio, which is not
    among the sources.  It reads the bytes as interleaved 16-bit PCM and
    builds a buffer tagged with the inbound sample rate; bytes that are not
    whole samples are malformed input. *)
Definition decodeAudioData (data : list Z) (rate channels : positive)
  : option AudioBuffer :=
  match samples_of_bytes data with
  | Some samples => Some (mkAudioBuffer rate channels samples)
  | None => None
  end.

(** *** Capture encoding (onaudioprocess, the [pcmBlob] expression) *)

(** Truncation toward zero, the first step of the typed-array
    conversion. *)
Definition Qtrunc (x : Q) : Z := Z.quot (Qnum x) (Z.pos (Qden x)).

(** The conversion [new Int16Array(...)] applies to each element:
    truncate, reduce modulo 2^16, read as two's complement. *)
Definition ToInt16 (x : Q) : Z :=
  let m := (Qtrunc x) mod 65536 in
  if m >=? 32768 then m - 65536 else m.

(** [f => f * 32768], exact on a 32-bit float of [-1, 1]: the factor is a
    power of two. *)
Definition scale (f : Q) : Q := (f * inject_Z 32768)%Q.

Definition to_pcm16 (inputData : list Q) : list Z :=
  map (fun f => ToInt16 (scale f)) inputData.

(** [new Uint8Array(int16Array.buffer)]: the two bytes of each sample, low
    byte first. *)
Definition bytes_of_int16 (v : Z) : list Z :=
  [Z.land v 255; Z.land (Z.shiftr v 8) 255].

Definition pack (samples : list Z) : list Z := flat_map bytes_of_int16 samples.

Record Blob : Type := mkBlob {
  data : string;
  mimeType : string
}.

Definition pcmBlob (inputData : list Q) : Blob :=
  {| data := encode (pack (to_pcm16 inputData));
     mimeType := "audio/pcm;rate=16000" |}.

End Codec.

(** ** Session data *)

(** type SessionStatus = 'initializing' | 'starting' | 'active' | 'speaking'
    | 'listening' | 'ended' | 'error' *)
Inductive SessionStatus : Type :=
  | Initializing | Starting | Active | Speaking | Listening | Ended | Error.

Inductive Speaker : Type := Judge | You.

Record Transcript : Type := mkTranscript {
  speaker : Speaker;
  text : string
}.

(** The fields of a [LiveServerMessage] that [onmessage] reads:
    [serverContent.inputTranscription.text],
    [serverContent.outputTranscription.text],
    [serverContent.turnComplete] and
    [serverContent.modelTurn.parts[0].inlineData.data].  A transcription
    that is present carries its text. *)
Record LiveServerMessage : Type := mkMessage {
  inputTranscription : option string;
  outputTranscription : option string;
  turnComplete : bool;
  inlineData : option string
}.

(** The four event variants of the data model, as messages. *)
Definition PartialUserTranscript (t : string) : LiveServerMessage :=
  mkMessage (Some t) None false None.
Definition PartialModelTranscript (t : string) : LiveServerMessage :=
  mkMessage None (Some t) false None.
Definition TurnComplete : LiveServerMessage :=
  mkMessage None None true None.
Definition ModelAudioFrame (base64 : string) : LiveServerMessage :=
  mkMessage None None false (Some base64).

(** *** Browser and SDK objects *)

Inductive AudioContextState : Type := running | suspended | closed.

Record AudioContext : Type := mkAudioContext {
  state : AudioContextState;
  contextRate : positive
}.

(** [MediaStreamTrack.readyState] *)
Inductive TrackState : Type := live | track_ended.

Record MediaStream : Type := mkMediaStream {
  tracks : list TrackState
}.

Record ScriptProcessorNode : Type := mkScriptProcessor {
  bufferSize : Z;
  connected : bool
}.

(** A job of a [.then] on the session promise: what the callback asks for
    or, on a promise that rejected, the rejection passed on to the promise
    the call returned, the callback not being run. *)
Inductive Reaction : Type :=
  | CloseSession
  | SendRealtimeInput (media : Codec.Blob)
  | PassRejection.

Inductive PromiseState : Type :=
  | Pending (reactions : list Reaction)
  | Fulfilled
  | Rejected.

(** The opening line's source restarts the flow when it ends; a frame's
    source carries the 'ended' listener of [onmessage]. *)
Inductive SourceRole : Type := OpeningSource | FrameSource.

(** A node is named by its rank of creation, its position in [nodes]. *)
Record SourceNode : Type := mkSourceNode {
  role : SourceRole;
  buffer : Codec.AudioBuffer;
  startedAt : option float;
  stopCalled : bool;
  hasEnded : bool
}.

Inductive Release : Type :=
  | TrackStop
  | ProcessorDisconnect
  | InputContextClose
  | SourceStop (id : nat)
  | OutputContextClose
  | ChannelClose.

Inductive Exception : Type :=
  | TypeError
  | InvalidStateError
  | DecodeError
  | ApiError
  | ConnectError.

Inductive SocketState : Type :=
  | NotRequested | Connecting | SocketOpen | SocketFailed.

(** *** The component's state *)

(** useState *)
Record View : Type := mkView {
  status : SessionStatus;
  transcripts : list Transcript;
  currentUserInput : string;
  currentJudgeOutput : string;
  error : string
}.

(** useRef *)
Record Refs : Type := mkRefs {
  sessionPromiseRef : option PromiseState;
  audioContextRef : option AudioContext;
  scriptProcessorRef : option ScriptProcessorNode;
  mediaStreamRef : option MediaStream;
  outputAudioContextRef : option AudioContext;
  nextStartTimeRef : float;
  outputSourcesRef : list nat;
  currentUserInputRef : string;
  currentJudgeOutputRef : string
}.

(** What the callbacks did to the world outside the component.  [uncaught]
    holds what nobody handled: the exception a callback threw, and the
    reason of a promise that rejected without a rejection handler. *)
Record World : Type := mkWorld {
  nodes : list SourceNode;
  sessionClosed : bool;
  sent : list Codec.Blob;
  releases : list Release;
  console : list string;
  uncaught : list Exception;
  microtasks : list Reaction;
  timers : nat
}.

(** What the environment may still deliver. *)
Record Agenda : Type := mkAgenda {
  ttsPending : bool;
  socket : SocketState;
  micPending : bool;
  mounted : bool
}.

Record Session : Type := mkSession {
  view : View;
  refs : Refs;
  world : World;
  agenda : Agenda
}.

Definition on_view (f : View -> View) (s : Session) : Session :=
  mkSession (f (view s)) (refs s) (world s) (agenda s).
Definition on_refs (f : Refs -> Refs) (s : Session) : Session :=
  mkSession (view s) (f (refs s)) (world s) (agenda s).
Definition on_world (f : World -> World) (s : Session) : Session :=
  mkSession (view s) (refs s) (f (world s)) (agenda s).
Definition on_agenda (f : Agenda -> Agenda) (s : Session) : Session :=
  mkSession (view s) (refs s) (world s) (f (agenda s)).

Definition setStatus (v : SessionStatus) : Session -> Session :=
  on_view (fun w => mkView v (transcripts w) (currentUserInput w)
                           (currentJudgeOutput w) (error w)).
Definition setTranscripts (f : list Transcript -> list Transcript)
  : Session -> Session :=
  on_view (fun w => mkView (status w) (f (transcripts w)) (currentUserInput w)
                           (currentJudgeOutput w) (error w)).
Definition setCurrentUserInput (v : string) : Session -> Session :=
  on_view (fun w => mkView (status w) (transcripts w) v
                           (currentJudgeOutput w) (error w)).
Definition setCurrentJudgeOutput (v : string) : Session -> Session :=
  on_view (fun w => mkView (status w) (transcripts w) (currentUserInput w)
                           v (error w)).
Definition setError (v : string) : Session -> Session :=
  on_view (fun w => mkView (status w) (transcripts w) (currentUserInput w)
                           (currentJudgeOutput w) v).

Definition write_sessionPromiseRef (v : option PromiseState) : Session -> Session :=
  on_refs (fun r => mkRefs v (audioContextRef r) (scriptProcessorRef r)
    (mediaStreamRef r) (outputAudioContextRef r) (nextStartTimeRef r)
    (outputSourcesRef r) (currentUserInputRef r) (currentJudgeOutputRef r)).
Definition write_audioContextRef (v : option AudioContext) : Session -> Session :=
  on_refs (fun r => mkRefs (sessionPromiseRef r) v (scriptProcessorRef r)
    (mediaStreamRef r) (outputAudioContextRef r) (nextStartTimeRef r)
    (outputSourcesRef r) (currentUserInputRef r) (currentJudgeOutputRef r)).
Definition write_scriptProcessorRef (v : option ScriptProcessorNode)
  : Session -> Session :=
  on_refs (fun r => mkRefs (sessionPromiseRef r) (audioContextRef r) v
    (mediaStreamRef r) (outputAudioContextRef r) (nextStartTimeRef r)
    (outputSourcesRef r) (currentUserInputRef r) (currentJudgeOutputRef r)).
Definition write_mediaStreamRef (v : option MediaStream) : Session -> Session :=
  on_refs (fun r => mkRefs (sessionPromiseRef r) (audioContextRef r)
    (scriptProcessorRef r) v (outputAudioContextRef r) (nextStartTimeRef r)
    (outputSourcesRef r) (currentUserInputRef r) (currentJudgeOutputRef r)).
Definition write_outputAudioContextRef (v : option AudioContext)
  : Session -> Session :=
  on_refs (fun r => mkRefs (sessionPromiseRef r) (audioContextRef r)
    (scriptProcessorRef r) (mediaStreamRef r) v (nextStartTimeRef r)
    (outputSourcesRef r) (currentUserInputRef r) (currentJudgeOutputRef r)).
Definition write_nextStartTimeRef (v : float) : Session -> Session :=
  on_refs (fun r => mkRefs (sessionPromiseRef r) (audioContextRef r)
    (scriptProcessorRef r) (mediaStreamRef r) (outputAudioContextRef r) v
    (outputSourcesRef r) (currentUserInputRef r) (currentJudgeOutputRef r)).
Definition write_outputSourcesRef (v : list nat) : Session -> Session :=
  on_refs (fun r => mkRefs (sessionPromiseRef r) (audioContextRef r)
    (scriptProcessorRef r) (mediaStreamRef r) (outputAudioContextRef r)
    (nextStartTimeRef r) v (currentUserInputRef r) (currentJudgeOutputRef r)).
Definition write_currentUserInputRef (v : string) : Session -> Session :=
  on_refs (fun r => mkRefs (sessionPromiseRef r) (audioContextRef r)
    (scriptProcessorRef r) (mediaStreamRef r) (outputAudioContextRef r)
    (nextStartTimeRef r) (outputSourcesRef r) v (currentJudgeOutputRef r)).
Definition write_currentJudgeOutputRef (v : string) : Session -> Session :=
  on_refs (fun r => mkRefs (sessionPromiseRef r) (audioContextRef r)
    (scriptProcessorRef r) (mediaStreamRef r) (outputAudioContextRef r)
    (nextStartTimeRef r) (outputSourcesRef r) (currentUserInputRef r) v).

Definition set_nodes (v : list SourceNode) : Session -> Session :=
  on_world (fun w => mkWorld v (sessionClosed w) (sent w) (releases w)
    (console w) (uncaught w) (microtasks w) (timers w)).
Definition set_sessionClosed (v : bool) : Session -> Session :=
  on_world (fun w => mkWorld (nodes w) v (sent w) (releases w)
    (console w) (uncaught w) (microtasks w) (timers w)).
Definition set_sent (v : list Codec.Blob) : Session -> Session :=
  on_world (fun w => mkWorld (nodes w) (sessionClosed w) v (releases w)
    (console w) (uncaught w) (microtasks w) (timers w)).
Definition set_releases (v : list Release) : Session -> Session :=
  on_world (fun w => mkWorld (nodes w) (sessionClosed w) (sent w) v
    (console w) (uncaught w) (microtasks w) (timers w)).
Definition set_console (v : list string) : Session -> Session :=
  on_world (fun w => mkWorld (nodes w) (sessionClosed w) (sent w) (releases w)
    v (uncaught w) (microtasks w) (timers w)).
Definition set_uncaught (v : list Exception) : Session -> Session :=
  on_world (fun w => mkWorld (nodes w) (sessionClosed w) (sent w) (releases w)
    (console w) v (microtasks w) (timers w)).
Definition set_microtasks (v : list Reaction) : Session -> Session :=
  on_world (fun w => mkWorld (nodes w) (sessionClosed w) (sent w) (releases w)
    (console w) (uncaught w) v (timers w)).
Definition set_timers (v : nat) : Session -> Session :=
  on_world (fun w => mkWorld (nodes w) (sessionClosed w) (sent w) (releases w)
    (console w) (uncaught w) (microtasks w) v).

Definition set_ttsPending (v : bool) : Session -> Session :=
  on_agenda (fun a => mkAgenda v (socket a) (micPending a) (mounted a)).
Definition set_socket (v : SocketState) : Session -> Session :=
  on_agenda (fun a => mkAgenda (ttsPending a) v (micPending a) (mounted a)).
Definition set_micPending (v : bool) : Session -> Session :=
  on_agenda (fun a => mkAgenda (ttsPending a) (socket a) v (mounted a)).
Definition set_mounted (v : bool) : Session -> Session :=
  on_agenda (fun a => mkAgenda (ttsPending a) (socket a) (micPending a) v).

(** The component at mount: the initial values of useState and useRef, and
    the call to [getTextToSpeech] in flight. *)
Definition init : Session :=
  {| view := mkView Initializing [] "" "" "";
     refs := mkRefs None None None None None 0%float [] "" "";
     world := mkWorld [] false [] [] [] [] [] 0%nat;
     agenda := mkAgenda true NotRequested false true |}.

(** ** JavaScript helpers *)

Definition truthy (s : string) : bool :=
  match s with
  | EmptyString => false
  | String _ _ => true
  end.

(** [Math.max] of two numbers: NaN if either is, the larger otherwise, and
    +0 rather than -0. *)
Definition Math_max (a b : float) : float :=
  if is_nan a || is_nan b then nan
  else if (a <? b)%float then b
  else if (b <? a)%float then a
  else if get_sign a then b else a.

(** White space and line terminators among the code units below 256. *)
Definition isWhiteSpace (c : ascii) : bool :=
  let n := N_of_ascii c in
  ((9 <=? n) && (n <=? 13) || (n =? 32) || (n =? 160))%N.

Fixpoint trimStart_chars (l : list ascii) : list ascii :=
  match l with
  | [] => []
  | c :: r => if isWhiteSpace c then trimStart_chars r else l
  end.

(** [String.prototype.trim] *)
Definition trim (s : string) : string :=
  string_of_list_ascii
    (rev (trimStart_chars (rev (trimStart_chars (list_ascii_of_string s))))).

(** [Set.prototype.add] and [Set.prototype.delete], on a set kept in
    insertion order. *)
Definition set_add (x : nat) (l : list nat) : list nat :=
  if existsb (Nat.eqb x) l then l else l ++ [x].
Definition set_delete (x : nat) (l : list nat) : list nat :=
  filter (fun y => negb (Nat.eqb x y)) l.

(** A callback either returns or throws; what it wrote before throwing
    stays written. *)
Inductive Outcome : Type :=
  | Returned (s : Session)
  | Threw (e : Exception) (s : Session).

Definition final (o : Outcome) : Session :=
  match o with
  | Returned s => s
  | Threw _ s => s
  end.

Definition bind (o : Outcome) (k : Session -> Outcome) : Outcome :=
  match o with
  | Returned s => k s
  | Threw e s => Threw e s
  end.

Notation "'do' s <- o ; k" := (bind o (fun s => k))
  (at level 10, s name, o at level 100, k at level 200).

(** ** Browser and SDK operations *)

Definition console_error (msg : string) (s : Session) : Session :=
  set_console (console (world s) ++ [msg]) s.

Definition log_release (r : Release) (s : Session) : Session :=
  set_releases (releases (world s) ++ [r]) s.

Definition find_node (id : nat) (s : Session) : option SourceNode :=
  nth_error (nodes (world s)) id.

Fixpoint update_at {A : Type} (i : nat) (f : A -> A) (l : list A) : list A :=
  match l, i with
  | [], _ => []
  | x :: rest, O => f x :: rest
  | x :: rest, S j => x :: update_at j f rest
  end.

Definition update_node (id : nat) (f : SourceNode -> SourceNode) (s : Session)
  : Session :=
  set_nodes (update_at id f (nodes (world s))) s.

(** [audioContext.createBufferSource()] followed by [source.buffer = ...]:
    a fresh node. *)
Definition createBufferSource (r : SourceRole) (b : Codec.AudioBuffer)
  (s : Session) : nat * Session :=
  let id := List.length (nodes (world s)) in
  (id, set_nodes (nodes (world s) ++ [mkSourceNode r b None false false]) s).

(** [source.start(when)] *)
Definition source_start (id : nat) (when : float) : Session -> Session :=
  update_node id (fun n =>
    mkSourceNode (role n) (buffer n) (Some when) (stopCalled n) (hasEnded n)).

(** [source.stop()]: an InvalidStateError on a node that was never
    started. *)
Definition source_stop (id : nat) (s : Session) : Outcome :=
  match find_node id s with
  | None => Threw TypeError s
  | Some n =>
      match startedAt n with
      | None => Threw InvalidStateError s
      | Some _ =>
          Returned (log_release (SourceStop id)
            (update_node id (fun n =>
               mkSourceNode (role n) (buffer n) (startedAt n) true (hasEnded n))
               s))
      end
  end.

(** [audioContext.close()]: the returned promise rejects on a context that is
    closed already. *)
Definition AudioContext_close (c : AudioContext) : Exception + AudioContext :=
  match state c with
  | closed => inl InvalidStateError
  | _ => inr (mkAudioContext closed (contextRate c))
  end.

Definition is_closed (c : AudioContext) : bool :=
  match state c with
  | closed => true
  | _ => false
  end.

(** [sessionPromiseRef.current?.then(cb)]: on a pending promise the
    reaction waits; on a settled one a job is queued as a microtask, [cb]
    if the promise is fulfilled, the rejection of the promise the call
    returns if it is rejected, there being no rejection handler. *)
Definition then_ (cb : Reaction) (s : Session) : Session :=
  match sessionPromiseRef (refs s) with
  | None => s
  | Some (Pending rs) => write_sessionPromiseRef (Some (Pending (rs ++ [cb]))) s
  | Some Fulfilled => set_microtasks (microtasks (world s) ++ [cb]) s
  | Some Rejected => set_microtasks (microtasks (world s) ++ [PassRejection]) s
  end.

(** The jobs of the reactions that waited, when the promise rejects. *)
Definition rejected (rs : list Reaction) : list Reaction :=
  map (fun _ => PassRejection) rs.

(** A job run as a microtask: the call the callback makes on the session,
    or the report of a rejection that nothing handles. *)
Definition run_reaction (s : Session) (cb : Reaction) : Session :=
  match cb with
  | CloseSession => log_release ChannelClose (set_sessionClosed true s)
  | SendRealtimeInput media => set_sent (sent (world s) ++ [media]) s
  | PassRejection => set_uncaught (uncaught (world s) ++ [ConnectError]) s
  end.

(** The microtask checkpoint at the end of a callback. *)
Definition drain (s : Session) : Session :=
  fold_left run_reaction (microtasks (world s)) (set_microtasks [] s).

(** One turn of the event loop: the callback, its uncaught exception if
    any, then the microtasks. *)
Definition task (o : Outcome) : Session :=
  match o with
  | Returned s => drain s
  | Threw e s => drain (set_uncaught (uncaught (world s) ++ [e]) s)
  end.

(** ** services/geminiService.ts *)

(** What [ai.models.generateContent] does for the speech request: it throws,
    or answers with or without inline audio data. *)
Inductive ApiOutcome : Type :=
  | ApiThrows
  | ApiResponds (inlineAudio : option string).

(** [getTextToSpeech]: no handler around the call; [base64Audio || null]. *)
Definition getTextToSpeech (api : ApiOutcome) : Exception + option string :=
  match api with
  | ApiThrows => inl ApiError
  | ApiResponds None => inr None
  | ApiResponds (Some base64Audio) =>
      inr (if truthy base64Audio then Some base64Audio else None)
  end.

(** ** LiveCourtroomSession *)

Definition decodeFrame (base64Audio : string) : option Codec.AudioBuffer :=
  match Codec.decode base64Audio with
  | Some bytes => Codec.decodeAudioData bytes 24000 1
  | None => None
  end.

(** The body of the [onopen] callback after [getUserMedia] settles. *)
Definition onopen (granted : bool) (s : Session) : Session :=
  if granted then
    let s := write_mediaStreamRef (Some (mkMediaStream [live])) s in
    let s := write_audioContextRef (Some (mkAudioContext running 16000)) s in
    let s := write_scriptProcessorRef (Some (mkScriptProcessor 4096 true)) s in
    setStatus Listening s
  else
    let s := console_error "Microphone access denied or error:" s in
    let s := setError
      "Microphone access is required. Please grant permission and try again." s in
    setStatus Error s.

(** [scriptProcessorRef.current.onaudioprocess] *)
Definition onaudioprocess (inputData : list Q) (s : Session) : Session :=
  then_ (SendRealtimeInput (Codec.pcmBlob inputData)) s.

Definition onInputTranscription (t : string) (s : Session) : Session :=
  let s := write_currentUserInputRef (currentUserInputRef (refs s) ++ t) s in
  setCurrentUserInput (currentUserInputRef (refs s)) s.

Definition onOutputTranscription (t : string) (s : Session) : Session :=
  let s := write_currentJudgeOutputRef (currentJudgeOutputRef (refs s) ++ t) s in
  setCurrentJudgeOutput (currentJudgeOutputRef (refs s)) s.

Definition push_if (who : Speaker) (said : string) (l : list Transcript)
  : list Transcript :=
  if truthy (trim said) then l ++ [mkTranscript who (trim said)] else l.

Definition onTurnComplete (s : Session) : Session :=
  let userInput := currentUserInputRef (refs s) in
  let judgeOutput := currentJudgeOutputRef (refs s) in
  let s := setTranscripts (fun prev =>
             let newTranscripts := prev in
             let newTranscripts := push_if You userInput newTranscripts in
             let newTranscripts := push_if Judge judgeOutput newTranscripts in
             newTranscripts) s in
  let s := write_currentUserInputRef "" s in
  let s := write_currentJudgeOutputRef "" s in
  let s := setCurrentUserInput "" s in
  setCurrentJudgeOutput "" s.

(** The 'ended' listener [onmessage] puts on each frame's source. *)
Definition onended (source : nat) (s : Session) : Session :=
  let s := write_outputSourcesRef (set_delete source (outputSourcesRef (refs s))) s in
  if (List.length (outputSourcesRef (refs s)) =? 0)%nat
  then setStatus Listening s
  else s.

(** The branch [if (base64Audio)] of [onmessage] up to its [await]; [now]
    is [audioContext.currentTime].  Reading the clock of an output context
    that was never made is a TypeError. *)
Definition onModelAudio_begin (now : float) (s : Session) : Outcome :=
  let s := setStatus Speaking s in
  match outputAudioContextRef (refs s) with
  | None => Threw TypeError s
  | Some audioContext =>
      Returned
        (write_nextStartTimeRef (Math_max (nextStartTimeRef (refs s)) now) s)
  end.

(** The same branch from the [await] on, with what the decoding gave. *)
Definition onModelAudio_resume (decoded : option Codec.AudioBuffer)
  (s : Session) : Outcome :=
  match decoded with
  | None => Threw DecodeError s
  | Some audioBuffer =>
      let (source, s) := createBufferSource FrameSource audioBuffer s in
      let s := source_start source (nextStartTimeRef (refs s)) s in
      let s := write_nextStartTimeRef
                 (nextStartTimeRef (refs s) + Codec.duration audioBuffer)%float s in
      Returned
        (write_outputSourcesRef (set_add source (outputSourcesRef (refs s))) s)
  end.

Definition onModelAudio (now : float) (base64Audio : string) (s : Session)
  : Outcome :=
  do s <- onModelAudio_begin now s;
  onModelAudio_resume (decodeFrame base64Audio) s.

Definition onmessage (now : float) (message : LiveServerMessage) (s : Session)
  : Outcome :=
  let s := match inputTranscription message with
           | Some t => onInputTranscription t s
           | None => s
           end in
  let s := match outputTranscription message with
           | Some t => onOutputTranscription t s
           | None => s
           end in
  let s := if turnComplete message then onTurnComplete s else s in
  match inlineData message with
  | Some base64Audio =>
      if truthy base64Audio then onModelAudio now base64Audio s else Returned s
  | None => Returned s
  end.

(** [onclose] does nothing and is left out. *)
Definition onerror (s : Session) : Session :=
  let s := console_error "Live session error:" s in
  let s := setError "A connection error occurred." s in
  setStatus Error s.

(** [startLiveSession] up to its [await]: the status, and the promise of
    [ai.live.connect] stored in the ref. *)
Definition startLiveSession (s : Session) : Session :=
  let s := setStatus Starting s in
  let s := write_sessionPromiseRef (Some (Pending [])) s in
  set_socket Connecting s.

(** The [catch] of [startLiveSession], run when the promise rejects. *)
Definition startLiveSession_catch (s : Session) : Session :=
  let s := console_error "Error starting live session" s in
  let s := setError "Failed to connect to live session." s in
  setStatus Error s.

Definition playOpeningStatement_catch (s : Session) : Session :=
  let s := console_error "Error playing opening statement:" s in
  let s := setError "Failed to start the session. Please try again." s in
  setStatus Error s.

(** [playOpeningStatement] from the point where [getTextToSpeech]
    settles. *)
Definition playOpeningStatement (api : ApiOutcome) (s : Session) : Session :=
  match getTextToSpeech api with
  | inl _ => playOpeningStatement_catch s
  | inr None => startLiveSession s
  | inr (Some audioData) =>
      if truthy audioData then
        let s := match outputAudioContextRef (refs s) with
                 | None => write_outputAudioContextRef
                             (Some (mkAudioContext running 24000)) s
                 | Some _ => s
                 end in
        match decodeFrame audioData with
        | None => playOpeningStatement_catch s
        | Some audioBuffer =>
            let (source, s) := createBufferSource OpeningSource audioBuffer s in
            source_start source 0%float s
        end
      else startLiveSession s
  end.

Definition stop_tracks (s : Session) : Session :=
  match mediaStreamRef (refs s) with
  | None => s
  | Some stream =>
      let s := write_mediaStreamRef
                 (Some (mkMediaStream (map (fun _ => track_ended) (tracks stream)))) s in
      set_releases (releases (world s) ++ map (fun _ => TrackStop) (tracks stream)) s
  end.

Definition disconnect_processor (s : Session) : Session :=
  match scriptProcessorRef (refs s) with
  | None => s
  | Some node =>
      log_release ProcessorDisconnect
        (write_scriptProcessorRef
           (Some (mkScriptProcessor (bufferSize node) false)) s)
  end.

(** [if (ref.current && ref.current.state !== 'closed')
        ref.current.close().catch(console.error)] *)
Definition close_guarded (ref : option AudioContext) (r : Release)
  (write : option AudioContext -> Session -> Session) (s : Session) : Session :=
  match ref with
  | None => s
  | Some c =>
      if is_closed c then s
      else match AudioContext_close c with
           | inr c' => log_release r (write (Some c') s)
           | inl _ => console_error "InvalidStateError" (log_release r s)
           end
  end.

Fixpoint stop_each (sources : list nat) (s : Session) : Outcome :=
  match sources with
  | [] => Returned s
  | source :: rest => do s <- source_stop source s; stop_each rest s
  end.

Definition cleanUp (s : Session) : Outcome :=
  let s := then_ CloseSession s in
  let s := stop_tracks s in
  let s := disconnect_processor s in
  let s := close_guarded (audioContextRef (refs s)) InputContextClose
                         write_audioContextRef s in
  do s <- stop_each (outputSourcesRef (refs s)) s;
  Returned (close_guarded (outputAudioContextRef (refs s)) OutputContextClose
                          write_outputAudioContextRef s).

Definition handleEndSession (s : Session) : Outcome :=
  do s <- cleanUp s;
  let s := setStatus Ended s in
  Returned (set_timers (S (timers (world s))) s).

(** ** The event loop *)

(** What can happen to a mounted component, one callback at a time. *)
Inductive Event : Type :=
  | TtsSettled (api : ApiOutcome)
  | SocketOpened
  | MicSettled (granted : bool)
  | ConnectSettled (ok : bool)
  | AudioProcess (inputData : list Q)
  | ServerMessage (now : float) (message : LiveServerMessage)
  | SourceEnded (id : nat)
  | TransportError
  | EndSessionClicked
  | Unmounted.

(** The capture graph delivers buffers while the processing node is
    connected in a context that is not closed. *)
Definition capturing (s : Session) : bool :=
  match scriptProcessorRef (refs s), audioContextRef (refs s) with
  | Some node, Some c => connected node && negb (is_closed c)
  | _, _ => false
  end.

(** A started source fires 'ended' once. *)
Definition can_end (n : SourceNode) : bool :=
  match startedAt n with
  | Some _ => negb (hasEnded n)
  | None => false
  end.

Definition ended (n : SourceNode) : SourceNode :=
  mkSourceNode (role n) (buffer n) (startedAt n) (stopCalled n) true.

Definition mark_ended (id : nat) : Session -> Session :=
  update_node id ended.

(** [step e s] is [None] when the environment cannot deliver [e] in [s]. *)
Definition step (e : Event) (s : Session) : option Session :=
  match e with
  | TtsSettled api =>
      if ttsPending (agenda s)
      then Some (task (Returned (playOpeningStatement api (set_ttsPending false s))))
      else None
  | SocketOpened =>
      match socket (agenda s) with
      | Connecting => Some (set_micPending true (set_socket SocketOpen s))
      | _ => None
      end
  | MicSettled granted =>
      if micPending (agenda s)
      then Some (task (Returned (onopen granted (set_micPending false s))))
      else None
  | ConnectSettled ok =>
      match sessionPromiseRef (refs s), socket (agenda s), ok with
      | Some (Pending rs), SocketOpen, true =>
          Some (drain (set_microtasks rs
                         (write_sessionPromiseRef (Some Fulfilled) s)))
      | Some (Pending rs), Connecting, false =>
          Some (task (Returned (startLiveSession_catch
                  (set_microtasks (rejected rs)
                     (set_socket SocketFailed
                        (write_sessionPromiseRef (Some Rejected) s))))))
      | _, _, _ => None
      end
  | AudioProcess inputData =>
      if capturing s then Some (task (Returned (onaudioprocess inputData s)))
      else None
  | ServerMessage now message =>
      match socket (agenda s) with
      | SocketOpen =>
          if sessionClosed (world s) then None
          else Some (task (onmessage now message s))
      | _ => None
      end
  | SourceEnded id =>
      match find_node id s with
      | Some n =>
          if can_end n then
            match role n with
            | FrameSource => Some (task (Returned (onended id (mark_ended id s))))
            | OpeningSource =>
                Some (task (Returned (startLiveSession (mark_ended id s))))
            end
          else None
      | None => None
      end
  | TransportError =>
      match socket (agenda s) with
      | Connecting | SocketOpen => Some (task (Returned (onerror s)))
      | _ => None
      end
  | EndSessionClicked =>
      if mounted (agenda s) then Some (task (handleEndSession s)) else None
  | Unmounted =>
      if mounted (agenda s) then Some (task (cleanUp (set_mounted false s)))
      else None
  end.

Fixpoint run (events : list Event) (s : Session) : option Session :=
  match events with
  | [] => Some s
  | e :: rest =>
      match step e s with
      | Some s' => run rest s'
      | None => None
      end
  end.

Definition Reachable (s : Session) : Prop :=
  exists events, run events init = Some s.

(** Messages handled one after the other, each with the clock reading at
    its arrival. *)
Fixpoint receive (messages : list (float * LiveServerMessage)) (s : Session)
  : Session :=
  match messages with
  | [] => s
  | (now, message) :: rest => receive rest (task (onmessage now message s))
  end.

(** A burst of audio frames. *)
Definition play (frames : list (float * string)) : Session -> Session :=
  receive (map (fun f => (fst f, ModelAudioFrame (snd f))) frames).

(** The partial transcripts of a turn. *)
Inductive Partial : Type :=
  | FromUser (t : string)
  | FromModel (t : string).

Definition partial_message (p : Partial) : LiveServerMessage :=
  match p with
  | FromUser t => PartialUserTranscript t
  | FromModel t => PartialModelTranscript t
  end.

Fixpoint said_by_user (l : list (float * Partial)) : string :=
  match l with
  | [] => ""
  | (_, FromUser t) :: rest => t ++ said_by_user rest
  | (_, FromModel _) :: rest => said_by_user rest
  end.

Fixpoint said_by_model (l : list (float * Partial)) : string :=
  match l with
  | [] => ""
  | (_, FromUser _) :: rest => said_by_model rest
  | (_, FromModel t) :: rest => t ++ said_by_model rest
  end.

(** Start time and duration of every frame source, in creation order. *)
Definition schedule (s : Session) : list (float * float) :=
  flat_map (fun n =>
    match role n, startedAt n with
    | FrameSource, Some t => [(t, Codec.duration (buffer n))]
    | _, _ => []
    end) (nodes (world s)).

(** The gapless rule in the words of section 4.4: a buffer starts at the
    later of the clock and the end of the buffer before it.  [arrivals]
    pairs the clock reading with the decoded duration. *)
Fixpoint gapless_plan (next : float) (arrivals : list (float * float))
  : list (float * float) :=
  match arrivals with
  | [] => []
  | (now, d) :: rest =>
      let start := Math_max next now in
      (start, d) :: gapless_plan (start + d)%float rest
  end.

Fixpoint gapless_end (next : float) (arrivals : list (float * float)) : float :=
  match arrivals with
  | [] => next
  | (now, d) :: rest => gapless_end (Math_max next now + d)%float rest
  end.

Definition partial_messages (l : list (float * Partial))
  : list (float * LiveServerMessage) :=
  map (fun p => (fst p, partial_message (snd p))) l.

(** The entry a turn commits for one speaker, if any. *)
Definition entry_if (who : Speaker) (said : string) : list Transcript :=
  if truthy (trim said) then [mkTranscript who (trim said)] else [].

(** A clock reading, a start time or a duration: a number that is not
    negative. *)
Definition time (t : float) : Prop := (0 <=? t)%float = true.

(** The number a double stands for; 0 for what is not finite. *)
Definition exact (x : float) : Q :=
  match Prim2SF x with
  | S754_finite s m e =>
      (inject_Z (if s then Z.neg m else Z.pos m) * Qpower 2 e)%Q
  | _ => 0%Q
  end.

(** The gapless rule on a list of (start, duration), in the arithmetic of
    the code: each frame after the first starts at the later of its clock
    reading and the tracked end of the frame before it, the double sum of
    that frame's start and duration, hence not before that sum, nor before
    that frame's start. *)
Definition gapless (arrivals plan : list (float * float)) : Prop :=
  forall k start d start' d' now',
    nth_error plan k = Some (start, d) ->
    nth_error plan (S k) = Some (start', d') ->
    nth_error arrivals (S k) = Some (now', d') ->
    start' = Math_max (start + d)%float now' /\
    (start + d <=? start')%float = true /\
    (start <=? start')%float = true.

(** Section 8, property 2, as worded: no frame starts before the frame
    before it is over, its start plus its duration. *)
Definition no_overlap (plan : list (float * float)) : Prop :=
  forall k start d start' d',
    nth_error plan k = Some (start, d) ->
    nth_error plan (S k) = Some (start', d') ->
    (exact start + exact d <= exact start')%Q.

(** A frame that [onmessage] plays and the buffer it decodes to. *)
Definition decodes_to (frame : float * string) (b : Codec.AudioBuffer) : Prop :=
  truthy (snd frame) = true /\ decodeFrame (snd frame) = Some b.

Definition is_int16 (v : Z) : Prop := -32768 <= v <= 32767.
Definition is_byte (v : Z) : Prop := 0 <= v <= 255.

(** A character of the transport alphabet, or the padding. *)
Definition text_safe_char (c : ascii) : bool :=
  match Codec.classify c with
  | Codec.Bad => false
  | _ => true
  end.

Definition text_safe (s : string) : Prop :=
  Forall (fun c => text_safe_char c = true) (list_ascii_of_string s).

(** The integers from 0 up to [n], for properties checked value by value. *)
Definition below (n : nat) : list Z := map Z.of_nat (seq 0 n).

Definition all_below (n : nat) (p : Z -> bool) : bool := forallb p (below n).

(** The sextets of [encode] and the bytes [decode] rebuilds from them: the
    bit identities one pair of bytes has to satisfy. *)
Definition sextet_facts (a b : Z) : bool :=
  let s1 := Z.shiftr a 2 in
  let s2 := Z.lor (Z.shiftl (Z.land a 3) 4) (Z.shiftr b 4) in
  let s3 := Z.lor (Z.shiftl (Z.land a 15) 2) (Z.shiftr b 6) in
  let s4 := Z.land a 63 in
  (0 <=? s1) && (s1 <? 64) && (0 <=? s2) && (s2 <? 64) &&
  (0 <=? s3) && (s3 <? 64) && (0 <=? s4) && (s4 <? 64) &&
  (Codec.byte1 s1 s2 =? a) &&
  (Z.land s2 15 =? Z.shiftr b 4) &&
  (Z.shiftr s3 2 =? Z.land a 15) &&
  (Z.land s3 3 =? Z.shiftr b 6) &&
  (Z.lor (Z.shiftl (Z.shiftr a 4) 4) (Z.land a 15) =? a) &&
  (Z.lor (Z.shiftl (Z.shiftr a 6) 6) (Z.land a 63) =? a).

(** ** Vocabulary of the properties *)

(** The frames sent and the channel closes a list of reactions stands
    for. *)
Definition sends (rs : list Reaction) : list Codec.Blob :=
  flat_map (fun r => match r with
                     | SendRealtimeInput media => [media]
                     | _ => []
                     end) rs.

Definition closes (rs : list Reaction) : list Release :=
  flat_map (fun r => match r with
                     | CloseSession => [ChannelClose]
                     | _ => []
                     end) rs.

(** The rejections a list of jobs leaves unhandled. *)
Definition rejections (rs : list Reaction) : list Exception :=
  flat_map (fun r => match r with
                     | PassRejection => [ConnectError]
                     | _ => []
                     end) rs.

(** The reactions waiting for the session promise to settle. *)
Definition waiting (s : Session) : list Reaction :=
  match sessionPromiseRef (refs s) with
  | Some (Pending rs) => rs
  | _ => []
  end.

(** What teardown does not touch in a node. *)
Definition core (n : SourceNode) : SourceRole * option float * bool :=
  (role n, startedAt n, hasEnded n).

Definition started (s : Session) (id : nat) : Prop :=
  exists n, find_node id s = Some n /\ startedAt n <> None.

Definition stopped (s : Session) (id : nat) : Prop :=
  exists n, find_node id s = Some n /\ stopCalled n = true.

(** The release calls made between two states. *)
Definition released_by (s s' : Session) : list Release :=
  skipn (List.length (releases (world s))) (releases (world s')).

(** *** Released handles *)

Definition stream_released (s : Session) : Prop :=
  match mediaStreamRef (refs s) with
  | None => True
  | Some stream => Forall (fun t => t = track_ended) (tracks stream)
  end.

Definition processor_released (s : Session) : Prop :=
  match scriptProcessorRef (refs s) with
  | None => True
  | Some node => connected node = false
  end.

Definition context_released (ref : option AudioContext) : Prop :=
  match ref with
  | None => True
  | Some c => state c = closed
  end.

Definition sources_released (s : Session) : Prop :=
  Forall (stopped s) (outputSourcesRef (refs s)).

(** No open channel is held: none was asked for, the connection failed, or
    the session is closed.  While the connection is being made a close can
    only wait, and the channel is not released. *)
Definition channel_released (s : Session) : Prop :=
  match sessionPromiseRef (refs s) with
  | None => True
  | Some Rejected => True
  | Some Fulfilled => sessionClosed (world s) = true
  | Some (Pending rs) => False
  end.

Definition all_released (s : Session) : Prop :=
  sources_released s /\ stream_released s /\ processor_released s /\
  context_released (audioContextRef (refs s)) /\
  context_released (outputAudioContextRef (refs s)) /\
  channel_released s.

(** The release calls [cleanUp] makes from [s], in the order of the code;
    the close of the channel is a promise reaction and runs last. *)
Definition track_stops (s : Session) : list Release :=
  match mediaStreamRef (refs s) with
  | None => []
  | Some stream => map (fun _ => TrackStop) (tracks stream)
  end.

Definition processor_disconnects (s : Session) : list Release :=
  match scriptProcessorRef (refs s) with
  | None => []
  | Some _ => [ProcessorDisconnect]
  end.

Definition context_closes (ref : option AudioContext) (r : Release)
  : list Release :=
  match ref with
  | None => []
  | Some c => if is_closed c then [] else [r]
  end.

Definition channel_closes (s : Session) : list Release :=
  match sessionPromiseRef (refs s) with
  | Some Fulfilled => [ChannelClose]
  | _ => []
  end.

Definition teardown_calls (s : Session) : list Release :=
  track_stops s ++ processor_disconnects s ++
  context_closes (audioContextRef (refs s)) InputContextClose ++
  map SourceStop (outputSourcesRef (refs s)) ++
  context_closes (outputAudioContextRef (refs s)) OutputContextClose ++
  channel_closes s.

(** The order of section 5: playback sources, microphone and processing
    node, input context, channel, output context. *)
Definition spec_rank (r : Release) : nat :=
  match r with
  | SourceStop _ => 0
  | TrackStop => 1
  | ProcessorDisconnect => 1
  | InputContextClose => 2
  | ChannelClose => 3
  | OutputContextClose => 4
  end.

(** The order of [cleanUp]. *)
Definition code_rank (r : Release) : nat :=
  match r with
  | TrackStop => 0
  | ProcessorDisconnect => 1
  | InputContextClose => 2
  | SourceStop _ => 3
  | OutputContextClose => 4
  | ChannelClose => 5
  end.

Fixpoint in_order (rank : Release -> nat) (l : list Release) : bool :=
  match l with
  | [] => true
  | r :: rest =>
      forallb (fun r' => (rank r <=? rank r')%nat) rest && in_order rank rest
  end.

(** *** What holds in every reachable state *)

Record Consistent (s : Session) : Prop := mkConsistent {
  inv_started : Forall (started s) (outputSourcesRef (refs s));
  inv_mic : micPending (agenda s) = true ->
            socket (agenda s) = SocketOpen /\ scriptProcessorRef (refs s) = None;
  inv_processor : scriptProcessorRef (refs s) <> None ->
                  socket (agenda s) = SocketOpen /\ micPending (agenda s) = false;
  inv_tts : ttsPending (agenda s) = true ->
            nodes (world s) = [] /\ socket (agenda s) = NotRequested;
  inv_opening : socket (agenda s) <> NotRequested ->
                ttsPending (agenda s) = false /\
                forall i n, nth_error (nodes (world s)) i = Some n ->
                            role n = OpeningSource -> can_end n = false;
  inv_one_opening : forall i j n n',
                    nth_error (nodes (world s)) i = Some n ->
                    nth_error (nodes (world s)) j = Some n' ->
                    role n = OpeningSource -> role n' = OpeningSource -> i = j;
  inv_quiet : scriptProcessorRef (refs s) = None ->
              sent (world s) = [] /\ sends (waiting s) = [] /\
              sends (microtasks (world s)) = []
}.

(** Between two turns of the event loop no microtask is left. *)
Definition Inv (s : Session) : Prop :=
  Consistent s /\ microtasks (world s) = [].

(** The state after a run of events, for the examples. *)
Definition after (events : list Event) : Session :=
  match run events init with
  | Some s => s
  | None => init
  end.

(** The opening line has played, the channel is open, the microphone is
    granted. *)
Definition listening_session : Session :=
  after [TtsSettled (ApiResponds (Some "AAAAAAAA"%string)); SourceEnded 0;
         SocketOpened; ConnectSettled true; MicSettled true].

(** The same with one frame of the judge playing. *)
Definition speaking_session : Session :=
  after [TtsSettled (ApiResponds (Some "AAAAAAAA"%string)); SourceEnded 0;
         SocketOpened; ConnectSettled true; MicSettled true;
         ServerMessage 1 (ModelAudioFrame "AAAAAAAA")].

(** [s'] differs from [s] by stop calls on source nodes only. *)
Record only_stops (s s' : Session) : Prop := mkOnlyStops {
  os_view : view s' = view s;
  os_refs : refs s' = refs s;
  os_agenda : agenda s' = agenda s;
  os_cores : map core (nodes (world s')) = map core (nodes (world s));
  os_sent : sent (world s') = sent (world s);
  os_microtasks : microtasks (world s') = microtasks (world s);
  os_console : console (world s') = console (world s);
  os_uncaught : uncaught (world s') = uncaught (world s);
  os_sessionClosed : sessionClosed (world s') = sessionClosed (world s);
  os_timers : timers (world s') = timers (world s);
  os_stopped : forall j, stopped s j -> stopped s' j
}.

Definition end_track (stream : MediaStream) : MediaStream :=
  mkMediaStream (map (fun _ => track_ended) (tracks stream)).
Definition disconnect (node : ScriptProcessorNode) : ScriptProcessorNode :=
  mkScriptProcessor (bufferSize node) false.
Definition close_context (c : AudioContext) : AudioContext :=
  mkAudioContext closed (contextRate c).

(** What [cleanUp] makes of [s] when it returns [s']. *)
Record cleaned (s s' : Session) : Prop := mkCleaned {
  cl_view : view s' = view s;
  cl_agenda : agenda s' = agenda s;
  cl_promise : sessionPromiseRef (refs s') =
               match sessionPromiseRef (refs s) with
               | Some (Pending rs) => Some (Pending (rs ++ [CloseSession]))
               | p => p
               end;
  cl_stream : mediaStreamRef (refs s') = option_map end_track (mediaStreamRef (refs s));
  cl_processor : scriptProcessorRef (refs s') =
                 option_map disconnect (scriptProcessorRef (refs s));
  cl_input : audioContextRef (refs s') =
             option_map close_context (audioContextRef (refs s));
  cl_output : outputAudioContextRef (refs s') =
              option_map close_context (outputAudioContextRef (refs s));
  cl_active : outputSourcesRef (refs s') = outputSourcesRef (refs s);
  cl_cores : map core (nodes (world s')) = map core (nodes (world s));
  cl_sent : sent (world s') = sent (world s);
  cl_console : console (world s') = console (world s);
  cl_uncaught : uncaught (world s') = uncaught (world s);
  cl_sessionClosed : sessionClosed (world s') = sessionClosed (world s);
  cl_timers : timers (world s') = timers (world s);
  cl_microtasks : microtasks (world s') =
                  microtasks (world s) ++
                  match sessionPromiseRef (refs s) with
                  | Some Fulfilled => [CloseSession]
                  | Some Rejected => [PassRejection]
                  | _ => []
                  end;
  cl_releases : releases (world s') =
                releases (world s) ++ track_stops s ++ processor_disconnects s ++
                context_closes (audioContextRef (refs s)) InputContextClose ++
                map SourceStop (outputSourcesRef (refs s)) ++
                context_closes (outputAudioContextRef (refs s)) OutputContextClose;
  cl_stopped : Forall (stopped s') (outputSourcesRef (refs s))
}.

(** *** The claims of section 8 that the code does not meet as worded *)

(** Section 8, property 4. *)
Definition status_reflects_playback (s : Session) : Prop :=
  status (view s) = Speaking <-> outputSourcesRef (refs s) <> [].

(** Listening with nothing playing, or speaking with something playing. *)
Definition conversing (s : Session) : Prop :=
  (status (view s) = Listening /\ outputSourcesRef (refs s) = []) \/
  (status (view s) = Speaking /\ outputSourcesRef (refs s) <> []).

(** The completion of an active frame source, as one turn of the loop. *)
Definition completion (id : nat) (s : Session) : Session :=
  task (Returned (onended id (mark_ended id s))).

(** The exchange proper: messages whose handler returns, and completions of
    active sources. *)
Inductive exchange : Session -> Session -> Prop :=
  | exchange_refl s : exchange s s
  | exchange_message s s1 now m s2 :
      exchange s s1 -> onmessage now m s1 = Returned s2 ->
      exchange s (task (Returned s2))
  | exchange_ended s s1 id :
      exchange s s1 -> In id (outputSourcesRef (refs s1)) ->
      exchange s (completion id s1).

(** The user ends the session: one turn of the loop. *)
Definition endSession (s : Session) : Session := task (handleEndSession s).

(** Section 4.6 and section 5 on the order of release. *)
Definition release_order_claim : Prop :=
  forall s, Reachable s ->
    in_order spec_rank (released_by s (endSession s)) = true.

(** Section 5 on the guards: once everything is released, a second
    teardown finds every release guarded and makes no call. *)
Definition guarded_release_claim : Prop :=
  forall s, Reachable s ->
    all_released (endSession (endSession s)) /\
    released_by (endSession s) (endSession (endSession s)) = [].

(** Section 8 on teardown: run twice in a row, whatever was acquired, it
    raises no secondary error. *)
Definition quiet_teardown_claim : Prop :=
  forall s, Reachable s ->
    uncaught (world (endSession (endSession s))) = uncaught (world s).

(** The same on the handles: all are released, and stay so. *)
Definition lasting_release_claim : Prop :=
  forall s events s', Reachable s ->
    run events (endSession (endSession s)) = Some s' -> all_released s'.

(** After a teardown of a session that was up: the connection made, the
    microphone request settled, every handle released. *)
Definition torn_down (s : Session) : Prop :=
  Inv s /\ socket (agenda s) = SocketOpen /\ micPending (agenda s) = false /\
  sessionPromiseRef (refs s) = Some Fulfilled /\ all_released s.

(** Section 7 on the opening statement: a speech call that fails or returns
    nothing leads to the start of the live session, not to the error
    state. *)
Definition opening_fallback_claim : Prop :=
  forall api s',
    (getTextToSpeech api = inr None \/ exists e, getTextToSpeech api = inl e) ->
    step (TtsSettled api) init = Some s' ->
    status (view s') = Starting /\ socket (agenda s') = Connecting.

(** The states of the examples. *)
Definition awaiting_microphone : Session :=
  after [TtsSettled (ApiResponds None); SocketOpened].

Definition errored_while_speaking : Session :=
  after [TtsSettled (ApiResponds (Some "AAAAAAAA"%string)); SourceEnded 0;
         SocketOpened; ConnectSettled true; MicSettled true;
         ServerMessage 1 (ModelAudioFrame "AAAAAAAA"); TransportError].

Definition mid_turn : Session :=
  receive [(0%float, PartialUserTranscript " My lord, ");
           (0%float, PartialModelTranscript "Yes? ")] init.

(** The request for the opening line returned nothing and the connection
    is being made. *)
Definition connecting_session : Session :=
  after [TtsSettled (ApiResponds None)].

(** The connection failed. *)
Definition rejected_session : Session :=
  after [TtsSettled (ApiResponds None); ConnectSettled false].

(** The opening line has played, the channel is open, the microphone was
    refused. *)
Definition refused_session : Session :=
  after [TtsSettled (ApiResponds (Some "AAAAAAAA"%string)); SourceEnded 0;
         SocketOpened; ConnectSettled true; MicSettled false].

(** The microphone was refused on an open channel. *)
Definition silenced (s : Session) : Prop :=
  Inv s /\ scriptProcessorRef (refs s) = None /\
  micPending (agenda s) = false /\ socket (agenda s) = SocketOpen.

Definition unit_interval (f : Q) : Prop := (- (1) <= f)%Q /\ (f <= 1)%Q.

(** What the handler returns for the first frame of the judge. *)
Definition first_frame_handled : Session :=
  final (onmessage 1 (ModelAudioFrame "AAAAAAAA") listening_session).

(** A burst of three frames: two at the same clock reading, one later. *)
Definition burst : list (float * string) :=
  [(1%float, "AAAAAAAA"%string); (1%float, "AAAAAAAAAAAAAAAA"%string);
   (2%float, "AAAAAAAA"%string)].

(** Two frames of three samples at the same clock reading. *)
Definition pair_of_frames : list (float * string) :=
  [(1%float, "AAAAAAAA"%string); (1%float, "AAAAAAAA"%string)].

(** Section 8, property 2: the frames of a burst do not overlap. *)
Definition gapless_claim : Prop :=
  forall s frames bufs,
    Reachable s -> outputAudioContextRef (refs s) <> None ->
    Forall time (map fst frames) -> Forall2 decodes_to frames bufs ->
    no_overlap (skipn (List.length (schedule s)) (schedule (play frames s))).

(** Section 4.1 on the encoder: a sample of [-1, 1] scales to a value of
    the signed 16-bit range, which the conversion then keeps. *)
Definition scaling_claim : Prop :=
  forall f, unit_interval f ->
    is_int16 (Codec.Qtrunc (Codec.scale f)) /\
    Codec.ToInt16 (Codec.scale f) = Codec.Qtrunc (Codec.scale f).

Definition burst_buffers : list Codec.AudioBuffer :=
  [Codec.mkAudioBuffer 24000 1 [0; 0; 0];
   Codec.mkAudioBuffer 24000 1 [0; 0; 0; 0; 0; 0];
   Codec.mkAudioBuffer 24000 1 [0; 0; 0]].

(** * The rest of the code *)

(** The other components of the sources: what the session component
    renders, the text requests of services/geminiService, CaseStudiesNews,
    ExpertLocator, AIChatbot, VirtualCourtroom, SMSHelp, the audio playback
    of ChatUI and the title of Header.  A handler is a function on the
    state of its component, with localStorage and the console beside it
    where it uses them.  What a handler awaits, the answer of a request, is
    an argument of the function.  A handler runs as one step, no other
    callback in between, unless it is given in two parts, up to its await
    and from there on. *)

From Stdlib Require Import DecimalString.

(** ** What the session component renders *)

(** [StatusIndicator]: the caption, its colour class, and whether the
    spinner is shown.  The switch has no case for 'active'. *)
Record Indicator : Type := mkIndicator {
  indicator_text : string;
  indicator_color : string;
  indicator_spinner : bool
}.

Definition StatusIndicator (status : SessionStatus) : Indicator :=
  let text := ""%string in
  let color := "text-slate-500 dark:text-slate-400"%string in
  let '(text, color) :=
    match status with
    | Initializing => ("Preparing the courtroom..."%string, color)
    | Starting => ("Connecting to the session..."%string, color)
    | Listening => ("Listening..."%string, "text-green-500"%string)
    | Speaking => ("Judge is speaking..."%string, "text-sky-500"%string)
    | Ended => ("Session has ended."%string, color)
    | Error => ("An error occurred."%string, "text-red-500"%string)
    | Active => (text, color)
    end in
  mkIndicator text color
    match status with
    | Listening | Speaking | Starting => true
    | _ => false
    end.

(** The body of the component's JSX that depends on its state: the
    committed entries, the two partial lines ([currentUserInput && ...]),
    the error line ([status === 'error' && ...]), the indicator, and the
    highlight of the microphone. *)
Record Screen : Type := mkScreen {
  entries : list Transcript;
  user_line : option string;
  judge_line : option string;
  error_line : option string;
  indicator : Indicator;
  microphone_lit : bool
}.

Definition render (s : Session) : Screen :=
  mkScreen
    (transcripts (view s))
    (if truthy (currentUserInput (view s))
     then Some ("You: " ++ currentUserInput (view s) ++ "...")%string
     else None)
    (if truthy (currentJudgeOutput (view s))
     then Some ("Judge: " ++ currentJudgeOutput (view s) ++ "...")%string
     else None)
    match status (view s) with
    | Error => Some (error (view s))
    | _ => None
    end
    (StatusIndicator (status (view s)))
    match status (view s) with
    | Listening => true
    | _ => false
    end.

(** *** Vocabulary of the further properties *)

(** An entry of the transcript as [onTurnComplete] pushes them. *)
Definition entry_ok (t : Transcript) : Prop :=
  text t <> ""%string /\ trim (text t) = text t.

(** What the screen shows agrees with what the callbacks keep. *)
Record Shown (s : Session) : Prop := mkShown {
  sh_status : status (view s) <> Active;
  sh_error : status (view s) = Error -> error (view s) <> ""%string;
  sh_user : currentUserInput (view s) = currentUserInputRef (refs s);
  sh_judge : currentJudgeOutput (view s) = currentJudgeOutputRef (refs s);
  sh_entries : Forall entry_ok (transcripts (view s))
}.

(** The text a message adds to each accumulator. *)
Definition heard (m : LiveServerMessage) : string :=
  match inputTranscription m with
  | Some t => t
  | None => ""%string
  end.

Definition spoken (m : LiveServerMessage) : string :=
  match outputTranscription m with
  | Some t => t
  | None => ""%string
  end.

(** A frame source that was started and has not fired 'ended'. *)
Definition playing (s : Session) (id : nat) : Prop :=
  exists n, find_node id s = Some n /\ role n = FrameSource /\ can_end n = true.

Record Tracked (s : Session) : Prop := mkTracked {
  tr_nodup : NoDup (outputSourcesRef (refs s));
  tr_playing : forall id, In id (outputSourcesRef (refs s)) <-> playing s id
}.





(** The speech request is over and has left no output context. *)
Definition voiceless (s : Session) : Prop :=
  ttsPending (agenda s) = false /\
  outputAudioContextRef (refs s) = None /\
  nodes (world s) = [] /\
  outputSourcesRef (refs s) = [].

(** The capture graph is down on a channel whose promise has resolved. *)
Definition capture_over (s : Session) : Prop :=
  Inv s /\ capturing s = false /\ micPending (agenda s) = false /\
  socket (agenda s) = SocketOpen /\
  sessionPromiseRef (refs s) = Some Fulfilled /\
  sessionClosed (world s) = true.

(** Buffers delivered by the processing node, one turn of the loop each. *)
Fixpoint record (buffers : list (list Q)) (s : Session) : Session :=
  match buffers with
  | [] => s
  | inputData :: rest => record rest (task (Returned (onaudioprocess inputData s)))
  end.

(** The opening line plays, the channel opens and the microphone is granted
    before the promise of [ai.live.connect] resolves. *)
Definition early_microphone : Session :=
  after [TtsSettled (ApiResponds (Some "AAAAAAAA"%string)); SourceEnded 0;
         SocketOpened; MicSettled true].

Definition voiceless_session : Session :=
  after [TtsSettled (ApiResponds None); SocketOpened; ConnectSettled true;
         MicSettled true].

(** ** services/geminiService.ts: the text requests *)

Module Service.

(** [String.prototype.toLowerCase] on the code units below 256: the
    letters A to Z and the capital letters of Latin-1. *)
Definition toLowerCase_char (c : ascii) : ascii :=
  let n := N_of_ascii c in
  if ((65 <=? n) && (n <=? 90) ||
      (192 <=? n) && (n <=? 222) && negb (n =? 215))%N
  then ascii_of_N (n + 32)
  else c.

Fixpoint toLowerCase (s : string) : string :=
  match s with
  | EmptyString => EmptyString
  | String c rest => String (toLowerCase_char c) (toLowerCase rest)
  end.

(** What [ai.models.generateContent] does for a request whose answer is
    read as text: it throws (or answers without text, which throws at the
    first use of the text), or answers with text. *)
Inductive TextOutcome : Type :=
  | TextThrows
  | TextResponds (text : string).

(** [translateText]: the message it logs on failure is left out. *)
Definition translateText (api : TextOutcome) (text targetLanguage : string)
  : string :=
  if String.eqb (toLowerCase targetLanguage) "english" || negb (truthy text)
  then text
  else match api with
       | TextResponds response_text => trim response_text
       | TextThrows => text
       end.

(** *** The answer of a grounded request *)

Record Link : Type := mkLink {
  link_title : string;
  uri : string
}.

(** A grounding chunk: [chunk.maps] and [chunk.web], each present or not. *)
Record GroundingChunk : Type := mkChunk {
  maps : option Link;
  web : option Link
}.

(** [response.text] (absent when the answer has no text part) and
    [response.candidates?.[0]?.groundingMetadata?.groundingChunks || []]. *)
Record Response : Type := mkResponse {
  response_text : option string;
  groundingChunks : list GroundingChunk
}.

(** What [JSON.parse] gives when it returns: an array of records of the
    expected type, or some other value.  The elements are taken at the type
    the source casts them to. *)
Inductive Json (A : Type) : Type :=
  | JsonArray (items : list A)
  | JsonOther.
Arguments JsonArray {A} items.
Arguments JsonOther {A}.

Definition newline : ascii := ascii_of_N 10.

Fixpoint strip_prefix (p s : string) : option string :=
  match p, s with
  | EmptyString, _ => Some s
  | String a p', String b s' =>
      if Ascii.eqb a b then strip_prefix p' s' else None
  | String _ _, EmptyString => None
  end.

Definition reverse (s : string) : string :=
  string_of_list_ascii (rev (list_ascii_of_string s)).

(** [s.replace(/^```json\n?/, '')] *)
Definition strip_fence_open (s : string) : string :=
  match strip_prefix "```json" s with
  | Some rest =>
      match rest with
      | String c r => if Ascii.eqb c newline then r else rest
      | EmptyString => rest
      end
  | None => s
  end.

(** [s.replace(/```$/, '')] *)
Definition strip_fence_close (s : string) : string :=
  match strip_prefix "```" (reverse s) with
  | Some r => reverse r
  | None => s
  end.

(** [response.text.trim().replace(/^```json\n?/, '').replace(/```$/, '')] *)
Definition sanitize (text : string) : string :=
  strip_fence_close (strip_fence_open (trim text)).

(** An answer wrapped in a Markdown fence. *)
Definition fenced (body : string) : string :=
  ("```json" ++ String newline body ++ "```")%string.

Definition is_whitespace (s : string) : Prop :=
  Forall (fun c => isWhiteSpace c = true) (list_ascii_of_string s).

(** *** findLegalAid *)

Record ExpertLocationResult : Type := mkResult {
  title : string;
  distance : string;
  rating : Q;
  description : string;
  mapUri : string;
  contactNumber : option string
}.

Definition fallbackResult (place : Link) : ExpertLocationResult :=
  mkResult (link_title place) "N/A" 0
           "Details not available. Click link for more info."
           (uri place) None.

(** The places of the chunks that have a [maps] part, in order:
    [groundingChunks.filter(chunk => chunk.maps)] read at [chunk.maps]. *)
Definition mapped (chunks : list GroundingChunk) : list Link :=
  flat_map (fun chunk => match maps chunk with
                         | Some place => [place]
                         | None => []
                         end) chunks.

Section Parsing.

Variable A : Type.

(** [JSON.parse]: [None] when it throws. *)
Variable JSON_parse : string -> option (Json A).

(** The [try] block shared by the three requests: sanitize and parse.  An
    answer without text throws at [response.text.trim()]. *)
Definition parse_answer (response : Response) : option (Json A) :=
  match response_text response with
  | Some text => JSON_parse (sanitize text)
  | None => None
  end.

End Parsing.

(** [findLegalAid] from the point where [generateContent] has answered;
    [inl] is the message of the Error it throws. *)
Definition findLegalAid
  (JSON_parse : string -> option (Json ExpertLocationResult))
  (response : Response) : string + list ExpertLocationResult :=
  match parse_answer _ JSON_parse response with
  | Some (JsonArray results) => inr results
  | Some JsonOther => inr []
  | None =>
      (* [chunk.maps!]: the filter has kept the chunks with a maps part *)
      let fallbackResults :=
        map (fun chunk =>
               match maps chunk with
               | Some place => fallbackResult place
               | None => fallbackResult (mkLink "" "")
               end)
            (filter (fun chunk => match maps chunk with
                                  | Some _ => true
                                  | None => false
                                  end) (groundingChunks response)) in
      if (0 <? List.length fallbackResults)%nat then inr fallbackResults
      else inl "Could not retrieve or parse location data."%string
  end.

(** *** getLegalNews and getRelatedNews *)

Record LegalNewsArticle : Type := mkArticle {
  headline : string;
  summary : string;
  publisher : string;
  date : string;
  detailedBrief : string;
  keyPoints : list string;
  sources : option (list Link)
}.

(** [{ ...article, sources }] *)
Definition with_sources (srcs : list Link) (article : LegalNewsArticle)
  : LegalNewsArticle :=
  mkArticle (headline article) (summary article) (publisher article)
            (date article) (detailedBrief article) (keyPoints article)
            (Some srcs).

(** [groundingChunks.filter(chunk => chunk.web).map(chunk => ({ title:
    chunk.web!.title, uri: chunk.web!.uri }))] *)
Definition web_sources (response : Response) : list Link :=
  map (fun chunk => match web chunk with
                    | Some page => mkLink (link_title page) (uri page)
                    | None => mkLink "" ""
                    end)
      (filter (fun chunk => match web chunk with
                            | Some _ => true
                            | None => false
                            end) (groundingChunks response)).

Definition attach_sources (srcs : list Link) (articles : list LegalNewsArticle)
  : list LegalNewsArticle :=
  if (0 <? List.length srcs)%nat then map (with_sources srcs) articles
  else articles.

Definition getLegalNews
  (JSON_parse : string -> option (Json LegalNewsArticle))
  (response : Response) : string + list LegalNewsArticle :=
  let srcs := web_sources response in
  match parse_answer _ JSON_parse response with
  | Some (JsonArray articles) => inr (attach_sources srcs articles)
  | Some JsonOther => inr []
  | None => inl "Could not retrieve or parse news data."%string
  end.

Definition getRelatedNews
  (JSON_parse : string -> option (Json LegalNewsArticle))
  (response : Response) : list LegalNewsArticle :=
  let srcs := web_sources response in
  match parse_answer _ JSON_parse response with
  | Some (JsonArray articles) => attach_sources srcs articles
  | Some JsonOther => []
  | None => []
  end.

End Service.

(** ** features/news: CaseStudiesNews *)

Module News.

Inductive Key : Type :=
  | NEWS_CACHE_KEY_ENGLISH
  | LATEST_NEWS_KEY_ENGLISH.

(** A string kept in localStorage under one of the two keys: the JSON of
    a list of articles, which is what the component writes, or a string
    [JSON.parse] throws on.  A list is stored and read back as it is. *)
Inductive Stored : Type :=
  | Articles (l : list Service.LegalNewsArticle)
  | Unparsable.

Record Storage : Type := mkStorage {
  news_cache : option Stored;
  latest_news : option Stored
}.

Record DisplayableArticle : Type := mkDisplayable {
  display : Service.LegalNewsArticle;
  original : Service.LegalNewsArticle
}.

(** The component's state, with localStorage and the console beside it. *)
Record State : Type := mkState {
  query : string;
  isLoading : bool;
  error : string;
  results : option (list DisplayableArticle);
  selectedArticle : option DisplayableArticle;
  relatedArticles : list DisplayableArticle;
  isRelatedLoading : bool;
  newArticlesAvailable : bool;
  localStorage : Storage;
  console : list string
}.

Definition setIsLoading (v : bool) (st : State) : State :=
  mkState (query st) v (error st) (results st) (selectedArticle st)
          (relatedArticles st) (isRelatedLoading st) (newArticlesAvailable st)
          (localStorage st) (console st).
Definition setError (v : string) (st : State) : State :=
  mkState (query st) (isLoading st) v (results st) (selectedArticle st)
          (relatedArticles st) (isRelatedLoading st) (newArticlesAvailable st)
          (localStorage st) (console st).
Definition setResults (v : option (list DisplayableArticle)) (st : State) : State :=
  mkState (query st) (isLoading st) (error st) v (selectedArticle st)
          (relatedArticles st) (isRelatedLoading st) (newArticlesAvailable st)
          (localStorage st) (console st).
Definition setSelectedArticle (v : option DisplayableArticle) (st : State) : State :=
  mkState (query st) (isLoading st) (error st) (results st) v
          (relatedArticles st) (isRelatedLoading st) (newArticlesAvailable st)
          (localStorage st) (console st).
Definition setRelatedArticles (v : list DisplayableArticle) (st : State) : State :=
  mkState (query st) (isLoading st) (error st) (results st) (selectedArticle st)
          v (isRelatedLoading st) (newArticlesAvailable st)
          (localStorage st) (console st).
Definition setIsRelatedLoading (v : bool) (st : State) : State :=
  mkState (query st) (isLoading st) (error st) (results st) (selectedArticle st)
          (relatedArticles st) v (newArticlesAvailable st)
          (localStorage st) (console st).
Definition setNewArticlesAvailable (v : bool) (st : State) : State :=
  mkState (query st) (isLoading st) (error st) (results st) (selectedArticle st)
          (relatedArticles st) (isRelatedLoading st) v
          (localStorage st) (console st).
Definition set_localStorage (v : Storage) (st : State) : State :=
  mkState (query st) (isLoading st) (error st) (results st) (selectedArticle st)
          (relatedArticles st) (isRelatedLoading st) (newArticlesAvailable st)
          v (console st).
Definition console_error (msg : string) (st : State) : State :=
  mkState (query st) (isLoading st) (error st) (results st) (selectedArticle st)
          (relatedArticles st) (isRelatedLoading st) (newArticlesAvailable st)
          (localStorage st) (console st ++ [msg]).

Definition getItem (k : Key) (st : State) : option Stored :=
  match k with
  | NEWS_CACHE_KEY_ENGLISH => news_cache (localStorage st)
  | LATEST_NEWS_KEY_ENGLISH => latest_news (localStorage st)
  end.

Definition setItem (k : Key) (v : Stored) (st : State) : State :=
  match k with
  | NEWS_CACHE_KEY_ENGLISH =>
      set_localStorage (mkStorage (Some v) (latest_news (localStorage st))) st
  | LATEST_NEWS_KEY_ENGLISH =>
      set_localStorage (mkStorage (news_cache (localStorage st)) (Some v)) st
  end.

Definition removeItem (k : Key) (st : State) : State :=
  match k with
  | NEWS_CACHE_KEY_ENGLISH =>
      set_localStorage (mkStorage None (latest_news (localStorage st))) st
  | LATEST_NEWS_KEY_ENGLISH =>
      set_localStorage (mkStorage (news_cache (localStorage st)) None) st
  end.

(** [json ? JSON.parse(json) : []]; [None] when the parse throws. *)
Definition parse_or_empty (json : option Stored)
  : option (list Service.LegalNewsArticle) :=
  match json with
  | None => Some []
  | Some (Articles l) => Some l
  | Some Unparsable => None
  end.

(** *** [new Map(entries)] and [map.values()] *)

(** [Map.prototype.set] on a map kept in insertion order: a key that is
    present keeps its place and takes the new value. *)
Fixpoint Map_set {V : Type} (k : string) (v : V) (m : list (string * V))
  : list (string * V) :=
  match m with
  | [] => [(k, v)]
  | (k', v') :: rest =>
      if String.eqb k k' then (k, v) :: rest else (k', v') :: Map_set k v rest
  end.

Definition new_Map {V : Type} (entries : list (string * V)) : list (string * V) :=
  fold_left (fun m e => Map_set (fst e) (snd e) m) entries [].

(** [Array.from(new Map(combined.map(item => [item.headline, item])).values())] *)
Definition uniqueCombined (combined : list Service.LegalNewsArticle)
  : list Service.LegalNewsArticle :=
  map snd (new_Map (map (fun item => (Service.headline item, item)) combined)).

(** [existingHeadlines.has(a.headline)] for
    [existingHeadlines = new Set(mainCache.map(a => a.headline))] *)
Definition has_headline (cache : list Service.LegalNewsArticle) (h : string) : bool :=
  existsb (String.eqb h) (map Service.headline cache).

(** The last article of a list that carries a headline. *)
Definition last_with (h : string) (l : list Service.LegalNewsArticle)
  : option Service.LegalNewsArticle :=
  find (fun a => String.eqb (Service.headline a) h) (rev l).

Section Component.

(** The [language] prop, [LANGUAGE_MAP] of the constants, which is not
    among the sources, and what the translation request answers for a
    text. *)
Variable language : string.
Variable LANGUAGE_MAP : string -> string.
Variable api : string -> Service.TextOutcome.

Definition translate (text : string) : string :=
  Service.translateText (api text) text (LANGUAGE_MAP language).

Definition createDisplayableArticles (articles : list Service.LegalNewsArticle)
  : list DisplayableArticle :=
  map (fun originalArticle =>
         if String.eqb language "English"
         then mkDisplayable originalArticle originalArticle
         else
           let displayArticle :=
             Service.mkArticle
               (translate (Service.headline originalArticle))
               (translate (Service.summary originalArticle))
               (Service.publisher originalArticle)
               (Service.date originalArticle)
               (translate (Service.detailedBrief originalArticle))
               (map translate (Service.keyPoints originalArticle))
               (Service.sources originalArticle) in
           mkDisplayable displayArticle originalArticle)
      articles.

(** [handleSearch]: [seen] is the [results] its closure holds, [fetched]
    what [getLegalNews] gave ([inl] when the request or the parsing
    threw). *)
Definition handleSearch (seen : option (list DisplayableArticle))
  (searchQuery : string) (fetched : string + list Service.LegalNewsArticle)
  (st : State) : State :=
  if negb (truthy (trim searchQuery)) then st
  else
    let st := setIsLoading true st in
    let st := setError "" st in
    let st := setSelectedArticle None st in
    let st := setRelatedArticles [] st in
    let st :=
      match fetched with
      | inr englishResponse =>
          let st := setItem NEWS_CACHE_KEY_ENGLISH (Articles englishResponse) st in
          let displayableResults := createDisplayableArticles englishResponse in
          setResults (Some displayableResults) st
      | inl err =>
          let st := console_error "Error fetching legal news:" st in
          let st := setError
            "Sorry, something went wrong while fetching news. Please try again." st in
          match seen with
          | None => setResults (Some []) st
          | Some _ => st
          end
      end in
    setIsLoading false st.

(** [submitSearch]: the closure of the render that shows the form. *)
Definition submitSearch (fetched : string + list Service.LegalNewsArticle)
  (st : State) : State :=
  handleSearch (results st) (query st) fetched st.

(** [loadInitialData], run by the effect of the first render: the
    [handleSearch] it calls is the closure of that render, whose [results]
    is null.  The search is not awaited; what it writes after its await and
    what [loadInitialData] does after the call touch different state. *)
Definition loadInitialData (fetched : string + list Service.LegalNewsArticle)
  (st : State) : State :=
  let '(st, initialSearchPerformed) :=
    match getItem NEWS_CACHE_KEY_ENGLISH st with
    | Some (Articles cachedEnglishNews) =>
        if (0 <? List.length cachedEnglishNews)%nat then
          let displayableCache := createDisplayableArticles cachedEnglishNews in
          let st := setResults (Some displayableCache) st in
          let st := setIsLoading false st in
          (handleSearch None (query st) fetched st, true)
        else (st, false)
    | Some Unparsable =>
        (console_error "Failed to load news from cache" st, false)
    | None => (st, false)
    end in
  let st := if initialSearchPerformed then st
            else handleSearch None (query st) fetched (setIsLoading true st) in
  match getItem LATEST_NEWS_KEY_ENGLISH st with
  | Some _ => setNewArticlesAvailable true st
  | None => st
  end.

(** [backgroundFetch], every five minutes. *)
Definition backgroundFetch (fetched : string + list Service.LegalNewsArticle)
  (st : State) : State :=
  match parse_or_empty (getItem NEWS_CACHE_KEY_ENGLISH st) with
  | None => console_error "Background news fetch failed:" st
  | Some mainCache =>
      match fetched with
      | inl err => console_error "Background news fetch failed:" st
      | inr newEnglishArticles =>
          let uniqueNewArticles :=
            filter (fun a => negb (has_headline mainCache (Service.headline a)))
                   newEnglishArticles in
          if (0 <? List.length uniqueNewArticles)%nat then
            match parse_or_empty (getItem LATEST_NEWS_KEY_ENGLISH st) with
            | None => console_error "Background news fetch failed:" st
            | Some latestCache =>
                let combinedNew := uniqueNewArticles ++ latestCache in
                let st := setItem LATEST_NEWS_KEY_ENGLISH
                            (Articles (uniqueCombined combinedNew)) st in
                setNewArticlesAvailable true st
            end
          else st
      end
  end.

(** [handleLoadNewArticles] *)
Definition handleLoadNewArticles (st : State) : State :=
  match getItem LATEST_NEWS_KEY_ENGLISH st with
  | None => st
  | Some Unparsable => console_error "Failed to load new articles:" st
  | Some (Articles newEnglishArticles) =>
      let newDisplayableArticles := createDisplayableArticles newEnglishArticles in
      let st := setResults
                  (Some (newDisplayableArticles ++
                         match results st with
                         | Some prevResults => prevResults
                         | None => []
                         end)) st in
      match parse_or_empty (getItem NEWS_CACHE_KEY_ENGLISH st) with
      | None => console_error "Failed to load new articles:" st
      | Some mainCache =>
          let combinedEnglishCache := newEnglishArticles ++ mainCache in
          let st := setItem NEWS_CACHE_KEY_ENGLISH
                      (Articles (uniqueCombined combinedEnglishCache)) st in
          let st := removeItem LATEST_NEWS_KEY_ENGLISH st in
          setNewArticlesAvailable false st
      end
  end.

(** [handleSelectArticle]; [related] is what [getRelatedNews] gave. *)
Definition handleSelectArticle (article : DisplayableArticle)
  (related : string + list Service.LegalNewsArticle) (st : State) : State :=
  let st := setSelectedArticle (Some article) st in
  let st := setRelatedArticles [] st in
  let st := setIsRelatedLoading true st in
  let st :=
    match related with
    | inr l => setRelatedArticles (createDisplayableArticles l) st
    | inl err => console_error "Failed to fetch related articles:" st
    end in
  setIsRelatedLoading false st.

Definition handleBackToList (st : State) : State :=
  setRelatedArticles [] (setSelectedArticle None st).

End Component.

(** The state of the first render over a given localStorage. *)
Definition init (storage : Storage) : State :=
  mkState "latest Indian supreme court judgements" true "" None None [] false
          false storage [].

(** *** Vocabulary of the properties *)

Definition headlines (l : list Service.LegalNewsArticle) : list string :=
  map Service.headline l.

Definition cached (k : Key) (st : State) : list Service.LegalNewsArticle :=
  match getItem k st with
  | Some (Articles l) => l
  | _ => []
  end.

Definition article (h body : string) : Service.LegalNewsArticle :=
  Service.mkArticle h body "" "" "" [] None.

End News.

(** ** features/locator: ExpertLocator *)

Module Locator.

(** What localStorage keeps under 'satyavak_locator_history'. *)
Inductive Stored : Type :=
  | History (l : list string)
  | Unparsable.

(** The state the search reads and writes ([location] is only passed on to
    the request), with localStorage and the console beside it. *)
Record State : Type := mkState {
  query : string;
  isLoading : bool;
  error : string;
  results : option (list Service.ExpertLocationResult);
  hasSearched : bool;
  searchHistory : list string;
  localStorage : option Stored;
  console : list string
}.

Definition setQuery (v : string) (st : State) : State :=
  mkState v (isLoading st) (error st) (results st) (hasSearched st)
          (searchHistory st) (localStorage st) (console st).
Definition setIsLoading (v : bool) (st : State) : State :=
  mkState (query st) v (error st) (results st) (hasSearched st)
          (searchHistory st) (localStorage st) (console st).
Definition setError (v : string) (st : State) : State :=
  mkState (query st) (isLoading st) v (results st) (hasSearched st)
          (searchHistory st) (localStorage st) (console st).
Definition setResults (v : option (list Service.ExpertLocationResult))
  (st : State) : State :=
  mkState (query st) (isLoading st) (error st) v (hasSearched st)
          (searchHistory st) (localStorage st) (console st).
Definition setHasSearched (v : bool) (st : State) : State :=
  mkState (query st) (isLoading st) (error st) (results st) v
          (searchHistory st) (localStorage st) (console st).
Definition setSearchHistory (f : list string -> list string) (st : State) : State :=
  mkState (query st) (isLoading st) (error st) (results st) (hasSearched st)
          (f (searchHistory st)) (localStorage st) (console st).
Definition setItem (v : Stored) (st : State) : State :=
  mkState (query st) (isLoading st) (error st) (results st) (hasSearched st)
          (searchHistory st) (Some v) (console st).
Definition console_error (msg : string) (st : State) : State :=
  mkState (query st) (isLoading st) (error st) (results st) (hasSearched st)
          (searchHistory st) (localStorage st) (console st ++ [msg]).

Definition init (storage : option Stored) : State :=
  mkState "" false "" None false [] storage [].

(** [array.slice(0, 5)] *)
Definition slice_0_5 (l : list string) : list string := firstn 5 l.

(** The updater [handleSearch] gives to [setSearchHistory]. *)
Definition updated (trimmedQuery : string) (prev : list string) : list string :=
  let lowerCaseQuery := Service.toLowerCase trimmedQuery in
  let filtered :=
    filter (fun item =>
              negb (String.eqb (Service.toLowerCase item) lowerCaseQuery)) prev in
  slice_0_5 (trimmedQuery :: filtered).

(** [handleSearch]; [found] is what [findLegalAid] gave, [inl] carrying
    the [message] of what was thrown (empty when it has none). *)
Definition handleSearch (searchQuery : string)
  (found : string + list Service.ExpertLocationResult) (st : State) : State :=
  let trimmedQuery := trim searchQuery in
  if negb (truthy trimmedQuery) then st
  else
    let st := setQuery trimmedQuery st in
    let st := setIsLoading true st in
    let st := setError "" st in
    let st := setResults None st in
    let st := setHasSearched true st in
    let st :=
      match found with
      | inr response =>
          let st := setResults (Some response) st in
          setSearchHistory (updated trimmedQuery) st
      | inl message =>
          let st := console_error "Error finding legal aid:" st in
          let displayError :=
            if truthy message then message
            else "Sorry, something went wrong. Please try again."%string in
          setError displayError st
      end in
    setIsLoading false st.

(** The effect on [searchHistory]: an empty history is not written. *)
Definition saveHistory (st : State) : State :=
  if (0 <? List.length (searchHistory st))%nat
  then setItem (History (searchHistory st)) st
  else st.

(** The part of the mount effect that reads the stored history. *)
Definition loadHistory (st : State) : State :=
  match localStorage st with
  | Some (History l) => setSearchHistory (fun _ => l) st
  | Some Unparsable => console_error "Failed to load search history:" st
  | None => st
  end.

(** What [renderContent] shows under the search box. *)
Inductive Content : Type :=
  | Finding
  | ErrorText (message : string)
  | Cards (found : list Service.ExpertLocationResult)
  | NoResults
  | Blank.

Definition renderContent (st : State) : Content :=
  if isLoading st then Finding
  else if truthy (error st) then ErrorText (error st)
  else match results st with
       | Some (r :: l) => Cards (r :: l)
       | Some [] => NoResults
       | None => Blank
       end.

(** A search and the effect that follows its render. *)
Definition search (searchQuery : string)
  (found : string + list Service.ExpertLocationResult) (st : State) : State :=
  saveHistory (handleSearch searchQuery found st).

(** *** Vocabulary of the properties *)


Fixpoint searches (l : list (string * (string + list Service.ExpertLocationResult)))
  (st : State) : State :=
  match l with
  | [] => st
  | (searchQuery, found) :: rest => searches rest (search searchQuery found st)
  end.

End Locator.

(** ** features/chatbot: AIChatbot *)

Module Chatbot.

Inductive Role : Type := user | model.

Record ChatMessage : Type := mkChatMessage {
  role : Role;
  text : string;
  englishText : string
}.

Record ChatSession : Type := mkChatSession {
  id : string;
  title : string;
  createdAt : Z;
  messages : list ChatMessage
}.

Record State : Type := mkState {
  sessions : list ChatSession;
  activeSessionId : option string;
  isLoading : bool;
  console : list string
}.

Definition setSessions (f : list ChatSession -> list ChatSession) (st : State)
  : State :=
  mkState (f (sessions st)) (activeSessionId st) (isLoading st) (console st).
Definition setActiveSessionId (v : option string) (st : State) : State :=
  mkState (sessions st) v (isLoading st) (console st).
Definition setIsLoading (v : bool) (st : State) : State :=
  mkState (sessions st) (activeSessionId st) v (console st).
Definition console_error (msg : string) (st : State) : State :=
  mkState (sessions st) (activeSessionId st) (isLoading st) (console st ++ [msg]).

Definition init : State := mkState [] None false [].

(** What localStorage keeps under 'satyavak_chat_history'. *)
Inductive Stored : Type :=
  | Sessions (l : list ChatSession)
  | Unparsable.

(** [loadChatHistory]; the message it logs when the parse throws is left
    out. *)
Definition loadChatHistory (storedHistory : option Stored) : list ChatSession :=
  match storedHistory with
  | Some (Sessions l) => l
  | Some Unparsable => []
  | None => []
  end.

(** The state once the mount effect has run. *)
Definition mounted (storedHistory : option Stored) : State :=
  setSessions (fun _ => loadChatHistory storedHistory) init.

(** [Number.prototype.toString] on the integer [Date.now()] gives. *)
Definition toString (n : Z) : string :=
  DecimalString.NilZero.string_of_int (Z.to_int n).

(** [s.id === activeSessionId] *)
Definition is_active (activeSessionId : option string) (s : ChatSession) : bool :=
  match activeSessionId with
  | Some a => String.eqb (id s) a
  | None => false
  end.

(** [sessions.find(s => s.id === activeSessionId) || null] *)
Definition activeSession (st : State) : option ChatSession :=
  find (is_active (activeSessionId st)) (sessions st).

(** The history given to the model: role and English text of each message
    of the active session. *)
Definition geminiHistory (st : State) : list (Role * string) :=
  match activeSession st with
  | Some s => map (fun m => (role m, englishText m)) (messages s)
  | None => []
  end.

(** [handleNewChat]; the two readings of the clock. *)
Definition handleNewChat (now now' : Z) (st : State) : State :=
  let newSession := mkChatSession (toString now) "New Chat" now' [] in
  let st := setSessions (fun prev => newSession :: prev) st in
  setActiveSessionId (Some (id newSession)) st.

Definition handleSelectSession (i : string) (st : State) : State :=
  setActiveSessionId (Some i) st.

Definition handleDeleteSession (i : string) (st : State) : State :=
  let activeSessionId := activeSessionId st in
  let st := setSessions (filter (fun s => negb (String.eqb (id s) i))) st in
  match activeSessionId with
  | Some a => if String.eqb a i then setActiveSessionId None st else st
  | None => st
  end.

Definition errorMessage : ChatMessage :=
  mkChatMessage model "Sorry, I encountered an error. Please try again."
                "Sorry, I encountered an error. Please try again.".

(** The two updaters of [handleSendMessage]. *)
Definition with_user_message (activeSessionId englishMessage : string)
  (userMessage : ChatMessage) (s : ChatSession) : ChatSession :=
  if String.eqb (id s) activeSessionId then
    let isNewChat := (List.length (messages s) =? 0)%nat in
    mkChatSession (id s)
      (if isNewChat then (substring 0 30 englishMessage ++ "...")%string
       else title s)
      (createdAt s)
      (messages s ++ [userMessage])
  else s.

Definition with_message (activeSessionId : string) (m : ChatMessage)
  (s : ChatSession) : ChatSession :=
  if String.eqb (id s) activeSessionId
  then mkChatSession (id s) (title s) (createdAt s) (messages s ++ [m])
  else s.

Section Component.

Variable language : string.
Variable LANGUAGE_MAP : string -> string.
Variable api : string -> Service.TextOutcome.

(** [language === 'English' ? text : await translateText(text, ...)] *)
Definition localized (text : string) : string :=
  if String.eqb language "English" then text
  else Service.translateText (api text) text (LANGUAGE_MAP language).

(** [handleSendMessage] up to the request to the model; [None] when there
    is no active session. *)
Definition handleSendMessage_begin (englishMessage : string) (st : State)
  : State * option string :=
  match activeSessionId st with
  | None => (console_error "No active session to send message to." st, None)
  | Some a =>
      if negb (truthy a)
      then (console_error "No active session to send message to." st, None)
      else
        let st := setIsLoading true st in
        let translatedUserInput := localized englishMessage in
        let userMessage := mkChatMessage user translatedUserInput englishMessage in
        (setSessions (map (with_user_message a englishMessage userMessage)) st,
         Some a)
  end.

(** The same from the point where the request settles; [reply] is the text
    of the answer, [None] when the request threw. *)
Definition handleSendMessage_settle (a : string) (reply : option string)
  (st : State) : State :=
  let st :=
    match reply with
    | Some englishResponseText =>
        let translatedResponseText := localized englishResponseText in
        let modelMessage :=
          mkChatMessage model translatedResponseText englishResponseText in
        setSessions (map (with_message a modelMessage)) st
    | None =>
        let st := console_error "Error fetching response:" st in
        setSessions (map (with_message a errorMessage)) st
    end in
  setIsLoading false st.

Definition handleSendMessage (englishMessage : string) (reply : option string)
  (st : State) : State :=
  match handleSendMessage_begin englishMessage st with
  | (st, Some a) => handleSendMessage_settle a reply st
  | (st, None) => st
  end.

(** What the user and the model can do, one callback at a time.  A
    conversation is selected or deleted from the list on the screen. *)
Inductive Event : Type :=
  | NewChat (now now' : Z)
  | SelectSession (index : nat)
  | DeleteSession (index : nat)
  | SendMessage (englishMessage : string) (reply : option string).

Definition step (e : Event) (st : State) : option State :=
  match e with
  | NewChat now now' => Some (handleNewChat now now' st)
  | SelectSession index =>
      match nth_error (sessions st) index with
      | Some s => Some (handleSelectSession (id s) st)
      | None => None
      end
  | DeleteSession index =>
      match nth_error (sessions st) index with
      | Some s => Some (handleDeleteSession (id s) st)
      | None => None
      end
  | SendMessage englishMessage reply =>
      match activeSession st with
      | Some _ => Some (handleSendMessage englishMessage reply st)
      | None => None
      end
  end.

Fixpoint run (events : list Event) (st : State) : option State :=
  match events with
  | [] => Some st
  | e :: rest =>
      match step e st with
      | Some st' => run rest st'
      | None => None
      end
  end.

End Component.

(** *** Vocabulary of the properties *)

(** The active id, when set, is the id of a conversation of the list. *)
Definition active_listed (st : State) : Prop :=
  forall a, activeSessionId st = Some a ->
    exists s, In s (sessions st) /\ id s = a.

(** A conversation made by [handleNewChat] is called "New Chat" until its
    first message, and after that by the start of that message. *)
Definition titled (s : ChatSession) : Prop :=
  match messages s with
  | [] => title s = "New Chat"%string
  | first :: _ =>
      role first = user /\
      title s = (substring 0 30 (englishText first) ++ "...")%string
  end.

End Chatbot.

(** ** features/courtroom: VirtualCourtroom *)

Module Courtroom.

Record Instructions : Type := mkInstructions {
  role : string;
  objective : string;
  tips : list string
}.

Record CourtroomScenario : Type := mkScenario {
  key : string;
  title : string;
  description : string;
  instructions : Instructions
}.

Definition scenarios : list CourtroomScenario :=
  [ mkScenario "consumer_complaint" "Consumer Complaint Case"
      "Argue your case against a company for a faulty product or poor service. Present your evidence and seek fair compensation for your grievance."
      (mkInstructions
         "You are the Complainant. You have purchased a product that turned out to be defective, and the company has refused to provide a refund or replacement."
         "Clearly and concisely state the facts of your case, present any evidence you have (like receipts or photos), and persuade the judge to rule in your favor."
         [ "Begin with a clear opening statement.";
           "Present your arguments in a chronological order.";
           "Refer to specific dates, amounts, and communications.";
           "Remain calm and respectful at all times." ]);
    mkScenario "bail_application" "Bail Application Hearing"
      "Step into the shoes of a defense counsel arguing for your client's pre-trial release. Convince the court that your client is not a flight risk."
      (mkInstructions
         "You are the Defense Counsel. Your client has been arrested, and you are now arguing for their release on bail pending trial."
         "Convince the judge that your client will not flee, tamper with evidence, or commit further crimes if released. Propose reasonable bail conditions."
         [ "Emphasize your client's ties to the community (family, job).";
           "Address the prosecution's objections directly.";
           "Highlight your client's lack of a criminal record, if applicable.";
           "Argue that detention is not necessary." ]);
    mkScenario "landlord_tenant_dispute" "Landlord-Tenant Dispute"
      "You are a tenant facing an eviction notice you believe is unjust. Argue your case, citing your rights and the terms of your rental agreement."
      (mkInstructions
         "You are the Tenant. Your landlord has served you an eviction notice, which you believe is unfair and retaliatory."
         "Explain to the judge why the eviction is unlawful. Present your side of the story regarding rent payments, property maintenance, and communications with the landlord."
         [ "Refer to your rental agreement or lease.";
           "Provide evidence of timely rent payments.";
           "Document all communication with your landlord.";
           "Clearly state the remedy you are seeking." ]);
    mkScenario "motor_accident_claim" "Motor Accident Claim"
      "Represent a client who has been injured in a road accident. Argue for fair compensation to cover medical expenses and other damages."
      (mkInstructions
         "You are the Claimant's Counsel. Your client was injured in a motor accident due to the negligence of another driver."
         "Establish the other driver's fault, detail the extent of your client's injuries and financial losses, and justify the amount of compensation being claimed."
         [ "Clearly describe how the accident occurred.";
           "Present medical reports and bills as evidence of injury and expenses.";
           "Explain the impact of the accident on your client's life and livelihood.";
           "Reference relevant sections of the Motor Vehicles Act." ]) ]%string.

(** 'selection' | 'instructions' | 'simulation' *)
Inductive Step : Type := selection | instructions_step | simulation.

(** The component's state, and beside it the timers that sessions it has
    shown have set with [setTimeout(onEndSession, 1000)] and that have not
    fired yet. *)
Record State : Type := mkState {
  currentStep : Step;
  selectedScenario : option CourtroomScenario;
  timers : nat
}.

Definition init : State := mkState selection None 0.

Definition handleSelectScenario (scenario : CourtroomScenario) (st : State)
  : State :=
  mkState instructions_step (Some scenario) (timers st).

(** The button of the instructions page: [setCurrentStep('simulation')]. *)
Definition beginSimulation (st : State) : State :=
  mkState simulation (selectedScenario st) (timers st).

Definition handleEndSession (st : State) : State :=
  mkState selection None (timers st).

(** What the component returns. *)
Inductive Page : Type :=
  | SelectionPage (cards : list CourtroomScenario)
  | InstructionsPage (scenario : CourtroomScenario)
  | LiveSession (scenario : CourtroomScenario)
  | Fallback.

Definition render (st : State) : Page :=
  match currentStep st, selectedScenario st with
  | selection, _ => SelectionPage scenarios
  | instructions_step, Some scenario => InstructionsPage scenario
  | simulation, Some scenario => LiveSession scenario
  | _, None => Fallback
  end.

(** What can happen: a button of the page on the screen is pressed, the
    End Session button of the live session is pressed (which sets the
    timer), or a timer fires. *)
Inductive Event : Type :=
  | StartPractice (card : nat)
  | BeginSimulation
  | EndSessionPressed
  | TimerFired.

Definition step (e : Event) (st : State) : option State :=
  match e, render st with
  | StartPractice card, SelectionPage cards =>
      match nth_error cards card with
      | Some scenario => Some (handleSelectScenario scenario st)
      | None => None
      end
  | BeginSimulation, InstructionsPage _ => Some (beginSimulation st)
  | EndSessionPressed, LiveSession _ =>
      Some (mkState (currentStep st) (selectedScenario st) (S (timers st)))
  | TimerFired, _ =>
      match timers st with
      | S n => Some (handleEndSession
                       (mkState (currentStep st) (selectedScenario st) n))
      | O => None
      end
  | _, _ => None
  end.

Fixpoint run (events : list Event) (st : State) : option State :=
  match events with
  | [] => Some st
  | e :: rest =>
      match step e st with
      | Some st' => run rest st'
      | None => None
      end
  end.

End Courtroom.

(** ** features/sms: SMSHelp *)

Module SMS.

Inductive Sender : Type := user | bot.

Record SMSMessage : Type := mkSMS {
  sender : Sender;
  text : string
}.

Record State : Type := mkState {
  messages : list SMSMessage;
  input : string;
  isLoading : bool;
  console : list string
}.

(** The welcome message; its one letter outside Latin-1 is written as the
    bytes of its UTF-8 form. *)
Definition welcome : SMSMessage :=
  mkSMS bot
    ("Welcome to Satyav" ++
     String (ascii_of_N 196) (String (ascii_of_N 129)
       "k SMS Help! This is a demo of how you can get legal information offline. Type your query below as if you were sending an SMS."))%string.

Definition init : State := mkState [welcome] "" false [].

Definition setMessages (f : list SMSMessage -> list SMSMessage) (st : State)
  : State :=
  mkState (f (messages st)) (input st) (isLoading st) (console st).
Definition setInput (v : string) (st : State) : State :=
  mkState (messages st) v (isLoading st) (console st).
Definition setIsLoading (v : bool) (st : State) : State :=
  mkState (messages st) (input st) v (console st).
Definition console_error (msg : string) (st : State) : State :=
  mkState (messages st) (input st) (isLoading st) (console st ++ [msg]).

Inductive Role : Type := role_user | role_model.

(** The history [handleSend] gives to the model:
    [messages.map(...).slice(1)] on the messages its closure holds. *)
Definition history (st : State) : list (Role * string) :=
  skipn 1 (map (fun msg => (match sender msg with
                            | user => role_user
                            | bot => role_model
                            end, text msg)) (messages st)).

Definition errorMessage : SMSMessage :=
  mkSMS bot "Sorry, I couldn't process that. Please try again.".

(** [handleSend] up to the request; [None] when it returns at once. *)
Definition handleSend_begin (st : State) : option State :=
  let trimmedInput := trim (input st) in
  if negb (truthy trimmedInput) || isLoading st then None
  else
    let userMessage := mkSMS user trimmedInput in
    let st := setMessages (fun prev => prev ++ [userMessage]) st in
    let st := setInput "" st in
    Some (setIsLoading true st).

(** The same from the point where the request settles; [reply] is the text
    of the answer, [None] when the request threw. *)
Definition handleSend_settle (reply : option string) (st : State) : State :=
  let st :=
    match reply with
    | Some response_text =>
        let botMessage := mkSMS bot response_text in
        setMessages (fun prev => prev ++ [botMessage]) st
    | None =>
        let st := console_error "SMS Help bot error:" st in
        setMessages (fun prev => prev ++ [errorMessage]) st
    end in
  setIsLoading false st.

(** One callback at a time: the input changes, Send is pressed (or Enter),
    a request that is in flight settles. *)
Inductive Event : Type :=
  | Typed (value : string)
  | Send
  | Settled (reply : option string).

(** The requests in flight are kept beside the state. *)
Definition step (e : Event) (c : State * nat) : option (State * nat) :=
  let (st, inflight) := c in
  match e with
  | Typed value => Some (setInput value st, inflight)
  | Send =>
      match handleSend_begin st with
      | Some st' => Some (st', S inflight)
      | None => Some (st, inflight)
      end
  | Settled reply =>
      match inflight with
      | S n => Some (handleSend_settle reply st, n)
      | O => None
      end
  end.

Fixpoint run (events : list Event) (c : State * nat) : option (State * nat) :=
  match events with
  | [] => Some c
  | e :: rest =>
      match step e c with
      | Some c' => run rest c'
      | None => None
      end
  end.

(** *** Vocabulary of the properties *)

(** Senders alternate, starting with [next]. *)
Fixpoint alternates (next : Sender) (l : list SMSMessage) : bool :=
  match l with
  | [] => true
  | m :: rest =>
      match next, sender m with
      | user, user => alternates bot rest
      | bot, bot => alternates user rest
      | _, _ => false
      end
  end.

Fixpoint turns (next : Role) (l : list (Role * string)) : bool :=
  match l with
  | [] => true
  | (r, _) :: rest =>
      match next, r with
      | role_user, role_user => turns role_model rest
      | role_model, role_model => turns role_user rest
      | _, _ => false
      end
  end.

End SMS.

(** ** components/Header: the title *)

Module Header.

(** [String.prototype.toUpperCase] on one code unit: the letters a to z,
    which the view names are made of; other code units are left as they
    are. *)
Definition toUpperCase_char (c : ascii) : ascii :=
  let n := N_of_ascii c in
  if ((97 <=? n) && (n <=? 122))%N then ascii_of_N (n - 32) else c.

(** [s.replace(pattern, replacement)] with a string pattern and a
    replacement without dollar signs: the first occurrence is replaced. *)
Definition replace (pattern replacement s : string) : string :=
  match index 0 pattern s with
  | Some i =>
      (substring 0 i s ++ replacement ++
       substring (i + String.length pattern)
                 (String.length s - (i + String.length pattern)) s)%string
  | None => s
  end.

(** [currentView.charAt(0).toUpperCase() +
     currentView.slice(1).replace('casestudies', 'Case Studies')] *)
Definition title (currentView : string) : string :=
  match currentView with
  | EmptyString => EmptyString
  | String c rest =>
      String (toUpperCase_char c) (replace "casestudies" "Case Studies" rest)
  end.

End Header.

(** ** components/ChatUI: reading a message aloud *)

Module ChatUI.

(** An [AudioBufferSourceNode] made by [playAudio]: it is started when it
    is made. *)
Record Source : Type := mkSource {
  buffer : Codec.AudioBuffer;
  stopCalled : bool;
  hasEnded : bool
}.

(** [{ source, index }]; a source is its position among the sources
    made. *)
Record NowPlaying : Type := mkNowPlaying {
  source : nat;
  index : nat
}.

(** The state the playback reads and writes, and beside it the sources
    made, the requests for speech in flight (each with the index of its
    message) and the console. *)
Record State : Type := mkState {
  nowPlaying : option NowPlaying;
  audioContextRef : option AudioContext;
  sources : list Source;
  requests : list nat;
  console : list string
}.

Definition init : State := mkState None None [] [] [].

Definition setNowPlaying (v : option NowPlaying) (st : State) : State :=
  mkState v (audioContextRef st) (sources st) (requests st) (console st).
Definition write_audioContextRef (v : option AudioContext) (st : State) : State :=
  mkState (nowPlaying st) v (sources st) (requests st) (console st).
Definition set_sources (v : list Source) (st : State) : State :=
  mkState (nowPlaying st) (audioContextRef st) v (requests st) (console st).
Definition set_requests (v : list nat) (st : State) : State :=
  mkState (nowPlaying st) (audioContextRef st) (sources st) v (console st).
Definition console_error (msg : string) (st : State) : State :=
  mkState (nowPlaying st) (audioContextRef st) (sources st) (requests st)
          (console st ++ [msg]).

(** [source.stop()] on a source that was started. *)
Definition source_stop (id : nat) (st : State) : State :=
  set_sources
    (update_at id (fun s => mkSource (buffer s) true (hasEnded s)) (sources st)) st.

(** [playAudio] up to its request; [i] is the index of the message.  The
    request is made unless the click was on the message that is playing. *)
Definition playAudio_begin (i : nat) (st : State) : State :=
  let current := nowPlaying st in
  let st := match current with
            | Some np => source_stop (source np) st
            | None => st
            end in
  if match current with
     | Some np => Nat.eqb (index np) i
     | None => false
     end
  then st
  else
    let st := match audioContextRef st with
              | None => write_audioContextRef
                          (Some (mkAudioContext running 24000)) st
              | Some _ => st
              end in
    set_requests (requests st ++ [i]) st.

Definition playAudio_catch (st : State) : State :=
  setNowPlaying None (console_error "Error playing audio:" st).

(** The same from the point where [getTextToSpeech] settles.  The
    decoding awaited next does no asynchronous work of its own, so the rest
    runs in the same turn, as in the session. *)
Definition playAudio_resume (i : nat) (api : ApiOutcome) (st : State) : State :=
  match getTextToSpeech api with
  | inl _ => playAudio_catch st
  | inr None => st
  | inr (Some audioData) =>
      if truthy audioData then
        match decodeFrame audioData with
        | None => playAudio_catch st
        | Some audioBuffer =>
            let id := List.length (sources st) in
            let st := set_sources
                        (sources st ++ [mkSource audioBuffer false false]) st in
            setNowPlaying (Some (mkNowPlaying id i)) st
        end
      else st
  end.

(** The [onended] handler of the source [id]. *)
Definition onended (id : nat) (st : State) : State :=
  setNowPlaying
    match nowPlaying st with
    | Some current =>
        if Nat.eqb (source current) id then None else Some current
    | None => None
    end st.

Fixpoint remove_at {A : Type} (k : nat) (l : list A) : list A :=
  match l, k with
  | [], _ => []
  | _ :: rest, O => rest
  | x :: rest, S j => x :: remove_at j rest
  end.

(** One callback at a time: a speaker button is pressed, a request
    settles, a source that has not ended fires 'ended'. *)
Inductive Event : Type :=
  | Pressed (i : nat)
  | Settled (k : nat) (api : ApiOutcome)
  | Ended (id : nat).

Definition step (e : Event) (st : State) : option State :=
  match e with
  | Pressed i => Some (playAudio_begin i st)
  | Settled k api =>
      match nth_error (requests st) k with
      | Some i =>
          Some (playAudio_resume i api (set_requests (remove_at k (requests st)) st))
      | None => None
      end
  | Ended id =>
      match nth_error (sources st) id with
      | Some s =>
          if hasEnded s then None
          else
            Some (onended id
                    (set_sources
                       (update_at id (fun s => mkSource (buffer s) (stopCalled s) true)
                          (sources st)) st))
      | None => None
      end
  end.

Fixpoint run (events : list Event) (st : State) : option State :=
  match events with
  | [] => Some st
  | e :: rest =>
      match step e st with
      | Some st' => run rest st'
      | None => None
      end
  end.

(** The message marked as playing has a source that has not ended. *)
Definition marked_live (st : State) : Prop :=
  forall np, nowPlaying st = Some np ->
    exists s, nth_error (sources st) (source np) = Some s /\ hasEnded s = false.

End ChatUI.

(** * Properties *)

(** ** Sanity checks of the codec *)

Example encode_Man : Codec.encode [77; 97; 110] = "TWFu"%string.
Proof. reflexivity. Qed.

Example encode_Ma : Codec.encode [77; 97] = "TWE="%string.
Proof. reflexivity. Qed.

Example decode_TWFu : Codec.decode "TWFu" = Some [77; 97; 110].
Proof. reflexivity. Qed.

Example decode_malformed : Codec.decode "!!!!" = None.
Proof. reflexivity. Qed.

Example ToInt16_half : Codec.ToInt16 (Codec.scale (1 # 2)) = 16384.
Proof. reflexivity. Qed.

Example ToInt16_minus_one : Codec.ToInt16 (Codec.scale (- (1))) = -32768.
Proof. reflexivity. Qed.

Example trim_both_ends : trim "  my lord  " = "my lord"%string.
Proof. reflexivity. Qed.

(** ** What a turn of the event loop leaves alone *)

Section Frames.

Local Open Scope string_scope.

Lemma append_nil_r (a : string) : a ++ "" = a.
Proof. induction a as [|c a IH]; simpl; [reflexivity | now rewrite IH]. Qed.

Lemma append_assoc (a b c : string) : (a ++ b) ++ c = a ++ (b ++ c).
Proof. induction a as [|x a IH]; simpl; [reflexivity | now rewrite IH]. Qed.

Lemma fold_reaction_view ms : forall s, view (fold_left run_reaction ms s) = view s.
Proof.
  induction ms as [|cb ms IH]; intros s; simpl; [reflexivity|].
  rewrite IH. destruct cb; reflexivity.
Qed.

Lemma fold_reaction_refs ms : forall s, refs (fold_left run_reaction ms s) = refs s.
Proof.
  induction ms as [|cb ms IH]; intros s; simpl; [reflexivity|].
  rewrite IH. destruct cb; reflexivity.
Qed.

Lemma fold_reaction_agenda ms :
  forall s, agenda (fold_left run_reaction ms s) = agenda s.
Proof.
  induction ms as [|cb ms IH]; intros s; simpl; [reflexivity|].
  rewrite IH. destruct cb; reflexivity.
Qed.

Lemma fold_reaction_nodes ms :
  forall s, nodes (world (fold_left run_reaction ms s)) = nodes (world s).
Proof.
  induction ms as [|cb ms IH]; intros s; simpl; [reflexivity|].
  rewrite IH. destruct cb; reflexivity.
Qed.

Lemma view_drain s : view (drain s) = view s.
Proof. unfold drain. now rewrite fold_reaction_view. Qed.

Lemma refs_drain s : refs (drain s) = refs s.
Proof. unfold drain. now rewrite fold_reaction_refs. Qed.

Lemma agenda_drain s : agenda (drain s) = agenda s.
Proof. unfold drain. now rewrite fold_reaction_agenda. Qed.

Lemma nodes_drain s : nodes (world (drain s)) = nodes (world s).
Proof. unfold drain. now rewrite fold_reaction_nodes. Qed.

Lemma view_task o : view (task o) = view (final o).
Proof. destruct o; simpl; now rewrite view_drain. Qed.

Lemma refs_task o : refs (task o) = refs (final o).
Proof. destruct o; simpl; now rewrite refs_drain. Qed.

Lemma agenda_task o : agenda (task o) = agenda (final o).
Proof. destruct o; simpl; now rewrite agenda_drain. Qed.

Lemma nodes_task o : nodes (world (task o)) = nodes (world (final o)).
Proof. destruct o; simpl; now rewrite nodes_drain. Qed.

Lemma schedule_task o : schedule (task o) = schedule (final o).
Proof. unfold schedule. now rewrite nodes_task. Qed.

End Frames.

(** ** Turn aggregation *)

Section Turns.

Local Open Scope string_scope.

Lemma onmessage_partial now p s :
  onmessage now (partial_message p) s =
  Returned (match p with
            | FromUser t => onInputTranscription t s
            | FromModel t => onOutputTranscription t s
            end).
Proof. destruct p; reflexivity. Qed.

(** Partial transcripts only grow the two accumulators, which the
    displayed partials mirror when they are written. *)
Lemma receive_partials (l : list (float * Partial)) : forall s,
  let s' := receive (partial_messages l) s in
  transcripts (view s') = transcripts (view s) /\
  currentUserInputRef (refs s') = currentUserInputRef (refs s) ++ said_by_user l /\
  currentJudgeOutputRef (refs s') =
    currentJudgeOutputRef (refs s) ++ said_by_model l.
Proof.
  induction l as [|[now p] l IH]; intros s; simpl.
  - now rewrite !append_nil_r.
  - rewrite onmessage_partial.
    destruct (IH (task (Returned (match p with
            | FromUser t => onInputTranscription t s
            | FromModel t => onOutputTranscription t s
            end)))) as (Ht & Hu & Hj).
    rewrite Ht, Hu, Hj, view_task, refs_task.
    destruct p; simpl; rewrite ?append_assoc; auto.
Qed.

Lemma onmessage_TurnComplete now s :
  onmessage now TurnComplete s = Returned (onTurnComplete s).
Proof. reflexivity. Qed.

Lemma push_if_entry who said l : push_if who said l = (l ++ entry_if who said)%list.
Proof.
  unfold push_if, entry_if. destruct (truthy (trim said)); [reflexivity|].
  now rewrite app_nil_r.
Qed.

Lemma entry_if_length who said : (List.length (entry_if who said) <= 1)%nat.
Proof. unfold entry_if. destruct (truthy (trim said)); simpl; lia. Qed.

(** Claim C2. Turn commit atomicity.  Whatever partial transcripts of the user
    and of the model arrive, and in whatever state, they leave the
    transcript log alone; the TurnComplete that follows appends the trimmed
    user text as a You entry if it is not empty, then the trimmed model
    text as a Judge entry if it is not empty, hence at most two entries; and
    right after it both accumulators and both displayed partials are the
    empty string. *)
Theorem turn_commit_atomic :
  forall (partials : list (float * Partial)) (now : float) (s : Session),
    let before := receive (partial_messages partials) s in
    let after := task (onmessage now TurnComplete before) in
    let user := currentUserInputRef (refs s) ++ said_by_user partials in
    let model := currentJudgeOutputRef (refs s) ++ said_by_model partials in
    transcripts (view before) = transcripts (view s) /\
    transcripts (view after) =
      (transcripts (view s) ++ entry_if You user ++ entry_if Judge model)%list /\
    (List.length (transcripts (view after))
       <= List.length (transcripts (view s)) + 2)%nat /\
    currentUserInputRef (refs after) = "" /\
    currentJudgeOutputRef (refs after) = "" /\
    currentUserInput (view after) = "" /\
    currentJudgeOutput (view after) = "".
Proof.
  intros partials now s before after user model.
  destruct (receive_partials partials s) as (Ht & Hu & Hj).
  fold before in Ht, Hu, Hj. subst after.
  rewrite onmessage_TurnComplete, view_task, refs_task. simpl.
  rewrite !push_if_entry, Ht, Hu, Hj. fold user model.
  rewrite <- app_assoc.
  repeat split; auto.
  rewrite !length_app.
  pose proof (entry_if_length You user). pose proof (entry_if_length Judge model).
  lia.
Qed.

(** The scenario of section 8: nothing from the user, something from the
    model, one Judge entry. *)
Example turn_model_only :
  transcripts (view (receive
    [(0%float, PartialModelTranscript "Proceed, "); (0%float, PartialUserTranscript "  ");
     (0%float, PartialModelTranscript "counsel. "); (0%float, TurnComplete)] init))
  = [mkTranscript Judge "Proceed, counsel."].
Proof. reflexivity. Qed.

(** Claim C10. Within a committed turn the user's entry precedes the judge's.
    When both accumulators are non-empty after trimming, TurnComplete
    appends exactly the You entry followed by the Judge entry. *)
Theorem turn_user_before_judge :
  forall (now : float) (s : Session),
    truthy (trim (currentUserInputRef (refs s))) = true ->
    truthy (trim (currentJudgeOutputRef (refs s))) = true ->
    transcripts (view (task (onmessage now TurnComplete s))) =
      (transcripts (view s) ++
        [mkTranscript You (trim (currentUserInputRef (refs s)));
         mkTranscript Judge (trim (currentJudgeOutputRef (refs s)))])%list.
Proof.
  intros now s Hu Hj.
  rewrite onmessage_TurnComplete, view_task. simpl.
  unfold push_if. rewrite Hu, Hj. now rewrite <- app_assoc.
Qed.

Lemma turn_user_before_judge_witness :
  transcripts (view (task (onmessage 0%float TurnComplete mid_turn))) =
    [mkTranscript You "My lord,"; mkTranscript Judge "Yes?"].
Proof.
  exact (turn_user_before_judge 0%float mid_turn eq_refl eq_refl).
Defined.

End Turns.
(** ** Doubles *)

Section Doubles.

Lemma Prim2SF_nan x : is_nan x = false -> Prim2SF x <> S754_nan.
Proof.
  intros H. unfold Prim2SF. rewrite H.
  destruct (is_zero x); [discriminate|].
  destruct (is_infinity x); [discriminate|].
  destruct (Z.frexp x) as [r e].
  destruct (shr_fexp prec emax (Uint63.to_Z (normfr_mantissa r)) (e - prec) loc_Exact)
    as [m e'].
  destruct (shr_m m); discriminate.
Qed.

Lemma nan_Prim2SF x : is_nan x = true -> Prim2SF x = S754_nan.
Proof. intros H. unfold Prim2SF. now rewrite H. Qed.

Lemma time_spec x : time x <-> SFleb (S754_zero false) (Prim2SF x) = true.
Proof. unfold time. rewrite leb_spec. reflexivity. Qed.

Lemma time_number x : time x -> is_nan x = false.
Proof.
  intros H. apply time_spec in H. destruct (is_nan x) eqn:E; [|reflexivity].
  rewrite (nan_Prim2SF x E) in H. discriminate.
Qed.

(** *** Rounding keeps the sign *)

Lemma shr_1_nonneg mrs : 0 <= shr_m mrs -> 0 <= shr_m (shr_1 mrs).
Proof.
  destruct mrs as [m r s]. simpl.
  destruct m as [|[p|p|]|p]; simpl; intros H; lia.
Qed.

Lemma iter_shr_1_nonneg p : forall mrs,
  0 <= shr_m mrs -> 0 <= shr_m (iter_pos shr_1 p mrs).
Proof.
  induction p as [p IH|p IH|]; intros mrs H; simpl.
  - apply IH, IH. now apply shr_1_nonneg.
  - now apply IH, IH.
  - now apply shr_1_nonneg.
Qed.

Lemma shr_fexp_nonneg m e l :
  0 <= m -> 0 <= shr_m (fst (shr_fexp prec emax m e l)).
Proof.
  intros H. unfold shr_fexp, shr.
  assert (K : 0 <= shr_m (shr_record_of_loc m l))
    by (destruct l as [|[]]; exact H).
  destruct (fexp prec emax (Zdigits2 m + e) - e); simpl; auto.
  now apply iter_shr_1_nonneg.
Qed.

Lemma round_nearest_even_nonneg m l : 0 <= m -> 0 <= round_nearest_even m l.
Proof.
  intros H. destruct l as [|[]]; simpl; try lia.
  destruct (Z.even m); lia.
Qed.

Lemma binary_round_aux_nonneg m e l :
  0 <= m ->
  SFleb (S754_zero false) (binary_round_aux prec emax false m e l) = true.
Proof.
  intros H. unfold binary_round_aux.
  pose proof (shr_fexp_nonneg m e l H) as H1.
  destruct (shr_fexp prec emax m e l) as [mrs' e']. simpl in H1.
  pose proof (shr_fexp_nonneg _ e' loc_Exact
                (round_nearest_even_nonneg _ (loc_of_shr_record mrs') H1)) as H2.
  destruct (shr_fexp prec emax
              (round_nearest_even (shr_m mrs') (loc_of_shr_record mrs')) e' loc_Exact)
    as [mrs'' e'']. simpl in H2.
  destruct (shr_m mrs'') as [|p|p]; [reflexivity | | lia].
  destruct (e'' <=? emax - prec); reflexivity.
Qed.

Lemma binary_normalize_nonneg m e :
  0 <= m -> SFleb (S754_zero false) (binary_normalize prec emax m e false) = true.
Proof.
  intros H. destruct m as [|p|p]; [reflexivity | | lia].
  unfold binary_normalize, binary_round.
  destruct (shl_align p e (fexp prec emax (Z.pos (digits2_pos p) + e))) as [mz ez].
  apply binary_round_aux_nonneg. lia.
Qed.

Lemma SFadd_nonneg x y :
  SFleb (S754_zero false) x = true -> SFleb (S754_zero false) y = true ->
  SFleb (S754_zero false) (SFadd prec emax x y) = true.
Proof.
  destruct x as [[|]|[|]| |[|] mx ex], y as [[|]|[|]| |[|] my ey];
    try discriminate; try reflexivity; intros _ _.
  unfold SFadd. apply binary_normalize_nonneg. simpl. lia.
Qed.

Lemma SFdiv_nonneg x my ey :
  SFleb (S754_zero false) x = true ->
  SFleb (S754_zero false) (SFdiv prec emax x (S754_finite false my ey)) = true.
Proof.
  destruct x as [[|]|[|]| |[|] mx ex]; try discriminate; try reflexivity;
    intros _.
  - unfold SFdiv, SFdiv_core_binary.
    set (m' := match _ - _ - _ with Z0 => _ | Z.pos _ => _ | Z.neg _ => _ end).
    assert (Hm : 0 <= m').
    { subst m'. destruct (_ - _ - _); try lia. apply Z.shiftl_nonneg. lia. }
    pose proof (Z.div_pos m' (Z.pos my) Hm ltac:(lia)) as Hq.
    unfold Z.div in Hq. destruct (Z.div_eucl m' (Z.pos my)) as [q r].
    now apply binary_round_aux_nonneg.
Qed.

Lemma add_time x y : time x -> time y -> time (x + y).
Proof.
  rewrite !time_spec, add_spec. apply SFadd_nonneg.
Qed.

Lemma number_time n : time (Codec.number n).
Proof.
  apply time_spec. unfold Codec.number. rewrite of_uint63_spec.
  apply binary_normalize_nonneg. apply Uint63.to_Z_bounded.
Qed.

(** A buffer at the rate of the playback has a duration. *)
Lemma duration_time b :
  Codec.sampleRate b = 24000%positive -> time (Codec.duration b).
Proof.
  intros Hr. apply time_spec. unfold Codec.duration. rewrite div_spec, Hr.
  replace (Prim2SF (Codec.number 24000))
    with (S754_finite false 6597069766656000 (-38))
    by (vm_compute; reflexivity).
  apply SFdiv_nonneg. apply time_spec, number_time.
Qed.

Lemma decodeFrame_rate base64Audio b :
  decodeFrame base64Audio = Some b -> Codec.sampleRate b = 24000%positive.
Proof.
  unfold decodeFrame, Codec.decodeAudioData.
  destruct (Codec.decode base64Audio) as [bytes|]; [|discriminate].
  destruct (Codec.samples_of_bytes bytes); [|discriminate].
  now intros [= <-].
Qed.

(** *** The order of doubles *)

Lemma SFcompare_refl x : x <> S754_nan -> SFcompare x x = Some Eq.
Proof.
  destruct x as [s|[|]| |[|] m e]; try reflexivity; intros H;
    [now destruct H| |]; simpl; rewrite Z.compare_refl, Pos.compare_cont_refl;
    reflexivity.
Qed.

Lemma SFcompare_antisym x y :
  SFcompare y x = option_map CompOpp (SFcompare x y).
Proof.
  destruct x as [sx|[|]| |[|] mx ex], y as [sy|[|]| |[|] my ey];
    try reflexivity; simpl;
    change (Pos.compare_cont Eq my mx) with (my ?= mx)%positive;
    change (Pos.compare_cont Eq mx my) with (mx ?= my)%positive;
    rewrite (Z.compare_antisym ex ey), (Pos.compare_antisym mx my);
    destruct (ex ?= ey), (mx ?= my)%positive; reflexivity.
Qed.

Lemma SFleb_refl x : x <> S754_nan -> SFleb x x = true.
Proof. intros H. unfold SFleb. now rewrite SFcompare_refl. Qed.

Lemma SFltb_leb x y : SFltb x y = true -> SFleb x y = true.
Proof. unfold SFltb, SFleb. now destruct (SFcompare x y) as [[| |]|]. Qed.

(** Neither below the other: each is at most the other. *)
Lemma SFleb_tie x y :
  x <> S754_nan -> y <> S754_nan ->
  SFltb x y = false -> SFltb y x = false ->
  SFleb x y = true /\ SFleb y x = true.
Proof.
  intros Hx Hy. unfold SFltb, SFleb. rewrite (SFcompare_antisym x y).
  destruct (SFcompare x y) as [[| |]|] eqn:E; simpl; try discriminate; auto.
  destruct x, y; try discriminate; now (destruct Hx + destruct Hy).
Qed.


(** *** [Math.max] *)

Lemma Math_max_number a b :
  is_nan a = false -> is_nan b = false ->
  (Math_max a b = a \/ Math_max a b = b) /\
  (a <=? Math_max a b)%float = true /\ (b <=? Math_max a b)%float = true.
Proof.
  intros Ha Hb. unfold Math_max. rewrite Ha, Hb. simpl.
  pose proof (Prim2SF_nan a Ha) as Na. pose proof (Prim2SF_nan b Hb) as Nb.
  destruct (a <? b)%float eqn:E1.
  - split; [now right|]. rewrite ltb_spec in E1. rewrite !leb_spec.
    split; [now apply SFltb_leb | now apply SFleb_refl].
  - destruct (b <? a)%float eqn:E2.
    + split; [now left|]. rewrite ltb_spec in E2. rewrite !leb_spec.
      split; [now apply SFleb_refl | now apply SFltb_leb].
    + rewrite ltb_spec in E1, E2.
      destruct (SFleb_tie _ _ Na Nb E1 E2) as [L1 L2].
      destruct (get_sign a); (split; [auto|]); rewrite !leb_spec;
        split; auto; now apply SFleb_refl.
Qed.

Lemma Math_max_time a b : time a -> time b -> time (Math_max a b).
Proof.
  intros Ha Hb.
  destruct (Math_max_number a b (time_number a Ha) (time_number b Hb))
    as [[-> | ->] _]; assumption.
Qed.

Lemma Math_max_le a b :
  time a -> time b -> (a <=? Math_max a b)%float = true.
Proof.
  intros Ha Hb.
  now destruct (Math_max_number a b (time_number a Ha) (time_number b Hb))
    as (_ & L & _).
Qed.

(** *** The sum is not below its terms *)

Lemma digits2_size p : digits2_pos p = Pos.size p.
Proof. induction p; simpl; congruence. Qed.

Lemma size_bounds p :
  2 ^ (Z.pos (Pos.size p) - 1) <= Z.pos p < 2 ^ Z.pos (Pos.size p).
Proof.
  pose proof (Pos.size_gt p) as H1. pose proof (Pos.size_le p) as H2.
  apply Pos2Z.pos_lt_pos in H1. apply Pos2Z.pos_le_pos in H2.
  rewrite Pos2Z.inj_pow in H1, H2.
  replace (Z.pos (Pos.size p)) with (Z.succ (Z.pos (Pos.size p) - 1)) in H2 at 1 by lia.
  rewrite Z.pow_succ_r in H2 by lia. lia.
Qed.

Lemma shr_1_half mrs : 0 <= shr_m mrs -> shr_m (shr_1 mrs) = shr_m mrs / 2.
Proof.
  destruct mrs as [m r s]. simpl. intros H.
  destruct m as [|[p|p|]|p]; simpl; try lia; try reflexivity.
  - rewrite Pos2Z.inj_xI. apply Z.div_unique with 1; lia.
  - rewrite Pos2Z.inj_xO. apply Z.div_unique with 0; lia.
Qed.

Lemma iter_shr_1_div p : forall mrs,
  0 <= shr_m mrs ->
  shr_m (iter_pos shr_1 p mrs) = shr_m mrs / 2 ^ Z.pos p /\
  0 <= shr_m (iter_pos shr_1 p mrs).
Proof.
  induction p as [p IH|p IH|]; intros mrs H; simpl iter_pos.
  - pose proof (shr_1_half mrs H) as E1.
    assert (H1 : 0 <= shr_m (shr_1 mrs)) by (rewrite E1; apply Z.div_pos; lia).
    destruct (IH _ H1) as [E2 H2]. destruct (IH _ H2) as [E3 H3].
    split; [|exact H3]. rewrite E3, E2, E1.
    rewrite !Z.div_div by (try apply Z.pow_pos_nonneg; lia).
    f_equal. rewrite Pos2Z.inj_xI, <- Z.pow_add_r, <- Z.pow_succ_r by lia.
    f_equal. lia.
  - destruct (IH _ H) as [E2 H2]. destruct (IH _ H2) as [E3 H3].
    split; [|exact H3]. rewrite E3, E2.
    rewrite !Z.div_div by (try apply Z.pow_pos_nonneg; lia).
    f_equal. rewrite Pos2Z.inj_xO, <- Z.pow_add_r by lia. f_equal. lia.
  - split; [now rewrite shr_1_half | rewrite shr_1_half by exact H; apply Z.div_pos; lia].
Qed.

Lemma iter_xO p k : Z.pos (Pos.iter xO p k) = Z.pos p * 2 ^ Z.pos k.
Proof.
  induction k as [|k IH] using Pos.peano_ind.
  - simpl. lia.
  - rewrite Pos.iter_succ, Pos2Z.inj_xO, IH, Pos2Z.inj_succ, Z.pow_succ_r by lia.
    lia.
Qed.


Lemma shr_spec m e n l :
  0 <= m ->
  shr_m (fst (shr (shr_record_of_loc m l) e n)) = m / 2 ^ Z.max n 0 /\
  snd (shr (shr_record_of_loc m l) e n) = e + Z.max n 0.
Proof.
  intros H.
  assert (K : shr_m (shr_record_of_loc m l) = m) by (destruct l as [|[]]; reflexivity).
  unfold shr. destruct n as [|p|p]; simpl fst; simpl snd.
  - rewrite K, Z.div_1_r. split; lia.
  - destruct (iter_shr_1_div p (shr_record_of_loc m l)) as [E _]; [lia|].
    rewrite E, K. replace (Z.max (Z.pos p) 0) with (Z.pos p) by lia. split; lia.
  - rewrite K. replace (Z.max (Z.neg p) 0) with 0 by lia.
    rewrite Z.div_1_r. split; lia.
Qed.

Lemma shl_align_value m e e' :
  e' <= e -> Z.pos (fst (shl_align m e e')) = Z.pos m * 2 ^ (e - e').
Proof.
  intros H. unfold shl_align. destruct (e' - e) as [|k|k] eqn:E; simpl fst.
  - replace (e - e') with 0 by lia. simpl. lia.
  - lia.
  - rewrite iter_xO. f_equal. f_equal. lia.
Qed.

Lemma shl_align_same m e e' : e <= e' -> shl_align m e e' = (m, e).
Proof.
  intros H. unfold shl_align. destruct (e' - e) eqn:E; try reflexivity. lia.
Qed.

Lemma fexp_mono a b : a <= b -> fexp prec emax a <= fexp prec emax b.
Proof. unfold fexp. lia. Qed.

Lemma round_nearest_even_bounds m l :
  m <= round_nearest_even m l <= m + 1.
Proof. destruct l as [|[]]; simpl; try lia. destruct (Z.even m); lia. Qed.

Lemma pow2_pos a : 0 < 2 ^ a \/ (a < 0 /\ 2 ^ a = 0).
Proof.
  destruct (Z_lt_le_dec a 0) as [H|H].
  - right. split; [exact H|]. now apply Z.pow_neg_r.
  - left. apply Z.pow_pos_nonneg; lia.
Qed.

(** Rounding to nearest never goes below a double that is under the exact
    sum. *)
Lemma SFadd_le_finite mx ex md ed :
  bounded prec emax mx ex = true ->
  SFleb (S754_finite false mx ex)
        (SFadd prec emax (S754_finite false mx ex) (S754_finite false md ed)) = true.
Proof.
  intros Hb. unfold bounded, canonical_mantissa in Hb.
  apply andb_prop in Hb. destruct Hb as [Hc _]. apply Z.eqb_eq in Hc.
  unfold SFadd, cond_Zopp.
  set (ez := Z.min ex ed).
  pose proof (shl_align_value mx ex ez ltac:(lia)) as Hax.
  set (ax := fst (shl_align mx ex ez)) in *.
  set (ad := fst (shl_align md ed ez)).
  change (Z.pos ax + Z.pos ad) with (Z.pos (ax + ad)).
  set (s := (ax + ad)%positive).
  assert (Hs : Z.pos mx * 2 ^ (ex - ez) <= Z.pos s) by (subst s; lia).
  unfold binary_normalize, binary_round.
  set (E := fexp prec emax (Z.pos (digits2_pos s) + ez)).
  pose proof (size_bounds mx) as Bmx. pose proof (size_bounds s) as Bs.
  rewrite <- !digits2_size in Bmx, Bs.
  assert (Hd : Z.pos (digits2_pos mx) + ex <= Z.pos (digits2_pos s) + ez).
  { assert (2 ^ (Z.pos (digits2_pos mx) - 1 + (ex - ez)) < 2 ^ Z.pos (digits2_pos s)).
    { rewrite Z.pow_add_r by lia.
      assert (0 < 2 ^ (ex - ez)) by (apply Z.pow_pos_nonneg; lia). nia. }
    apply Z.pow_lt_mono_r_iff in H; lia. }
  assert (HE : ex <= E).
  { subst E. rewrite <- Hc at 1. now apply fexp_mono. }
  rewrite (shl_align_same s ez E) by lia.
  unfold binary_round_aux, shr_fexp.
  change (Zdigits2 (Z.pos s)) with (Z.pos (digits2_pos s)). fold E.
  destruct (shr_spec (Z.pos s) ez (E - ez) loc_Exact ltac:(lia)) as [M1 E1].
  destruct (shr (shr_record_of_loc (Z.pos s) loc_Exact) ez (E - ez)) as [mrs' e'].
  simpl in M1, E1.
  assert (Hmax : Z.max (E - ez) 0 = E - ez) by lia. rewrite Hmax in M1, E1.
  assert (He' : e' = E) by lia. clear E1. subst e'.
  pose proof (round_nearest_even_bounds (shr_m mrs') (loc_of_shr_record mrs')) as R.
  set (m1 := round_nearest_even (shr_m mrs') (loc_of_shr_record mrs')) in *.
  (* the quotient is at least 1, and at least [mx] on the exponent of [x] *)
  assert (P2 : 0 < 2 ^ (E - ez)) by (apply Z.pow_pos_nonneg; lia).
  assert (Hm' : 1 <= shr_m mrs' /\ (E = ex -> Z.pos mx <= shr_m mrs')).
  { rewrite M1. split.
    - destruct (Z.eq_dec E ex) as [Heq|Hne].
      + apply Z.div_le_lower_bound; [lia|]. rewrite Heq. nia.
      + assert (HEv : E = Z.pos (digits2_pos s) + ez - prec).
        { subst E. unfold fexp in *. lia. }
        apply Z.div_le_lower_bound; [lia|].
        apply Z.le_trans with (2 ^ (Z.pos (digits2_pos s) - 1)); [|lia].
        rewrite Z.mul_1_r. apply Z.pow_le_mono_r; [lia|]. unfold prec in *. lia.
    - intros Heq. apply Z.div_le_lower_bound; [lia|]. rewrite Heq. nia. }
  destruct Hm' as [Hm1 Hmx].
  destruct m1 as [|q|q] eqn:Eq1; try lia.
  change (Zdigits2 (Z.pos q)) with (Z.pos (digits2_pos q)).
  set (n' := fexp prec emax (Z.pos (digits2_pos q) + E) - E).
  destruct (shr_spec (Z.pos q) E n' loc_Exact ltac:(lia)) as [M2 E2].
  destruct (shr (shr_record_of_loc (Z.pos q) loc_Exact) E n') as [mrs'' e''].
  simpl in M2, E2.
  assert (Hq : 1 <= shr_m mrs'').
  { rewrite M2. destruct (Z_le_gt_dec n' 0) as [Hn|Hn].
    - replace (Z.max n' 0) with 0 by lia. rewrite Z.div_1_r. lia.
    - replace (Z.max n' 0) with n' by lia.
      assert (Hnv : n' = Z.pos (digits2_pos q) - prec).
      { subst n'. unfold fexp in *. lia. }
      pose proof (size_bounds q) as Bq. rewrite <- digits2_size in Bq.
      apply Z.div_le_lower_bound; [apply Z.pow_pos_nonneg; lia|].
      apply Z.le_trans with (2 ^ (Z.pos (digits2_pos q) - 1)); [|lia].
      rewrite Z.mul_1_r. apply Z.pow_le_mono_r; [lia|]. unfold prec in *. lia. }
  destruct (shr_m mrs'') as [|r|r] eqn:Er; try lia.
  destruct (e'' <=? emax - prec); [|reflexivity].
  unfold SFleb, SFcompare.
  destruct (Z.compare_spec ex e'') as [Hee|Hee|Hee]; try reflexivity; [|lia].
  assert (Hn0 : Z.max n' 0 = 0) by lia.
  rewrite Hn0, Z.div_1_r in M2. injection M2 as ->.
  assert (Z.pos mx <= Z.pos q) by lia.
  change (Pos.compare_cont Eq mx q) with (mx ?= q)%positive.
  destruct (Pos.compare_spec mx q); try reflexivity. lia.
Qed.


Lemma SFadd_le x d :
  valid_binary x = true ->
  SFleb (S754_zero false) x = true -> SFleb (S754_zero false) d = true ->
  SFleb x (SFadd prec emax x d) = true.
Proof.
  destruct x as [[|]|[|]| |[|] mx ex], d as [[|]|[|]| |[|] md ed];
    try discriminate; try reflexivity; intros Hv _ _.
  - apply SFleb_refl. discriminate.
  - apply SFleb_refl. discriminate.
  - now apply SFadd_le_finite.
Qed.

Lemma add_le x d : time x -> time d -> (x <=? x + d)%float = true.
Proof.
  rewrite !time_spec, leb_spec, add_spec. apply SFadd_le, Prim2SF_valid.
Qed.

Lemma SFleb_trans x y z :
  SFleb x y = true -> SFleb y z = true -> SFleb x z = true.
Proof.
  unfold SFleb, SFcompare.
  destruct x as [sx|[|]| |[|] mx ex], y as [sy|[|]| |[|] my ey],
           z as [sz|[|]| |[|] mz ez];
    try reflexivity; try discriminate;
    change (Pos.compare_cont Eq ?a ?b) with (a ?= b)%positive;
    repeat match goal with
           | |- context [(?a ?= ?b)%positive] =>
               destruct (Pos.compare_spec a b)
           | |- context [?a ?= ?b] => destruct (Z.compare_spec a b)
           end; simpl; try reflexivity; try discriminate; intros _ _; lia.
Qed.

Lemma leb_trans x y z :
  (x <=? y)%float = true -> (y <=? z)%float = true -> (x <=? z)%float = true.
Proof. rewrite !leb_spec. apply SFleb_trans. Qed.

End Doubles.

(** ** Playback scheduling *)

Section Playback.

Lemma update_at_length {A} (f : A -> A) l :
  forall i, List.length (update_at i f l) = List.length l.
Proof. induction l as [|x l IH]; intros [|i]; simpl; auto. Qed.

Lemma update_at_last {A} (f : A -> A) l x :
  update_at (List.length l) f (l ++ [x]) = l ++ [f x].
Proof. induction l as [|y l IH]; simpl; [reflexivity | now rewrite IH]. Qed.

Lemma nth_error_update_at {A} (f : A -> A) l :
  forall i j,
    nth_error (update_at i f l) j =
    if Nat.eqb i j then option_map f (nth_error l j) else nth_error l j.
Proof.
  induction l as [|x l IH]; intros [|i] [|j]; simpl; auto.
  now destruct (Nat.eqb i j).
Qed.

(** A frame that decodes: the new source is the last node, it starts at the
    later of the tracked next start and the clock, and the tracked next
    start moves to its end. *)
Lemma onModelAudio_decoded now base64Audio s c b :
  outputAudioContextRef (refs s) = Some c ->
  decodeFrame base64Audio = Some b ->
  let start := Math_max (nextStartTimeRef (refs s)) now in
  exists s',
    onModelAudio now base64Audio s = Returned s' /\
    nodes (world s') =
      nodes (world s) ++ [mkSourceNode FrameSource b (Some start) false false] /\
    nextStartTimeRef (refs s') = (start + Codec.duration b)%float /\
    outputSourcesRef (refs s') =
      set_add (List.length (nodes (world s))) (outputSourcesRef (refs s)) /\
    outputAudioContextRef (refs s') = Some c /\
    status (view s') = Speaking.
Proof.
  intros Hc Hb start.
  unfold onModelAudio, onModelAudio_begin, onModelAudio_resume. simpl.
  rewrite Hc, Hb. simpl.
  eexists; split; [reflexivity|]. simpl.
  rewrite update_at_last. simpl. repeat split; auto.
Qed.

Lemma schedule_app_frame s' s b start :
  nodes (world s') =
    nodes (world s) ++ [mkSourceNode FrameSource b (Some start) false false] ->
  schedule s' = schedule s ++ [(start, Codec.duration b)].
Proof.
  intros H. unfold schedule. rewrite H, flat_map_app. simpl.
  reflexivity.
Qed.

Lemma gapless_plan_gapless arrivals :
  forall next,
    time next ->
    Forall (fun a => time (fst a) /\ time (snd a)) arrivals ->
    gapless arrivals (gapless_plan next arrivals).
Proof.
  induction arrivals as [|[now d] rest IH];
    intros next Hn Hall k start d0 start' d' now'.
  - destruct k; discriminate.
  - inversion Hall as [|a l [Hnow Hd] Hrest]; subst. simpl in Hnow, Hd.
    pose proof (Math_max_time next now Hn Hnow) as Hs.
    destruct k as [|k]; simpl.
    + destruct rest as [|[now1 d1] rest]; [discriminate|]. simpl.
      intros H0 H1 H2. inversion H0; subst. inversion H1; subst.
      inversion H2; subst.
      inversion Hrest as [|a l [Hnow1 _] _]; subst. simpl in Hnow1.
      pose proof (add_time _ _ Hs Hd) as Hend.
      pose proof (Math_max_le _ _ Hend Hnow1) as Hle.
      split; [reflexivity|]. split; [exact Hle|].
      eapply leb_trans; [|exact Hle]. now apply add_le.
    + apply IH; [|exact Hrest]. now apply add_time.
Qed.

Lemma arrivals_times frames bufs :
  Forall time (map fst frames) -> Forall2 decodes_to frames bufs ->
  Forall (fun a => time (fst a) /\ time (snd a))
         (combine (map fst frames) (map Codec.duration bufs)).
Proof.
  intros Ht Hdec. induction Hdec as [|[now b64] b frames bufs [_ Hb] _ IH];
    simpl in *; [constructor|].
  inversion Ht; subst. constructor; [|now apply IH].
  split; [assumption|]. simpl. eapply duration_time, decodeFrame_rate. exact Hb.
Qed.

(** A burst of two frames at one clock reading: the second starts at the
    double sum of the start and the duration of the first, which is below
    their exact sum, so it starts before the first is over. *)
Lemma gapless_playback_counterexample : ~ gapless_claim.
Proof.
  intros H.
  assert (R : Reachable listening_session).
  { exists [TtsSettled (ApiResponds (Some "AAAAAAAA"%string)); SourceEnded 0;
            SocketOpened; ConnectSettled true; MicSettled true].
    vm_compute. reflexivity. }
  pose (b := Codec.mkAudioBuffer 24000 1 [0; 0; 0]).
  assert (Hc : outputAudioContextRef (refs listening_session) <> None)
    by (vm_compute; discriminate).
  assert (Ht : Forall time (map fst pair_of_frames))
    by (repeat constructor; vm_compute; reflexivity).
  assert (Hd : Forall2 decodes_to pair_of_frames [b; b])
    by (repeat constructor; vm_compute; reflexivity).
  specialize (H listening_session pair_of_frames [b; b] R Hc Ht Hd 0%nat
                1%float (Codec.duration b) (1 + Codec.duration b)%float
                (Codec.duration b)).
  assert (H0 : (exact 1 + exact (Codec.duration b) <=
                exact (1 + Codec.duration b))%Q)
    by (apply H; vm_compute; reflexivity).
  vm_compute in H0. apply H0. reflexivity.
Qed.

(** Claim C1, amended.  Gapless ordered playback, in the arithmetic of the
    code.  A burst of audio frames that decode, handled in arrival order
    with an output context in place, the tracked next start and the clock
    readings being times, adds to the schedule exactly the plan of section
    4.4: the first frame starts at the later of the tracked next start and
    its clock reading; every later frame starts at the later of its clock
    reading and the tracked end of the frame before it, which is the double
    sum of that frame's start and duration, so never before that sum and
    never before that frame's start; and the tracked next start ends up at
    the tracked end of the last frame, having moved by each buffer's
    duration in double addition. *)
Theorem gapless_playback :
  forall (frames : list (float * string)) (bufs : list Codec.AudioBuffer)
         (s : Session) (c : AudioContext),
    outputAudioContextRef (refs s) = Some c ->
    time (nextStartTimeRef (refs s)) ->
    Forall time (map fst frames) ->
    Forall2 decodes_to frames bufs ->
    let arrivals := combine (map fst frames) (map Codec.duration bufs) in
    let plan := gapless_plan (nextStartTimeRef (refs s)) arrivals in
    schedule (play frames s) = schedule s ++ plan /\
    nextStartTimeRef (refs (play frames s)) =
      gapless_end (nextStartTimeRef (refs s)) arrivals /\
    gapless arrivals plan.
Proof.
  intros frames bufs s c Hc Hnext Htimes Hdec arrivals plan.
  split; [|split];
    [| |apply gapless_plan_gapless; [exact Hnext | now apply arrivals_times]].
  - subst plan arrivals. clear Hnext Htimes. revert s Hc.
    induction Hdec as [|[now b64] b frames bufs [Ht Hb] Hrest IH]; intros s Hc.
    + simpl. now rewrite app_nil_r.
    + simpl in Ht, Hb.
      destruct (onModelAudio_decoded now b64 s c b Hc Hb)
        as (s' & Hrun & Hnodes & Hnext & _ & Hc' & _).
      unfold play. simpl. unfold onmessage. simpl. rewrite Ht, Hrun.
      fold (play frames (task (Returned s'))).
      rewrite IH by (rewrite refs_task; exact Hc').
      rewrite schedule_task, refs_task. simpl final.
      rewrite (schedule_app_frame _ _ _ _ Hnodes), Hnext, <- app_assoc.
      reflexivity.
  - subst plan arrivals. clear Hnext Htimes. revert s Hc.
    induction Hdec as [|[now b64] b frames bufs [Ht Hb] Hrest IH]; intros s Hc.
    + reflexivity.
    + simpl in Ht, Hb.
      destruct (onModelAudio_decoded now b64 s c b Hc Hb)
        as (s' & Hrun & Hnodes & Hnext & _ & Hc' & _).
      unfold play. simpl. unfold onmessage. simpl. rewrite Ht, Hrun.
      fold (play frames (task (Returned s'))).
      rewrite IH by (rewrite refs_task; exact Hc').
      rewrite refs_task. simpl final. now rewrite Hnext.
Qed.

Lemma onModelAudio_begin_returns now s c :
  outputAudioContextRef (refs s) = Some c ->
  exists s',
    onModelAudio_begin now s = Returned s' /\
    nextStartTimeRef (refs s') = Math_max (nextStartTimeRef (refs s)) now /\
    outputAudioContextRef (refs s') = Some c /\
    schedule s' = schedule s.
Proof.
  intros Hc. unfold onModelAudio_begin. simpl. rewrite Hc.
  eexists. split; [reflexivity|]. simpl. auto.
Qed.

Lemma onModelAudio_resume_returns b s :
  exists s',
    onModelAudio_resume (Some b) s = Returned s' /\
    nextStartTimeRef (refs s') =
      (nextStartTimeRef (refs s) + Codec.duration b)%float /\
    outputAudioContextRef (refs s') = outputAudioContextRef (refs s) /\
    schedule s' = schedule s ++ [(nextStartTimeRef (refs s), Codec.duration b)].
Proof.
  unfold onModelAudio_resume. simpl.
  eexists. split; [reflexivity|]. simpl. repeat split.
  apply schedule_app_frame. simpl. now rewrite update_at_last.
Qed.

(** Two frames whose handlers overlap at the [await], resumed in arrival
    order: both read the tracked next start after their [await], so the
    second starts where the first ends. *)
Lemma overlapped_frames_in_order now1 now2 b1 b2 s c :
  outputAudioContextRef (refs s) = Some c ->
  exists s1 s2 s3 s4,
    onModelAudio_begin now1 s = Returned s1 /\
    onModelAudio_begin now2 s1 = Returned s2 /\
    onModelAudio_resume (Some b1) s2 = Returned s3 /\
    onModelAudio_resume (Some b2) s3 = Returned s4 /\
    let start := Math_max (Math_max (nextStartTimeRef (refs s)) now1) now2 in
    schedule s4 =
      schedule s ++ [(start, Codec.duration b1);
                     ((start + Codec.duration b1)%float, Codec.duration b2)].
Proof.
  intros Hc.
  destruct (onModelAudio_begin_returns now1 s c Hc) as (s1 & R1 & N1 & C1 & S1).
  destruct (onModelAudio_begin_returns now2 s1 c C1) as (s2 & R2 & N2 & C2 & S2).
  destruct (onModelAudio_resume_returns b1 s2) as (s3 & R3 & N3 & C3 & S3).
  destruct (onModelAudio_resume_returns b2 s3) as (s4 & R4 & N4 & C4 & S4).
  exists s1, s2, s3, s4. repeat (split; [assumption|]).
  cbv zeta. rewrite S4, S3, S2, S1, N3, N2, N1, <- app_assoc. reflexivity.
Qed.

Lemma gapless_playback_witness :
  schedule (play burst listening_session) =
    [(1, 3 / 24000); (1 + 3 / 24000, 6 / 24000); (2, 3 / 24000)]%float /\
  nextStartTimeRef (refs (play burst listening_session)) =
    (2 + 3 / 24000)%float.
Proof.
  assert (Hc : outputAudioContextRef (refs listening_session) =
               Some (mkAudioContext running 24000))
    by (vm_compute; reflexivity).
  assert (Hn : time (nextStartTimeRef (refs listening_session)))
    by (vm_compute; reflexivity).
  assert (Ht : Forall time (map fst burst))
    by (repeat constructor; vm_compute; reflexivity).
  assert (Hd : Forall2 decodes_to burst burst_buffers)
    by (repeat constructor; vm_compute; reflexivity).
  destruct (gapless_playback burst burst_buffers listening_session _ Hc Hn Ht Hd)
    as (Hs & He & _).
  split; [rewrite Hs | rewrite He]; vm_compute; reflexivity.
Defined.

(** Without the opening line no output context was made, and the handler
    throws on every audio frame. *)
Example frame_without_output_context :
  exists s',
    onmessage 1 (ModelAudioFrame "AAAAAAAA") awaiting_microphone =
      Threw TypeError s' /\
    status (view s') = Speaking /\ schedule s' = [].
Proof. eexists. split; [vm_compute; reflexivity|]. split; reflexivity. Qed.

End Playback.

(** ** Capture encoding *)

Section Capture.

Import Codec.

Lemma ToInt16_range (x : Q) : is_int16 (ToInt16 x).
Proof.
  unfold ToInt16, is_int16.
  pose proof (Z.mod_pos_bound (Qtrunc x) 65536 ltac:(lia)) as H.
  destruct (Qtrunc x mod 65536 >=? 32768) eqn:E; lia.
Qed.

Lemma ToInt16_exact (t : Z) (x : Q) :
  Qtrunc x = t -> -32768 <= t <= 32767 -> ToInt16 x = t.
Proof.
  intros Ht Hr. unfold ToInt16. rewrite Ht.
  destruct (Z_lt_le_dec t 0) as [Hneg|Hpos].
  - replace (t mod 65536) with (t + 65536).
    + replace (t + 65536 >=? 32768) with true by (symmetry; apply Z.geb_le; lia).
      lia.
    + apply Z.mod_unique with (q := -1); lia.
  - rewrite Z.mod_small by lia.
    replace (t >=? 32768) with false; [reflexivity|].
    symmetry. destruct (t >=? 32768) eqn:E; [apply Z.geb_le in E; lia | reflexivity].
Qed.

Lemma Qtrunc_scale_range (f : Q) :
  (- (1) <= f)%Q -> (f < 1)%Q -> -32768 <= Qtrunc (scale f) <= 32767.
Proof.
  destruct f as [n d]. unfold Qle, Qlt, Qtrunc, scale. simpl.
  rewrite Pos.mul_1_r. intros Hlo Hhi.
  assert (Hd : 0 < Z.pos d) by lia.
  destruct (Z_lt_le_dec n 0) as [Hneg|Hpos].
  - replace (n * 32768) with (- ((- n) * 32768)) by lia.
    rewrite Z.quot_opp_l by lia.
    rewrite Z.quot_div_nonneg by lia.
    assert (- n * 32768 / Z.pos d <= 32768).
    { apply Z.div_le_upper_bound; lia. }
    assert (0 <= - n * 32768 / Z.pos d) by (apply Z.div_pos; lia).
    lia.
  - rewrite Z.quot_div_nonneg by lia.
    assert (n * 32768 / Z.pos d < 32768).
    { apply Z.div_lt_upper_bound; lia. }
    assert (0 <= n * 32768 / Z.pos d) by (apply Z.div_pos; lia).
    lia.
Qed.

Lemma land_255 v : Z.land v 255 = v mod 256.
Proof. change 255 with (Z.ones 8). now rewrite Z.land_ones by lia. Qed.

Lemma bytes_of_int16_bytes v : Forall is_byte (bytes_of_int16 v).
Proof.
  unfold bytes_of_int16, is_byte. rewrite !land_255.
  pose proof (Z.mod_pos_bound v 256 ltac:(lia)).
  pose proof (Z.mod_pos_bound (Z.shiftr v 8) 256 ltac:(lia)).
  repeat constructor; lia.
Qed.

Lemma int16_of_bytes_of_int16 v :
  is_int16 v ->
  int16_of_bytes (Z.land v 255) (Z.land (Z.shiftr v 8) 255) = v.
Proof.
  unfold is_int16, int16_of_bytes. intros Hv.
  rewrite !land_255, Z.shiftr_div_pow2 by lia.
  change (2 ^ 8) with 256.
  assert (E : v mod 256 + 256 * ((v / 256) mod 256) = v mod 65536).
  { pose proof (Z.div_mod v 256 ltac:(lia)).
    pose proof (Z.div_mod (v / 256) 256 ltac:(lia)).
    pose proof (Z.mod_pos_bound v 256 ltac:(lia)).
    pose proof (Z.mod_pos_bound (v / 256) 256 ltac:(lia)).
    apply Z.mod_unique with (q := v / 256 / 256); lia. }
  rewrite E.
  destruct (Z_lt_le_dec v 0) as [Hneg|Hpos].
  - replace (v mod 65536) with (v + 65536)
      by (apply Z.mod_unique with (q := -1); lia).
    replace (v + 65536 >=? 32768) with true by (symmetry; apply Z.geb_le; lia).
    lia.
  - rewrite Z.mod_small by lia.
    destruct (v >=? 32768) eqn:G; [apply Z.geb_le in G; lia | reflexivity].
Qed.

Lemma unpack_pack samples :
  Forall is_int16 samples -> samples_of_bytes (pack samples) = Some samples.
Proof.
  induction 1 as [|v l Hv _ IH]; [reflexivity|].
  unfold pack in *. simpl. rewrite IH.
  now rewrite int16_of_bytes_of_int16.
Qed.

Lemma pack_length samples :
  List.length (pack samples) = (2 * List.length samples)%nat.
Proof.
  induction samples as [|v l IH]; [reflexivity|].
  unfold pack in *. simpl. rewrite IH. lia.
Qed.

Lemma pack_bytes samples : Forall is_byte (pack samples).
Proof.
  induction samples as [|v l IH]; [constructor|].
  unfold pack in *. simpl.
  pose proof (bytes_of_int16_bytes v) as H. unfold bytes_of_int16 in H.
  inversion H as [|? ? H1 H2]; subst. inversion H2 as [|? ? H3 _]; subst.
  constructor; [exact H1|]. constructor; [exact H3 | exact IH].
Qed.

End Capture.

(** ** The transport encoding *)

Section Transport.

Import Codec.

Lemma all_below_spec n p :
  all_below n p = true -> forall z, 0 <= z < Z.of_nat n -> p z = true.
Proof.
  unfold all_below, below. intros H z Hz.
  rewrite forallb_forall in H. apply H.
  apply in_map_iff. exists (Z.to_nat z). split; [lia|].
  apply in_seq. lia.
Qed.

Lemma is_byte_below z : is_byte z -> 0 <= z < Z.of_nat 256.
Proof. unfold is_byte. lia. Qed.

Lemma classify_b64_char i : 0 <= i < 64 -> classify (b64_char i) = Sx i.
Proof.
  intros Hi.
  assert (H : all_below 64
    (fun i => match classify (b64_char i) with
              | Sx v => v =? i
              | _ => false
              end) = true) by (vm_compute; reflexivity).
  apply (all_below_spec _ _ H) in Hi.
  destruct (classify (b64_char i)); try discriminate.
  apply Z.eqb_eq in Hi. now subst.
Qed.

Lemma classify_pad : classify pad = Pad.
Proof. reflexivity. Qed.

Lemma sextet_facts_hold a b : is_byte a -> is_byte b -> sextet_facts a b = true.
Proof.
  intros Ha Hb.
  assert (H : all_below 256 (fun a => all_below 256 (sextet_facts a)) = true)
    by (vm_compute; reflexivity).
  apply (all_below_spec _ _ (all_below_spec _ _ H a (is_byte_below a Ha))).
  now apply is_byte_below.
Qed.

Lemma sextet_facts_inv a b :
  is_byte a -> is_byte b ->
  let s1 := Z.shiftr a 2 in
  let s2 := Z.lor (Z.shiftl (Z.land a 3) 4) (Z.shiftr b 4) in
  let s3 := Z.lor (Z.shiftl (Z.land a 15) 2) (Z.shiftr b 6) in
  let s4 := Z.land a 63 in
  (0 <= s1 < 64 /\ 0 <= s2 < 64 /\ 0 <= s3 < 64 /\ 0 <= s4 < 64) /\
  byte1 s1 s2 = a /\
  Z.land s2 15 = Z.shiftr b 4 /\
  Z.shiftr s3 2 = Z.land a 15 /\
  Z.land s3 3 = Z.shiftr b 6 /\
  Z.lor (Z.shiftl (Z.shiftr a 4) 4) (Z.land a 15) = a /\
  Z.lor (Z.shiftl (Z.shiftr a 6) 6) (Z.land a 63) = a.
Proof.
  intros Ha Hb. pose proof (sextet_facts_hold a b Ha Hb) as H.
  unfold sextet_facts in H. cbv zeta.
  repeat (apply andb_prop in H; destruct H as [H ?]).
  repeat match goal with
         | E : (_ =? _) = true |- _ => apply Z.eqb_eq in E
         | E : (_ <=? _) = true |- _ => apply Z.leb_le in E
         | E : (_ <? _) = true |- _ => apply Z.ltb_lt in E
         end.
  repeat split; assumption.
Qed.

Lemma list_ind3 {A} (P : list A -> Prop) :
  P [] -> (forall a, P [a]) -> (forall a b, P [a; b]) ->
  (forall a b c l, P l -> P (a :: b :: c :: l)) ->
  forall l, P l.
Proof.
  intros H0 H1 H2 H3.
  assert (H : forall n l, (List.length l <= n)%nat -> P l).
  { induction n as [|n IH]; intros l Hl.
    - destruct l; [exact H0 | simpl in Hl; lia].
    - destruct l as [|a [|b [|c l]]]; auto.
      apply H3, IH. simpl in Hl. lia. }
  intros l. now apply (H (List.length l)).
Qed.

Lemma is_byte_0 : is_byte 0.
Proof. unfold is_byte. lia. Qed.

Lemma decode_sextets_4 a b c d rest :
  decode_sextets (Sx a :: Sx b :: Sx c :: Sx d :: rest) =
  match decode_sextets rest with
  | Some t => Some (byte1 a b :: byte2 b c :: byte3 c d :: t)
  | None => None
  end.
Proof. reflexivity. Qed.

Lemma decode_sextets_2 a b :
  decode_sextets [Sx a; Sx b; Pad; Pad] = Some [byte1 a b].
Proof. reflexivity. Qed.

Lemma decode_sextets_3 a b c :
  decode_sextets [Sx a; Sx b; Sx c; Pad] = Some [byte1 a b; byte2 b c].
Proof. reflexivity. Qed.

(** What [encode] writes, [decode] reads back. *)
Lemma decode_encode bytes :
  Forall is_byte bytes -> decode (encode bytes) = Some bytes.
Proof.
  unfold decode.
  induction bytes as [|a|a b|a b c l IH] using list_ind3; intros Hb.
  - reflexivity.
  - inversion Hb as [|? ? Ha _]; subst.
    destruct (sextet_facts_inv a 0 Ha is_byte_0)
      as ((R1 & R2 & _) & E1 & _).
    cbv zeta in *. change (Z.shiftr 0 4) with 0 in *.
    rewrite Z.lor_0_r in *.
    cbn [encode list_ascii_of_string map].
    rewrite !classify_b64_char, !classify_pad by assumption.
    now rewrite decode_sextets_2, E1.
  - inversion Hb as [|? ? Ha Hb']; subst. inversion Hb' as [|? ? Hb0 _]; subst.
    destruct (sextet_facts_inv a b Ha Hb0)
      as ((R1 & R2 & _) & E1 & E2 & _).
    destruct (sextet_facts_inv b 0 Hb0 is_byte_0)
      as ((_ & _ & R3 & _) & _ & _ & E3 & _ & E5 & _).
    cbv zeta in *. change (Z.shiftr 0 6) with 0 in *.
    rewrite Z.lor_0_r in *.
    cbn [encode list_ascii_of_string map].
    rewrite !classify_b64_char, !classify_pad by assumption.
    rewrite decode_sextets_3.
    unfold byte2. now rewrite E1, E2, E3, E5.
  - inversion Hb as [|? ? Ha Hb']; subst. inversion Hb' as [|? ? Hb0 Hb'']; subst.
    inversion Hb'' as [|? ? Hc Hl]; subst.
    destruct (sextet_facts_inv a b Ha Hb0)
      as ((R1 & R2 & _) & E1 & E2 & _).
    destruct (sextet_facts_inv b c Hb0 Hc)
      as ((_ & _ & R3 & _) & _ & _ & E3 & E4 & E5 & _).
    destruct (sextet_facts_inv c 0 Hc is_byte_0)
      as ((_ & _ & _ & R4) & _ & _ & _ & _ & _ & E6).
    cbv zeta in *.
    cbn [encode list_ascii_of_string map].
    rewrite !classify_b64_char by assumption.
    rewrite decode_sextets_4, (IH Hl).
    unfold byte2, byte3. now rewrite E1, E2, E3, E4, E5, E6.
Qed.

Lemma text_safe_b64_char i : 0 <= i < 64 -> text_safe_char (b64_char i) = true.
Proof.
  intros Hi. unfold text_safe_char. now rewrite classify_b64_char.
Qed.

(** [encode] writes only characters of the transport alphabet and
    padding. *)
Lemma encode_text_safe bytes : Forall is_byte bytes -> text_safe (encode bytes).
Proof.
  unfold text_safe.
  induction bytes as [|a|a b|a b c l IH] using list_ind3; intros Hb.
  - constructor.
  - inversion Hb as [|? ? Ha _]; subst.
    destruct (sextet_facts_inv a 0 Ha is_byte_0) as ((R1 & R2 & _) & _).
    cbv zeta in *. change (Z.shiftr 0 4) with 0 in *.
    rewrite Z.lor_0_r in *.
    cbn [encode list_ascii_of_string].
    repeat (constructor; [now apply text_safe_b64_char|]).
    repeat constructor.
  - inversion Hb as [|? ? Ha Hb']; subst. inversion Hb' as [|? ? Hb0 _]; subst.
    destruct (sextet_facts_inv a b Ha Hb0) as ((R1 & R2 & _) & _).
    destruct (sextet_facts_inv b 0 Hb0 is_byte_0) as ((_ & _ & R3 & _) & _).
    cbv zeta in *. change (Z.shiftr 0 6) with 0 in *.
    rewrite Z.lor_0_r in *.
    cbn [encode list_ascii_of_string].
    repeat (constructor; [now apply text_safe_b64_char|]).
    repeat constructor.
  - inversion Hb as [|? ? Ha Hb']; subst. inversion Hb' as [|? ? Hb0 Hb'']; subst.
    inversion Hb'' as [|? ? Hc Hl]; subst.
    destruct (sextet_facts_inv a b Ha Hb0) as ((R1 & R2 & _) & _).
    destruct (sextet_facts_inv b c Hb0 Hc) as ((_ & _ & R3 & _) & _).
    destruct (sextet_facts_inv c 0 Hc is_byte_0) as ((_ & _ & _ & R4) & _).
    cbv zeta in *.
    cbn [encode list_ascii_of_string].
    repeat (constructor; [now apply text_safe_b64_char|]).
    now apply IH.
Qed.

End Transport.

(** ** Microtasks *)

Section Microtasks.

Lemma sends_app a b : sends (a ++ b) = sends a ++ sends b.
Proof. unfold sends. apply flat_map_app. Qed.

Lemma closes_app a b : closes (a ++ b) = closes a ++ closes b.
Proof. unfold closes. apply flat_map_app. Qed.

Lemma fold_reaction_sent ms : forall s,
  sent (world (fold_left run_reaction ms s)) = sent (world s) ++ sends ms.
Proof.
  induction ms as [|cb ms IH]; intros s; simpl.
  - now rewrite app_nil_r.
  - rewrite IH. destruct cb; simpl; [reflexivity| |reflexivity].
    now rewrite <- app_assoc.
Qed.

Lemma fold_reaction_releases ms : forall s,
  releases (world (fold_left run_reaction ms s)) = releases (world s) ++ closes ms.
Proof.
  induction ms as [|cb ms IH]; intros s; simpl.
  - now rewrite app_nil_r.
  - rewrite IH. destruct cb; simpl; [|reflexivity|reflexivity].
    now rewrite <- app_assoc.
Qed.

Lemma fold_reaction_microtasks ms : forall s,
  microtasks (world (fold_left run_reaction ms s)) = microtasks (world s).
Proof.
  induction ms as [|cb ms IH]; intros s; simpl; [reflexivity|].
  rewrite IH. destruct cb; reflexivity.
Qed.

Lemma fold_reaction_console ms : forall s,
  console (world (fold_left run_reaction ms s)) = console (world s).
Proof.
  induction ms as [|cb ms IH]; intros s; simpl; [reflexivity|].
  rewrite IH. destruct cb; reflexivity.
Qed.

Lemma fold_reaction_uncaught ms : forall s,
  uncaught (world (fold_left run_reaction ms s)) =
  uncaught (world s) ++ rejections ms.
Proof.
  induction ms as [|cb ms IH]; intros s; simpl.
  - now rewrite app_nil_r.
  - rewrite IH. destruct cb; simpl; [reflexivity|reflexivity|].
    now rewrite <- app_assoc.
Qed.

Lemma fold_reaction_closed ms : forall s,
  sessionClosed (world (fold_left run_reaction ms s)) =
  sessionClosed (world s) || existsb (fun _ => true) (closes ms).
Proof.
  induction ms as [|cb ms IH]; intros s; simpl.
  - now rewrite orb_false_r.
  - rewrite IH. destruct cb; simpl; [|reflexivity|reflexivity].
    now rewrite orb_true_r.
Qed.

Lemma microtasks_drain s : microtasks (world (drain s)) = [].
Proof. unfold drain. now rewrite fold_reaction_microtasks. Qed.

Lemma sent_drain s :
  sent (world (drain s)) = sent (world s) ++ sends (microtasks (world s)).
Proof. unfold drain. now rewrite fold_reaction_sent. Qed.

Lemma releases_drain s :
  releases (world (drain s)) = releases (world s) ++ closes (microtasks (world s)).
Proof. unfold drain. now rewrite fold_reaction_releases. Qed.

Lemma console_drain s : console (world (drain s)) = console (world s).
Proof. unfold drain. now rewrite fold_reaction_console. Qed.

Lemma uncaught_drain s :
  uncaught (world (drain s)) =
  uncaught (world s) ++ rejections (microtasks (world s)).
Proof. unfold drain. now rewrite fold_reaction_uncaught. Qed.

Lemma closed_drain s :
  sessionClosed (world (drain s)) =
  sessionClosed (world s) || existsb (fun _ => true) (closes (microtasks (world s))).
Proof. unfold drain. now rewrite fold_reaction_closed. Qed.

Lemma find_node_drain s id : find_node id (drain s) = find_node id s.
Proof. unfold find_node. now rewrite nodes_drain. Qed.

Lemma waiting_drain s : waiting (drain s) = waiting s.
Proof. unfold waiting. now rewrite refs_drain. Qed.

End Microtasks.

(** ** Teardown *)

Section Teardown.

Lemma only_stops_refl s : only_stops s s.
Proof. constructor; auto. Qed.

Lemma only_stops_trans s1 s2 s3 :
  only_stops s1 s2 -> only_stops s2 s3 -> only_stops s1 s3.
Proof.
  intros [] []. constructor; try congruence. auto.
Qed.

Lemma map_core_update_at (f : SourceNode -> SourceNode) l :
  (forall n, core (f n) = core n) ->
  forall i, map core (update_at i f l) = map core l.
Proof.
  intros Hf. induction l as [|x l IH]; intros [|i]; simpl; auto.
  - now rewrite Hf.
  - now rewrite IH.
Qed.

Lemma source_stop_started id s :
  started s id ->
  exists s',
    source_stop id s = Returned s' /\ only_stops s s' /\
    releases (world s') = releases (world s) ++ [SourceStop id] /\
    stopped s' id.
Proof.
  intros (n & Hn & Hs). unfold source_stop. rewrite Hn.
  destruct (startedAt n) as [t|] eqn:Et; [|contradiction].
  eexists. split; [reflexivity|]. split; [|split].
  - constructor; try reflexivity.
    + simpl. now apply map_core_update_at.
    + intros j (m & Hm & Hstop). unfold stopped, find_node in *. simpl.
      rewrite nth_error_update_at, Hm.
      destruct (Nat.eqb id j); simpl; eauto.
  - reflexivity.
  - unfold stopped, find_node in *. simpl.
    rewrite nth_error_update_at, Nat.eqb_refl, Hn. simpl. eauto.
Qed.

Lemma started_only_stops s s' id : only_stops s s' -> started s id -> started s' id.
Proof.
  intros Hos (n & Hn & Hs). unfold started, find_node in *.
  pose proof (os_cores _ _ Hos) as Hc.
  assert (H : nth_error (map core (nodes (world s'))) id = Some (core n))
    by (rewrite Hc; now apply map_nth_error).
  rewrite nth_error_map in H.
  destruct (nth_error (nodes (world s')) id) as [n'|]; [|discriminate].
  simpl in H. injection H as H. exists n'. split; [reflexivity|].
  unfold core in H. congruence.
Qed.

Lemma stop_each_started ids : forall s,
  Forall (started s) ids ->
  exists s',
    stop_each ids s = Returned s' /\ only_stops s s' /\
    releases (world s') = releases (world s) ++ map SourceStop ids /\
    Forall (stopped s') ids.
Proof.
  induction ids as [|id ids IH]; intros s Hall.
  - exists s. simpl. rewrite app_nil_r. auto using only_stops_refl.
  - inversion Hall as [|? ? Hid Hrest]; subst.
    destruct (source_stop_started id s Hid) as (s1 & Hrun & Hos & Hrel & Hst).
    assert (Hall1 : Forall (started s1) ids).
    { eapply Forall_impl; [|exact Hrest]. intros j. now apply started_only_stops. }
    destruct (IH s1 Hall1) as (s2 & Hrun2 & Hos2 & Hrel2 & Hst2).
    exists s2. simpl. rewrite Hrun. simpl. rewrite Hrun2.
    split; [reflexivity|]. split; [eapply only_stops_trans; eauto|]. split.
    + rewrite Hrel2, Hrel, <- app_assoc. reflexivity.
    + constructor; [|exact Hst2]. now apply (os_stopped _ _ Hos2).
Qed.

Ltac explode s :=
  destruct s as [[st tr cui cjo er] [sp ac pr ms oc nst act cur cjr]
                 [nd cl sn rl co un mt tm] [tts sk mic mo]].

(** The guarded steps of [cleanUp], each as one write and one log entry. *)
Lemma then_eq cb s :
  then_ cb s =
  set_microtasks
    (microtasks (world s) ++
     match sessionPromiseRef (refs s) with
     | Some Fulfilled => [cb]
     | Some Rejected => [PassRejection]
     | _ => []
     end)
    (write_sessionPromiseRef
       match sessionPromiseRef (refs s) with
       | Some (Pending rs) => Some (Pending (rs ++ [cb]))
       | p => p
       end s).
Proof.
  explode s. unfold then_. simpl.
  destruct sp as [[rs| |]|]; simpl; rewrite ?app_nil_r; reflexivity.
Qed.

Lemma stop_tracks_eq s :
  stop_tracks s =
  set_releases (releases (world s) ++ track_stops s)
    (write_mediaStreamRef (option_map end_track (mediaStreamRef (refs s))) s).
Proof.
  explode s. unfold stop_tracks, track_stops. simpl.
  destruct ms; simpl; rewrite ?app_nil_r; reflexivity.
Qed.

Lemma disconnect_processor_eq s :
  disconnect_processor s =
  set_releases (releases (world s) ++ processor_disconnects s)
    (write_scriptProcessorRef
       (option_map disconnect (scriptProcessorRef (refs s))) s).
Proof.
  explode s. unfold disconnect_processor, processor_disconnects. simpl.
  destruct pr; simpl; rewrite ?app_nil_r; reflexivity.
Qed.

Lemma close_input_eq s :
  close_guarded (audioContextRef (refs s)) InputContextClose
                write_audioContextRef s =
  set_releases
    (releases (world s) ++
     context_closes (audioContextRef (refs s)) InputContextClose)
    (write_audioContextRef
       (option_map close_context (audioContextRef (refs s))) s).
Proof.
  explode s. unfold close_guarded, context_closes, AudioContext_close, is_closed.
  simpl. destruct ac as [[[] ?]|]; simpl; rewrite ?app_nil_r; reflexivity.
Qed.

Lemma close_output_eq s :
  close_guarded (outputAudioContextRef (refs s)) OutputContextClose
                write_outputAudioContextRef s =
  set_releases
    (releases (world s) ++
     context_closes (outputAudioContextRef (refs s)) OutputContextClose)
    (write_outputAudioContextRef
       (option_map close_context (outputAudioContextRef (refs s))) s).
Proof.
  explode s. unfold close_guarded, context_closes, AudioContext_close, is_closed.
  simpl. destruct oc as [[[] ?]|]; simpl; rewrite ?app_nil_r; reflexivity.
Qed.

Lemma stopped_same_nodes s s' id :
  nodes (world s') = nodes (world s) -> stopped s id -> stopped s' id.
Proof. intros H (n & Hf & Hs). exists n. unfold find_node in *. now rewrite H. Qed.

Lemma started_same_nodes s s' id :
  nodes (world s') = nodes (world s) -> started s id -> started s' id.
Proof. intros H (n & Hf & Hs). exists n. unfold find_node in *. now rewrite H. Qed.

(** [cleanUp] returns whenever the active sources were started, and this
    is what it leaves. *)
Lemma cleanUp_returns s :
  Forall (started s) (outputSourcesRef (refs s)) ->
  exists s', cleanUp s = Returned s' /\ cleaned s s'.
Proof.
  intros Hall. unfold cleanUp.
  rewrite close_input_eq, disconnect_processor_eq, stop_tracks_eq, then_eq.
  match goal with
  | |- context [stop_each ?ids ?s4'] => set (s4 := s4')
  end.
  simpl outputSourcesRef.
  assert (Hall4 : Forall (started s4) (outputSourcesRef (refs s))).
  { eapply Forall_impl; [|exact Hall]. intros id. now apply started_same_nodes. }
  destruct (stop_each_started _ s4 Hall4) as (s5 & Hrun & Hos & Hrel & Hst).
  rewrite Hrun. simpl bind. rewrite close_output_eq.
  eexists. split; [reflexivity|].
  destruct Hos as [Hv Hr Hag Hco Hse Hmi Hcs Hun Hcl Htm Hsp].
  constructor; simpl;
    rewrite ?Hv, ?Hr, ?Hag, ?Hco, ?Hse, ?Hmi, ?Hcs, ?Hun, ?Hcl, ?Htm, ?Hrel;
    try reflexivity.
  - subst s4. simpl. rewrite <- !app_assoc. reflexivity.
  - eapply Forall_impl; [|exact Hst]. intros id. now apply stopped_same_nodes.
Qed.

End Teardown.

(** ** The invariant of the event loop *)

Section Invariant.

Lemma sends_close : sends [CloseSession] = [].
Proof. reflexivity. Qed.

Lemma Consistent_drain x : Consistent x -> Inv (drain x).
Proof.
  intros [Hst Hmic Hpr Htts Hop Hone Hq]. split; [|apply microtasks_drain].
  constructor; rewrite ?refs_drain, ?agenda_drain, ?nodes_drain, ?waiting_drain;
    auto.
  - eapply Forall_impl; [|exact Hst]. intros id. apply started_same_nodes.
    apply nodes_drain.
  - intros Hnone. destruct (Hq Hnone) as (Hs & Hw & Hm).
    rewrite sent_drain, microtasks_drain, Hs, Hm. auto.
Qed.

(** The invariant reads the agenda, the active set, the processing node,
    the waiting reactions, the nodes, the frames sent and the microtasks;
    nothing else. *)
Lemma Consistent_ext s s' :
  agenda s' = agenda s ->
  outputSourcesRef (refs s') = outputSourcesRef (refs s) ->
  scriptProcessorRef (refs s') = scriptProcessorRef (refs s) ->
  waiting s' = waiting s ->
  nodes (world s') = nodes (world s) ->
  sent (world s') = sent (world s) ->
  microtasks (world s') = microtasks (world s) ->
  Consistent s -> Consistent s'.
Proof.
  intros Ha Hact Hp Hw Hn Hs Hm [Hst Hmic Hpr Htts Hop Hone Hq].
  constructor; rewrite ?Ha, ?Hact, ?Hp, ?Hw, ?Hn, ?Hs, ?Hm; auto.
  eapply Forall_impl; [|exact Hst]. intros id. now apply started_same_nodes.
Qed.

Lemma Inv_init : Inv init.
Proof.
  split; [|reflexivity].
  constructor; simpl; auto; try discriminate; try congruence.
  intros [|i] j n n'; discriminate.
Qed.

(** *** Lists of nodes *)

Lemma nth_error_snoc {A} (l : list A) x i n :
  nth_error (l ++ [x]) i = Some n ->
  nth_error l i = Some n \/ (i = List.length l /\ n = x).
Proof.
  intros H. destruct (Nat.lt_ge_cases i (List.length l)) as [Hlt|Hge].
  - left. now rewrite nth_error_app1 in H.
  - right. rewrite nth_error_app2 in H by exact Hge.
    destruct (i - List.length l)%nat as [|k] eqn:E; simpl in H.
    + injection H as <-. split; [lia | reflexivity].
    + destruct k; discriminate.
Qed.

Lemma nth_error_snoc_old {A} (l : list A) x i n :
  nth_error l i = Some n -> nth_error (l ++ [x]) i = Some n.
Proof.
  intros H. rewrite nth_error_app1; [exact H|].
  apply nth_error_Some. congruence.
Qed.

Lemma nth_error_snoc_new {A} (l : list A) x :
  nth_error (l ++ [x]) (List.length l) = Some x.
Proof. rewrite nth_error_app2, Nat.sub_diag by lia. reflexivity. Qed.

Lemma in_set_add x l y : In y (set_add x l) -> y = x \/ In y l.
Proof.
  unfold set_add. destruct (existsb (Nat.eqb x) l); [auto|].
  intros H. apply in_app_or in H. destruct H as [H|[H|[]]]; auto.
Qed.

Lemma set_add_not_nil x l : set_add x l <> [].
Proof.
  unfold set_add. destruct (existsb (Nat.eqb x) l) eqn:E.
  - destruct l; [discriminate E | discriminate].
  - destruct l; discriminate.
Qed.

Lemma in_set_delete x l y : In y (set_delete x l) -> In y l /\ y <> x.
Proof.
  unfold set_delete. intros H. apply filter_In in H. destruct H as [H E].
  split; [exact H|]. intros ->. now rewrite Nat.eqb_refl in E.
Qed.

Lemma set_delete_in x l y : In y l -> y <> x -> In y (set_delete x l).
Proof.
  unfold set_delete. intros H E. apply filter_In. split; [exact H|].
  destruct (Nat.eqb x y) eqn:Q; [|reflexivity].
  apply Nat.eqb_eq in Q. congruence.
Qed.

(** *** One lemma per event *)

Ltac use_inv H :=
  destruct H as [[Hst Hmic Hpr Htts Hop Hone Hq] Hmt].

Ltac same_started Hst :=
  eapply Forall_impl; [|exact Hst];
  let id := fresh "id" in intros id; apply started_same_nodes; reflexivity.

Lemma processor_none_unless_open s :
  Consistent s -> socket (agenda s) <> SocketOpen ->
  scriptProcessorRef (refs s) = None.
Proof.
  intros [_ _ Hpr _ _ _ _] Hsock.
  destruct (scriptProcessorRef (refs s)) eqn:E; [|reflexivity].
  destruct Hpr as [H _]; congruence.
Qed.

Lemma mic_idle_unless_open s :
  Consistent s -> socket (agenda s) <> SocketOpen ->
  micPending (agenda s) = false.
Proof.
  intros [_ Hmic _ _ _ _ _] Hsock.
  destruct (micPending (agenda s)) eqn:E; [|reflexivity].
  destruct Hmic as [H _]; congruence.
Qed.

Ltac finish :=
  first
    [ solve [auto]
    | solve [match goal with
             | Hst : Forall (started _) _ |- Forall _ _ => same_started Hst
             end]
    | solve [intros; congruence]
    | solve [intros; exfalso; auto; congruence]
    | solve [match goal with
             | Htts : ttsPending _ = true -> _ |- _ =>
                 let E := fresh in intros E; destruct (Htts E); congruence
             end]
    | solve [match goal with
             | Hop : socket _ <> NotRequested -> _ |- _ =>
                 intros _; apply Hop; congruence
             end]
    | solve [match goal with
             | Hq : scriptProcessorRef _ = None -> _ |- _ =>
                 let E := fresh in
                 intros E; destruct (Hq E) as (? & ? & ?); auto
             end]
    | idtac ].

Lemma Inv_SocketOpened s :
  Inv s -> socket (agenda s) = Connecting ->
  Inv (set_micPending true (set_socket SocketOpen s)).
Proof.
  intros HI Hsock.
  pose proof (processor_none_unless_open s (proj1 HI) ltac:(congruence)) as Hnone.
  use_inv HI. split; [|exact Hmt].
  constructor; simpl; finish.
Qed.

Lemma Inv_MicSettled granted s :
  Inv s -> micPending (agenda s) = true ->
  Inv (task (Returned (onopen granted (set_micPending false s)))).
Proof.
  intros HI Hpend. use_inv HI. destruct (Hmic Hpend) as [Hsock Hnone].
  apply Consistent_drain. destruct granted; constructor; simpl; finish.
Qed.

Lemma Inv_TransportError s : Inv s -> Inv (task (Returned (onerror s))).
Proof.
  intros [HC Hmt]. apply Consistent_drain.
  now apply (Consistent_ext s).
Qed.

Lemma capturing_processor s :
  capturing s = true -> scriptProcessorRef (refs s) <> None.
Proof.
  unfold capturing. destruct (scriptProcessorRef (refs s)); discriminate.
Qed.

Lemma Inv_AudioProcess inputData s :
  Inv s -> capturing s = true ->
  Inv (task (Returned (onaudioprocess inputData s))).
Proof.
  intros HI Hcap. apply capturing_processor in Hcap. use_inv HI.
  apply Consistent_drain. unfold onaudioprocess. rewrite then_eq.
  constructor; simpl; finish.
Qed.

Lemma Inv_ConnectSettled_true s rs :
  Inv s -> sessionPromiseRef (refs s) = Some (Pending rs) ->
  Inv (drain (set_microtasks rs (write_sessionPromiseRef (Some Fulfilled) s))).
Proof.
  intros HI Hp. use_inv HI. apply Consistent_drain.
  constructor; simpl; finish.
  intros E. destruct (Hq E) as (Hs & Hw & _).
  unfold waiting in Hw. rewrite Hp in Hw. auto.
Qed.

Lemma sends_rejected rs : sends (rejected rs) = [].
Proof. induction rs as [|r rs IH]; simpl; auto. Qed.

Lemma Inv_ConnectSettled_false s rs :
  Inv s -> sessionPromiseRef (refs s) = Some (Pending rs) ->
  socket (agenda s) = Connecting ->
  Inv (task (Returned (startLiveSession_catch
         (set_microtasks (rejected rs)
            (set_socket SocketFailed
               (write_sessionPromiseRef (Some Rejected) s)))))).
Proof.
  intros HI Hp Hsock.
  pose proof (processor_none_unless_open s (proj1 HI) ltac:(congruence)) as Hnone.
  pose proof (mic_idle_unless_open s (proj1 HI) ltac:(congruence)) as Hidle.
  use_inv HI. apply Consistent_drain.
  constructor; simpl; rewrite ?sends_rejected; finish.
Qed.

Lemma no_nodes_no_active s l :
  nodes (world s) = [] -> Forall (started s) l -> l = [].
Proof.
  intros Hn Hall. destruct l as [|id l]; [reflexivity|].
  inversion Hall as [|? ? (n & Hf & _) _]; subst.
  unfold find_node in Hf. rewrite Hn in Hf. destruct id; discriminate.
Qed.

Lemma Inv_TtsSettled api s :
  Inv s -> ttsPending (agenda s) = true ->
  Inv (task (Returned (playOpeningStatement api (set_ttsPending false s)))).
Proof.
  intros HI Hpend.
  destruct (inv_tts s (proj1 HI) Hpend) as [Hn Hsock].
  pose proof (processor_none_unless_open s (proj1 HI) ltac:(congruence)) as Hnone.
  pose proof (mic_idle_unless_open s (proj1 HI) ltac:(congruence)) as Hidle.
  pose proof (no_nodes_no_active s _ Hn (inv_started s (proj1 HI))) as Hact.
  use_inv HI. apply Consistent_drain. unfold playOpeningStatement.
  destruct (getTextToSpeech api) as [e|[audioData|]].
  - constructor; simpl; finish.
  - destruct (truthy audioData).
    + simpl.
      destruct (outputAudioContextRef (refs s)), (decodeFrame audioData);
        constructor; simpl; rewrite ?Hn, ?Hact; simpl; finish;
        try (intros [|[|i]] [|[|j]] n n'; simpl; congruence).
    + constructor; simpl; rewrite ?Hn, ?Hact; simpl; finish.
      * intros _. split; [reflexivity|]. intros [|i] n; discriminate.
      * intros [|i] j n n'; discriminate.
  - constructor; simpl; rewrite ?Hn, ?Hact; simpl; finish.
    + intros _. split; [reflexivity|]. intros [|i] n; discriminate.
    + intros [|i] j n n'; discriminate.
Qed.

(** What a message can change of what the invariant reads: nothing, or
    one more started frame source, added to the active set. *)
Lemma onmessage_effect now m s :
  let s' := final (onmessage now m s) in
  agenda s' = agenda s /\
  scriptProcessorRef (refs s') = scriptProcessorRef (refs s) /\
  sessionPromiseRef (refs s') = sessionPromiseRef (refs s) /\
  sent (world s') = sent (world s) /\
  microtasks (world s') = microtasks (world s) /\
  releases (world s') = releases (world s) /\
  ((nodes (world s') = nodes (world s) /\
    outputSourcesRef (refs s') = outputSourcesRef (refs s)) \/
   (exists b t,
      nodes (world s') =
        nodes (world s) ++ [mkSourceNode FrameSource b (Some t) false false] /\
      outputSourcesRef (refs s') =
        set_add (List.length (nodes (world s))) (outputSourcesRef (refs s)))).
Proof.
  destruct m as [[ti|] [to|] [|] [audio|]]; unfold onmessage; simpl;
    try (repeat split; auto; fail);
    (destruct (truthy audio); [|simpl; repeat split; auto]);
    unfold onModelAudio, onModelAudio_begin, onModelAudio_resume; simpl;
    (destruct (outputAudioContextRef (refs s)); [|simpl; repeat split; auto]);
    (destruct (decodeFrame audio); [|simpl; repeat split; auto]);
    simpl; rewrite update_at_last; simpl;
    repeat split; auto; right; eauto.
Qed.

Lemma Consistent_new_frame s s' b t :
  agenda s' = agenda s ->
  scriptProcessorRef (refs s') = scriptProcessorRef (refs s) ->
  sessionPromiseRef (refs s') = sessionPromiseRef (refs s) ->
  sent (world s') = sent (world s) ->
  microtasks (world s') = microtasks (world s) ->
  nodes (world s') =
    nodes (world s) ++ [mkSourceNode FrameSource b (Some t) false false] ->
  outputSourcesRef (refs s') =
    set_add (List.length (nodes (world s))) (outputSourcesRef (refs s)) ->
  socket (agenda s) <> NotRequested ->
  Consistent s -> Consistent s'.
Proof.
  intros Ha Hp Hpr' Hs Hm Hn Hact Hsock [Hst Hmic Hpr Htts Hop Hone Hq].
  constructor; unfold waiting; rewrite ?Ha, ?Hp, ?Hpr', ?Hs, ?Hm, ?Hn, ?Hact;
    auto.
  - apply Forall_forall. intros id Hin. apply in_set_add in Hin.
    unfold started, find_node. rewrite Hn. destruct Hin as [->|Hin].
    + eexists. split; [apply nth_error_snoc_new|]. discriminate.
    + rewrite Forall_forall in Hst. destruct (Hst id Hin) as (n & Hf & Hs').
      exists n. split; [now apply nth_error_snoc_old | exact Hs'].
  - intros E. destruct (Hop Hsock). congruence.
  - intros E. destruct (Hop E) as [Htf Hall]. split; [exact Htf|].
    intros i n Hi Hr. apply nth_error_snoc in Hi.
    destruct Hi as [Hi|[_ ->]]; [eauto | discriminate].
  - intros i j n n' Hi Hj Hr Hr'.
    apply nth_error_snoc in Hi. apply nth_error_snoc in Hj.
    destruct Hi as [Hi|[_ ->]]; [|discriminate].
    destruct Hj as [Hj|[_ ->]]; [|discriminate]. eauto.
Qed.

Lemma Inv_ServerMessage now m s :
  Inv s -> socket (agenda s) = SocketOpen ->
  Inv (task (onmessage now m s)).
Proof.
  intros [HC Hmt] Hsock.
  destruct (onmessage_effect now m s) as (Ha & Hp & Hpr & Hs & Hm & _ & Hcase).
  assert (HC' : Consistent (final (onmessage now m s))).
  { destruct Hcase as [[Hn Hact]|(b & t & Hn & Hact)].
    - apply (Consistent_ext s); auto. unfold waiting. now rewrite Hpr.
    - apply (Consistent_new_frame s _ b t); auto. congruence. }
  destruct (onmessage now m s) as [s'|e s']; simpl in *.
  - now apply Consistent_drain.
  - apply Consistent_drain. now apply (Consistent_ext s').
Qed.

Lemma nth_error_updated {A} (f : A -> A) l id i n' :
  nth_error (update_at id f l) i = Some n' ->
  exists n, nth_error l i = Some n /\
            ((i <> id /\ n' = n) \/ (i = id /\ n' = f n)).
Proof.
  rewrite nth_error_update_at. destruct (Nat.eqb id i) eqn:E.
  - apply Nat.eqb_eq in E. subst.
    destruct (nth_error l i) as [n|]; [|discriminate].
    simpl. intros H. injection H as <-. eauto.
  - apply Nat.eqb_neq in E. intros H. exists n'. auto.
Qed.

Lemma started_updated s s' id (f : SourceNode -> SourceNode) j :
  nodes (world s') = update_at id f (nodes (world s)) ->
  (forall n, startedAt (f n) = startedAt n) ->
  started s j -> started s' j.
Proof.
  intros Hn Hf (n & Hfind & Hs). unfold started, find_node in *.
  rewrite Hn, nth_error_update_at, Hfind.
  destruct (Nat.eqb id j); simpl; eexists; split; eauto. now rewrite Hf.
Qed.

Lemma Inv_SourceEnded_frame id s :
  Inv s -> Inv (task (Returned (onended id (mark_ended id s)))).
Proof.
  intros HI. use_inv HI. apply Consistent_drain.
  assert (Hn : nodes (world (onended id (mark_ended id s))) =
               update_at id ended (nodes (world s))).
  { unfold onended. simpl.
    destruct (List.length (set_delete id (outputSourcesRef (refs s))) =? 0)%nat;
      reflexivity. }
  assert (Hact : outputSourcesRef (refs (onended id (mark_ended id s))) =
                 set_delete id (outputSourcesRef (refs s))).
  { unfold onended. simpl.
    destruct (List.length (set_delete id (outputSourcesRef (refs s))) =? 0)%nat;
      reflexivity. }
  assert (Hrest : agenda (onended id (mark_ended id s)) = agenda s /\
                  scriptProcessorRef (refs (onended id (mark_ended id s))) =
                    scriptProcessorRef (refs s) /\
                  waiting (onended id (mark_ended id s)) = waiting s /\
                  sent (world (onended id (mark_ended id s))) = sent (world s) /\
                  microtasks (world (onended id (mark_ended id s))) =
                    microtasks (world s)).
  { unfold onended, waiting. simpl.
    destruct (List.length (set_delete id (outputSourcesRef (refs s))) =? 0)%nat;
      repeat split; reflexivity. }
  destruct Hrest as (Ha & Hp & Hw & Hs & Hm).
  constructor; rewrite ?Ha, ?Hp, ?Hw, ?Hs, ?Hm, ?Hn, ?Hact; auto.
  - apply Forall_forall. intros j Hin. apply in_set_delete in Hin.
    rewrite Forall_forall in Hst.
    apply (started_updated s _ id ended); auto. now apply Hst.
  - intros E. destruct (Htts E) as [Hnil Hsock]. rewrite Hnil. now destruct id.
  - intros E. destruct (Hop E) as [Htf Hall]. split; [exact Htf|].
    intros i n' Hi Hr. apply nth_error_updated in Hi.
    destruct Hi as (n & Hi & [[_ ->]|[_ ->]]); [eauto|].
    unfold can_end, ended. simpl. now destruct (startedAt n).
  - intros i j n n' Hi Hj Hr Hr'.
    apply nth_error_updated in Hi. apply nth_error_updated in Hj.
    destruct Hi as (m & Hi & [[_ ->]|[_ ->]]),
             Hj as (m' & Hj & [[_ ->]|[_ ->]]);
      eauto.
Qed.

Lemma Inv_SourceEnded_opening id n s :
  Inv s -> find_node id s = Some n -> can_end n = true ->
  role n = OpeningSource ->
  Inv (task (Returned (startLiveSession (mark_ended id s)))).
Proof.
  intros HI Hf Hcan Hrole. unfold find_node in Hf.
  assert (Hsock : socket (agenda s) = NotRequested).
  { destruct (socket (agenda s)) eqn:E; [reflexivity| | |];
      destruct (inv_opening s (proj1 HI)) as [_ H]; try congruence;
      specialize (H id n Hf Hrole); congruence. }
  assert (Htf : ttsPending (agenda s) = false).
  { destruct (ttsPending (agenda s)) eqn:E; [|reflexivity].
    destruct (inv_tts s (proj1 HI) E) as [Hnil _].
    rewrite Hnil in Hf. destruct id; discriminate. }
  pose proof (processor_none_unless_open s (proj1 HI) ltac:(congruence)) as Hnone.
  pose proof (mic_idle_unless_open s (proj1 HI) ltac:(congruence)) as Hidle.
  use_inv HI. apply Consistent_drain.
  constructor; simpl; finish.
  - apply Forall_forall. intros j Hin. rewrite Forall_forall in Hst.
    apply (started_updated s _ id ended); auto.
  - intros _. split; [exact Htf|]. intros i n' Hi Hr.
    apply nth_error_updated in Hi.
    destruct Hi as (m & Hi & [[Hne ->]|[-> ->]]).
    + exfalso. apply Hne. eauto.
    + unfold can_end, ended. simpl. now destruct (startedAt m).
  - intros i j m m' Hi Hj Hr Hr'.
    apply nth_error_updated in Hi. apply nth_error_updated in Hj.
    destruct Hi as (k & Hi & [[_ ->]|[_ ->]]),
             Hj as (k' & Hj & [[_ ->]|[_ ->]]);
      eauto.
Qed.

Lemma core_lookup l l' i n' :
  map core l' = map core l -> nth_error l' i = Some n' ->
  exists n, nth_error l i = Some n /\ core n = core n'.
Proof.
  intros Hc Hi.
  assert (H : nth_error (map core l) i = Some (core n'))
    by (rewrite <- Hc; now apply map_nth_error).
  rewrite nth_error_map in H.
  destruct (nth_error l i) as [n|]; [|discriminate].
  simpl in H. exists n. split; [reflexivity | congruence].
Qed.

Lemma can_end_core n n' : core n = core n' -> can_end n = can_end n'.
Proof. unfold core, can_end. intros H. injection H as _ -> ->. reflexivity. Qed.

Lemma role_core n n' : core n = core n' -> role n = role n'.
Proof. unfold core. congruence. Qed.

Lemma started_cores s s' id :
  map core (nodes (world s')) = map core (nodes (world s)) ->
  started s id -> started s' id.
Proof.
  intros Hc (n & Hf & Hs). unfold started, find_node in *.
  destruct (core_lookup _ _ id n (eq_sym Hc) Hf) as (n' & Hf' & Hcore).
  exists n'. split; [exact Hf'|]. unfold core in Hcore. congruence.
Qed.

Lemma Consistent_cleaned s s' : cleaned s s' -> Consistent s -> Consistent s'.
Proof.
  intros [Hv Ha Hpm Hms Hprc Hin Hout Hact Hco Hse Hcon Hun Hcls Htm Hmi Hrel Hstp]
         [Hst Hmic Hpr Htts Hop Hone Hq].
  assert (Hnone : scriptProcessorRef (refs s') = None ->
                  scriptProcessorRef (refs s) = None).
  { rewrite Hprc. now destruct (scriptProcessorRef (refs s)). }
  constructor; rewrite ?Ha, ?Hact, ?Hse.
  - eapply Forall_impl; [|exact Hst]. intros id. now apply started_cores.
  - intros E. destruct (Hmic E) as [H1 H2]. split; [exact H1|].
    rewrite Hprc, H2. reflexivity.
  - intros E. apply Hpr. intros H. apply E. rewrite Hprc, H. reflexivity.
  - intros E. destruct (Htts E) as [Hnil Hsock]. split; [|exact Hsock].
    rewrite Hnil in Hco. now apply map_eq_nil in Hco.
  - intros E. destruct (Hop E) as [Htf Hall]. split; [exact Htf|].
    intros i n' Hi Hr.
    destruct (core_lookup _ _ i n' Hco Hi) as (n & Hn & Hc).
    rewrite <- (can_end_core _ _ Hc). apply (Hall i n Hn).
    now rewrite (role_core _ _ Hc).
  - intros i j n n' Hi Hj Hr Hr'.
    destruct (core_lookup _ _ i n Hco Hi) as (m & Hm & Hc).
    destruct (core_lookup _ _ j n' Hco Hj) as (m' & Hm' & Hc').
    apply (Hone i j m m' Hm Hm'); [now rewrite (role_core _ _ Hc) |
                                   now rewrite (role_core _ _ Hc')].
  - intros E. destruct (Hq (Hnone E)) as (Hs & Hw & Hm).
    split; [exact Hs|]. unfold waiting in *.
    rewrite Hpm, Hmi, sends_app, Hm.
    destruct (sessionPromiseRef (refs s)) as [[rs| |]|]; simpl;
      rewrite ?sends_app, ?Hw; auto.
Qed.

Lemma Inv_EndSessionClicked s : Inv s -> Inv (task (handleEndSession s)).
Proof.
  intros [HC Hmt].
  destruct (cleanUp_returns s (inv_started s HC)) as (s' & Hrun & Hcl).
  unfold handleEndSession. rewrite Hrun. simpl bind.
  apply Consistent_drain.
  apply (Consistent_ext s'); try reflexivity.
  now apply (Consistent_cleaned s).
Qed.

Lemma Inv_Unmounted s : Inv s -> Inv (task (cleanUp (set_mounted false s))).
Proof.
  intros HI.
  assert (HC : Consistent (set_mounted false s)).
  { use_inv HI. constructor; simpl; finish. }
  destruct (cleanUp_returns _ (inv_started _ HC)) as (s' & Hrun & Hcl).
  rewrite Hrun. apply Consistent_drain.
  now apply (Consistent_cleaned (set_mounted false s)).
Qed.

(** Every event the environment can deliver keeps the invariant. *)
Lemma step_Inv e s s' : Inv s -> step e s = Some s' -> Inv s'.
Proof.
  intros HI Hstep. destruct e as [api| |granted|ok|inputData|now m|id| | |];
    simpl in Hstep.
  - destruct (ttsPending (agenda s)) eqn:E; [|discriminate].
    injection Hstep as <-. now apply Inv_TtsSettled.
  - destruct (socket (agenda s)) eqn:E; try discriminate.
    injection Hstep as <-. now apply Inv_SocketOpened.
  - destruct (micPending (agenda s)) eqn:E; [|discriminate].
    injection Hstep as <-. now apply Inv_MicSettled.
  - destruct (sessionPromiseRef (refs s)) as [[rs| |]|] eqn:Ep; try discriminate.
    destruct (socket (agenda s)) eqn:Es, ok; try discriminate;
      injection Hstep as <-.
    + now apply (Inv_ConnectSettled_false s rs).
    + now apply (Inv_ConnectSettled_true s rs).
  - destruct (capturing s) eqn:E; [|discriminate].
    injection Hstep as <-. now apply Inv_AudioProcess.
  - destruct (socket (agenda s)) eqn:E; try discriminate.
    destruct (sessionClosed (world s)); [discriminate|].
    injection Hstep as <-. now apply Inv_ServerMessage.
  - destruct (find_node id s) as [n|] eqn:Ef; [|discriminate].
    destruct (can_end n) eqn:Ec; [|discriminate].
    destruct (role n) eqn:Er; injection Hstep as <-.
    + now apply (Inv_SourceEnded_opening id n).
    + now apply Inv_SourceEnded_frame.
  - destruct (socket (agenda s)); try discriminate;
      injection Hstep as <-; now apply Inv_TransportError.
  - destruct (mounted (agenda s)); [|discriminate].
    injection Hstep as <-. now apply Inv_EndSessionClicked.
  - destruct (mounted (agenda s)); [|discriminate].
    injection Hstep as <-. now apply Inv_Unmounted.
Qed.

Lemma run_Inv events : forall s s', Inv s -> run events s = Some s' -> Inv s'.
Proof.
  induction events as [|e rest IH]; intros s s' HI Hrun; simpl in Hrun.
  - now injection Hrun as <-.
  - destruct (step e s) as [s1|] eqn:E; [|discriminate].
    apply (IH s1); [|exact Hrun]. now apply (step_Inv e s).
Qed.

Lemma Reachable_Inv s : Reachable s -> Inv s.
Proof. intros [events Hrun]. exact (run_Inv events init s Inv_init Hrun). Qed.

End Invariant.

(** The cases of [step e s = Some s']. *)
Ltac step_cases e s Hstep :=
  destruct e as [api| |granted|ok|inputData|now m|id| | |]; unfold step in Hstep;
  [ destruct (ttsPending (agenda s)) eqn:Etts; [|discriminate];
    injection Hstep as <-
  | destruct (socket (agenda s)) eqn:Esock; try discriminate;
    injection Hstep as <-
  | destruct (micPending (agenda s)) eqn:Emic; [|discriminate];
    injection Hstep as <-
  | destruct (sessionPromiseRef (refs s)) as [[rs| |]|] eqn:Ep; try discriminate;
    destruct (socket (agenda s)) eqn:Esock, ok; try discriminate;
    injection Hstep as <-
  | destruct (capturing s) eqn:Ecap; [|discriminate];
    injection Hstep as <-
  | destruct (socket (agenda s)) eqn:Esock; try discriminate;
    destruct (sessionClosed (world s)) eqn:Ecl; [discriminate|];
    injection Hstep as <-
  | destruct (find_node id s) as [n|] eqn:Ef; [|discriminate];
    destruct (can_end n) eqn:Ec; [|discriminate];
    destruct (role n) eqn:Er; injection Hstep as <-
  | destruct (socket (agenda s)) eqn:Esock; try discriminate;
    injection Hstep as <-
  | destruct (mounted (agenda s)) eqn:Emo; [|discriminate];
    injection Hstep as <-
  | destruct (mounted (agenda s)) eqn:Emo; [|discriminate];
    injection Hstep as <- ].

(** ** The encoder *)

Section Encoder.

Import Codec.

Lemma to_pcm16_int16 inputData : Forall is_int16 (to_pcm16 inputData).
Proof.
  unfold to_pcm16. induction inputData as [|f l IH]; simpl; constructor; auto.
  apply ToInt16_range.
Qed.

(** A full-scale positive sample is scaled to 32768, which the conversion
    to 16 bits wraps to the most negative value. *)
Example ToInt16_one_wraps : ToInt16 (scale 1) = -32768.
Proof. reflexivity. Qed.

(** A full-scale positive sample scales to 32768, which is not a 16-bit
    value. *)
Lemma encode_scaling_counterexample : ~ scaling_claim.
Proof.
  intros H. destruct (H 1%Q) as [[_ Hhi] _].
  - split; unfold Qle; simpl; lia.
  - vm_compute in Hhi. apply Hhi. reflexivity.
Qed.

(** Claim C9, amended.  Encode scaling.  For captured samples in [-1, 1] the encoder
    yields one 16-bit value per sample, each in [-32768, 32767] and, for a
    sample below 1, the product with 32768 truncated toward zero; it packs
    them two bytes each, low byte first, from which the samples are read
    back unchanged; and it writes the bytes in the text-safe transport
    encoding, from which [decode] reads them back: the blob is a function
    of the samples alone, with as many samples out as in. *)
Theorem encode_scaling :
  forall inputData : list Q,
    Forall unit_interval inputData ->
    let samples := to_pcm16 inputData in
    let bytes := pack samples in
    Forall is_int16 samples /\
    List.length samples = List.length inputData /\
    (forall k f, nth_error inputData k = Some f -> (f < 1)%Q ->
                 nth_error samples k = Some (Qtrunc (scale f))) /\
    Forall is_byte bytes /\
    List.length bytes = (2 * List.length inputData)%nat /\
    samples_of_bytes bytes = Some samples /\
    data (pcmBlob inputData) = encode bytes /\
    text_safe (data (pcmBlob inputData)) /\
    decode (data (pcmBlob inputData)) = Some bytes.
Proof.
  intros inputData Hin samples bytes.
  assert (Hs : Forall is_int16 samples) by apply to_pcm16_int16.
  assert (Hl : List.length samples = List.length inputData)
    by apply length_map.
  assert (Hb : Forall is_byte bytes) by apply pack_bytes.
  repeat split; auto.
  - intros k f Hk Hlt. subst samples. unfold to_pcm16.
    rewrite nth_error_map, Hk. simpl. f_equal.
    rewrite Forall_forall in Hin.
    destruct (Hin f (nth_error_In _ _ Hk)) as [Hlo _].
    apply ToInt16_exact; [reflexivity|].
    now apply Qtrunc_scale_range.
  - subst bytes. now rewrite pack_length, Hl.
  - now apply unpack_pack.
  - now apply encode_text_safe.
  - now apply decode_encode.
Qed.

Lemma encode_scaling_witness :
  to_pcm16 [1 # 2; - (1); 0; 1]%Q = [16384; -32768; 0; -32768] /\
  data (pcmBlob [1 # 2; - (1); 0; 1]%Q) = "AEAAgAAAAIA="%string /\
  decode "AEAAgAAAAIA=" = Some (pack (to_pcm16 [1 # 2; - (1); 0; 1]%Q)).
Proof.
  split; [reflexivity|]. split; [reflexivity|].
  apply (encode_scaling [1 # 2; - (1); 0; 1]%Q).
  repeat constructor; unfold Qle; simpl; lia.
Defined.

End Encoder.

(** ** The opening statement *)

Section Opening.

Example getTextToSpeech_empty : getTextToSpeech (ApiResponds (Some EmptyString)) = inr None.
Proof. reflexivity. Qed.

(** The speech call raises: the handler of [playOpeningStatement] puts the
    session in the error state and the live session is never asked for. *)
Lemma opening_fallback_counterexample : ~ opening_fallback_claim.
Proof.
  intros H.
  destruct (H ApiThrows (task (Returned (playOpeningStatement ApiThrows
              (set_ttsPending false init))))) as [Hstatus _].
  - right. exists ApiError. reflexivity.
  - vm_compute. reflexivity.
  - vm_compute in Hstatus. discriminate Hstatus.
Qed.

(** Claim C6, amended. Opening-statement fallback.  When the speech call
    returns nothing, the session goes straight to the start of the live
    session: status Starting, the connection asked for, no error recorded.
    When the call raises, the handler of [playOpeningStatement] records the
    message, puts the status to Error and asks for no connection. *)
Theorem opening_fallback :
  forall (api : ApiOutcome) (s : Session),
    ttsPending (agenda s) = true ->
    exists s',
      step (TtsSettled api) s = Some s' /\
      (getTextToSpeech api = inr None ->
         status (view s') = Starting /\
         sessionPromiseRef (refs s') = Some (Pending []) /\
         socket (agenda s') = Connecting /\
         error (view s') = error (view s) /\
         console (world s') = console (world s)) /\
      (forall e, getTextToSpeech api = inl e ->
         status (view s') = Error /\
         error (view s') = "Failed to start the session. Please try again."%string /\
         sessionPromiseRef (refs s') = sessionPromiseRef (refs s) /\
         socket (agenda s') = socket (agenda s)).
Proof.
  intros api s Hpend.
  exists (task (Returned (playOpeningStatement api (set_ttsPending false s)))).
  split; [unfold step; now rewrite Hpend|].
  rewrite view_task, refs_task, agenda_task. unfold task. rewrite console_drain.
  unfold playOpeningStatement.
  destruct (getTextToSpeech api) as [e|[audioData|]]; split;
    try discriminate; try (intros; discriminate); intros; simpl; auto.
Qed.

Lemma opening_fallback_witness :
  exists s',
    step (TtsSettled (ApiResponds None)) init = Some s' /\
    status (view s') = Starting /\ socket (agenda s') = Connecting.
Proof.
  destruct (opening_fallback (ApiResponds None) init eq_refl)
    as (s' & Hstep & Hnull & _).
  exists s'. split; [exact Hstep|].
  destruct (Hnull eq_refl) as (H1 & _ & H3 & _). split; assumption.
Defined.

End Opening.

(** ** A frame that does not decode *)

Section Corrupt.

(** What the handler has done by the time decoding fails: the status is
    Speaking and the tracked next start has caught up with the clock; no
    source exists for the frame, so no completion will undo the status. *)
Lemma onmessage_corrupt now base64Audio s c :
  truthy base64Audio = true ->
  outputAudioContextRef (refs s) = Some c ->
  decodeFrame base64Audio = None ->
  exists s',
    onmessage now (ModelAudioFrame base64Audio) s = Threw DecodeError s' /\
    status (view s') = Speaking /\
    nextStartTimeRef (refs s') = Math_max (nextStartTimeRef (refs s)) now /\
    outputSourcesRef (refs s') = outputSourcesRef (refs s) /\
    nodes (world s') = nodes (world s) /\
    transcripts (view s') = transcripts (view s).
Proof.
  intros Ht Hc Hd.
  unfold onmessage, onModelAudio, onModelAudio_begin, onModelAudio_resume.
  simpl.
  rewrite Ht, Hc, Hd. eexists. split; [reflexivity|]. simpl. auto.
Qed.

(** Claim C7. Decode failure, at the failing input.  The session listens and
    nothing plays; a
    frame whose payload is not base64 arrives.  The handler throws, no
    source is scheduled, and the status is left at Speaking with an empty
    active set. *)
Theorem corrupt_frame_leaves_speaking :
  status (view listening_session) = Listening /\
  outputSourcesRef (refs listening_session) = [] /\
  exists s',
    step (ServerMessage 1 (ModelAudioFrame "!!!!")) listening_session = Some s' /\
    uncaught (world s') = [DecodeError] /\
    schedule s' = schedule listening_session /\
    outputSourcesRef (refs s') = [] /\
    status (view s') = Speaking.
Proof.
  split; [vm_compute; reflexivity|]. split; [vm_compute; reflexivity|].
  eexists. split; [vm_compute; reflexivity|].
  repeat split; vm_compute; reflexivity.
Qed.

End Corrupt.

(** ** Status and playback *)

Section Status.

(** A transport error while the judge speaks: the status is Error and a
    source is still active. *)
Lemma status_reflects_playback_counterexample :
  ~ (forall s, Reachable s -> status_reflects_playback s).
Proof.
  intros H.
  assert (R : Reachable errored_while_speaking).
  { exists [TtsSettled (ApiResponds (Some "AAAAAAAA"%string)); SourceEnded 0;
            SocketOpened; ConnectSettled true; MicSettled true;
            ServerMessage 1 (ModelAudioFrame "AAAAAAAA"); TransportError].
    vm_compute. reflexivity. }
  destruct (H _ R) as [_ Hback].
  assert (E : status (view errored_while_speaking) = Speaking).
  { apply Hback. vm_compute. discriminate. }
  vm_compute in E. discriminate E.
Qed.

(** A message whose handler returns leaves status and active set alone, or
    sets Speaking and adds a source. *)
Lemma onmessage_returned now m s s' :
  onmessage now m s = Returned s' ->
  (status (view s') = status (view s) /\
   outputSourcesRef (refs s') = outputSourcesRef (refs s)) \/
  (status (view s') = Speaking /\
   outputSourcesRef (refs s') =
     set_add (List.length (nodes (world s))) (outputSourcesRef (refs s))).
Proof.
  destruct m as [[ti|] [to|] [|] [audio|]]; unfold onmessage; simpl;
    try (intros H; injection H as <-; left; split; reflexivity);
    (destruct (truthy audio);
      [|intros H; injection H as <-; left; split; reflexivity]);
    unfold onModelAudio, onModelAudio_begin, onModelAudio_resume; simpl;
    (destruct (outputAudioContextRef (refs s)); [|discriminate]);
    (destruct (decodeFrame audio); [|discriminate]);
    simpl; intros H; injection H as <-; right; split; reflexivity.
Qed.

Lemma completion_status id s :
  let s' := completion id s in
  outputSourcesRef (refs s') = set_delete id (outputSourcesRef (refs s)) /\
  (outputSourcesRef (refs s') = [] -> status (view s') = Listening) /\
  (outputSourcesRef (refs s') <> [] -> status (view s') = status (view s)).
Proof.
  unfold completion. rewrite refs_task, view_task. unfold onended. simpl.
  generalize (set_delete id (outputSourcesRef (refs s))) as d.
  intros [|x l]; simpl; repeat split; auto; try congruence; discriminate.
Qed.

Lemma conversing_reflects s : conversing s -> status_reflects_playback s.
Proof.
  unfold status_reflects_playback.
  intros [[Hs Ha]|[Hs Ha]]; rewrite Hs; split; try congruence; auto.
Qed.

Lemma conversing_completion id s :
  conversing s -> In id (outputSourcesRef (refs s)) ->
  conversing (completion id s).
Proof.
  intros Hc Hin. destruct (completion_status id s) as (_ & Hempty & Hrest).
  unfold conversing.
  destruct (outputSourcesRef (refs (completion id s))) eqn:E.
  - left. auto.
  - right. split; [|discriminate]. rewrite Hrest by discriminate.
    destruct Hc as [[_ Ha]|[Hs _]]; [rewrite Ha in Hin; destruct Hin | exact Hs].
Qed.

Lemma conversing_exchange s s' : conversing s -> exchange s s' -> conversing s'.
Proof.
  intros Hc Hex. induction Hex as [s|s s1 now m s2 _ IH Hrun|s s1 id _ IH Hin].
  - exact Hc.
  - specialize (IH Hc). unfold conversing. rewrite view_task, refs_task. simpl.
    destruct (onmessage_returned now m s1 s2 Hrun) as [[Hs Ha]|[Hs Ha]].
    + rewrite Hs, Ha. exact IH.
    + right. rewrite Hs, Ha. split; [reflexivity | apply set_add_not_nil].
  - apply conversing_completion; auto.
Qed.

(** Claim C3, amended. Status reflects active playback.  From a state that
    listens with nothing playing or speaks with something playing, through
    any messages whose handler returns and any completions of active
    sources, the status is Speaking exactly when the active set is not
    empty; and each completion leaves the status at Listening exactly when
    it empties the set, and at Speaking otherwise. *)
Theorem status_tracks_playback :
  forall s s',
    conversing s -> exchange s s' ->
    status_reflects_playback s' /\
    forall id, In id (outputSourcesRef (refs s')) ->
      (status (view (completion id s')) = Listening <->
       outputSourcesRef (refs (completion id s')) = []) /\
      (outputSourcesRef (refs (completion id s')) <> [] ->
       status (view (completion id s')) = Speaking).
Proof.
  intros s s' Hc Hex.
  pose proof (conversing_exchange s s' Hc Hex) as Hc'.
  split; [now apply conversing_reflects|].
  intros id Hin.
  destruct (conversing_completion id s' Hc' Hin) as [[Hs Ha]|[Hs Ha]].
  - rewrite Hs, Ha. split; [tauto | congruence].
  - rewrite Hs. split; [split; [discriminate | congruence] | reflexivity].
Qed.

Lemma status_tracks_playback_witness :
  status_reflects_playback (task (Returned first_frame_handled)) /\
  status (view (completion 1 (task (Returned first_frame_handled)))) = Listening.
Proof.
  assert (Hc : conversing listening_session)
    by (left; split; vm_compute; reflexivity).
  assert (Hrun : onmessage 1%float (ModelAudioFrame "AAAAAAAA") listening_session =
                 Returned first_frame_handled) by (vm_compute; reflexivity).
  pose proof (exchange_message listening_session listening_session 1%float
                (ModelAudioFrame "AAAAAAAA") first_frame_handled
                (exchange_refl listening_session) Hrun) as Hex.
  destruct (status_tracks_playback _ _ Hc Hex) as [Hr Hend].
  split; [exact Hr|].
  assert (Hin : In 1%nat (outputSourcesRef
                  (refs (task (Returned first_frame_handled)))))
    by (vm_compute; auto).
  destruct (Hend 1%nat Hin) as [[_ Hback] _].
  apply Hback. vm_compute. reflexivity.
Defined.

End Status.

(** ** Ending the session *)

Section Ending.

Lemma skipn_app_exact {A} (l x : list A) : skipn (List.length l) (l ++ x) = x.
Proof. induction l as [|a l IH]; simpl; auto. Qed.

(** The end of the session, run on a state of the event loop. *)
Lemma endSession_effect s :
  Inv s ->
  exists s',
    cleaned s s' /\
    handleEndSession s =
      Returned (set_timers (S (timers (world s'))) (setStatus Ended s')) /\
    endSession s =
      drain (set_timers (S (timers (world s'))) (setStatus Ended s')).
Proof.
  intros [HC Hmt].
  destruct (cleanUp_returns s (inv_started s HC)) as (s' & Hrun & Hcl).
  exists s'. unfold endSession, handleEndSession. rewrite Hrun. simpl.
  auto.
Qed.

Lemma endSession_Inv s : Inv s -> Inv (endSession s).
Proof. apply Inv_EndSessionClicked. Qed.

Lemma endSession_releases s :
  Inv s -> released_by s (endSession s) = teardown_calls s.
Proof.
  intros HI. destruct (endSession_effect s HI) as (s' & Hcl & _ & ->).
  destruct HI as [_ Hmt]. unfold released_by.
  rewrite releases_drain. simpl.
  rewrite (cl_releases _ _ Hcl), (cl_microtasks _ _ Hcl), Hmt. simpl.
  rewrite <- app_assoc, skipn_app_exact. unfold teardown_calls, channel_closes.
  rewrite <- !app_assoc.
  destruct (sessionPromiseRef (refs s)) as [[rs| |]|]; reflexivity.
Qed.

(** Each teardown on a rejected promise leaves one unhandled rejection;
    otherwise nothing is left uncaught. *)
Lemma endSession_quiet s :
  Inv s ->
  uncaught (world (endSession s)) =
    uncaught (world s) ++
    match sessionPromiseRef (refs s) with
    | Some Rejected => [ConnectError]
    | _ => []
    end /\
  console (world (endSession s)) = console (world s).
Proof.
  intros HI. destruct (endSession_effect s HI) as (s' & Hcl & _ & ->).
  rewrite uncaught_drain, console_drain. simpl.
  rewrite (cl_uncaught _ _ Hcl), (cl_console _ _ Hcl), (cl_microtasks _ _ Hcl).
  rewrite (proj2 HI). split; [|reflexivity].
  now destruct (sessionPromiseRef (refs s)) as [[rs| |]|].
Qed.

(** What a teardown leaves released, on a promise that has settled. *)
Lemma cleaned_released s c x :
  cleaned s c -> microtasks (world s) = [] ->
  (forall rs, sessionPromiseRef (refs s) <> Some (Pending rs)) ->
  refs x = refs c -> nodes (world x) = nodes (world c) ->
  sessionClosed (world x) = sessionClosed (world c) ->
  microtasks (world x) = microtasks (world c) ->
  all_released (drain x).
Proof.
  intros Hcl Hmt Hset Hr Hn Hc Hm.
  unfold all_released, sources_released, stream_released, processor_released,
    channel_released.
  rewrite refs_drain, closed_drain, Hr, Hc, Hm.
  rewrite (cl_active _ _ Hcl), (cl_stream _ _ Hcl), (cl_processor _ _ Hcl),
    (cl_input _ _ Hcl), (cl_output _ _ Hcl), (cl_promise _ _ Hcl),
    (cl_microtasks _ _ Hcl), Hmt.
  repeat split.
  - eapply Forall_impl; [|exact (cl_stopped _ _ Hcl)].
    intros id. apply stopped_same_nodes. now rewrite nodes_drain.
  - destruct (mediaStreamRef (refs s)) as [stream|]; simpl; [|exact I].
    apply Forall_forall. intros t Ht. apply in_map_iff in Ht.
    now destruct Ht as (_ & <- & _).
  - now destruct (scriptProcessorRef (refs s)).
  - now destruct (audioContextRef (refs s)).
  - now destruct (outputAudioContextRef (refs s)).
  - destruct (sessionPromiseRef (refs s)) as [[rs| |]|]; simpl; auto.
    + now apply (Hset rs).
    + apply orb_true_r.
Qed.

Lemma endSession_released s :
  Inv s -> (forall rs, sessionPromiseRef (refs s) <> Some (Pending rs)) ->
  all_released (endSession s).
Proof.
  intros HI Hset. destruct (endSession_effect s HI) as (c & Hcl & _ & ->).
  apply (cleaned_released s c); auto. apply HI.
Qed.

Lemma in_order_app rank a b :
  in_order rank a = true -> in_order rank b = true ->
  (forall x y, In x a -> In y b -> (rank x <= rank y)%nat) ->
  in_order rank (a ++ b) = true.
Proof.
  induction a as [|x a IH]; simpl; intros Ha Hb Hab; [exact Hb|].
  apply andb_prop in Ha. destruct Ha as [Hx Ha].
  apply andb_true_intro. split.
  - rewrite forallb_app, Hx. simpl. apply forallb_forall.
    intros y Hy. apply Nat.leb_le. apply Hab; auto.
  - apply IH; auto.
Qed.

Lemma in_order_same rank (l : list Release) k :
  (forall x, In x l -> rank x = k) -> in_order rank l = true.
Proof.
  induction l as [|x l IH]; simpl; intros H; [reflexivity|].
  apply andb_true_intro. split; [|apply IH; auto].
  apply forallb_forall. intros y Hy. apply Nat.leb_le.
  rewrite (H x), (H y); auto.
Qed.

Lemma teardown_calls_in_order s : in_order code_rank (teardown_calls s) = true.
Proof.
  unfold teardown_calls.
  assert (T : forall y, In y (track_stops s) -> code_rank y = 0%nat).
  { unfold track_stops. destruct (mediaStreamRef (refs s)); [|intros ? []].
    intros y Hy. apply in_map_iff in Hy. now destruct Hy as (_ & <- & _). }
  assert (P : forall y, In y (processor_disconnects s) -> code_rank y = 1%nat).
  { unfold processor_disconnects. destruct (scriptProcessorRef (refs s));
      [|intros ? []]. intros y [<-|[]]. reflexivity. }
  assert (I : forall y, In y (context_closes (audioContextRef (refs s))
                InputContextClose) -> code_rank y = 2%nat).
  { unfold context_closes. destruct (audioContextRef (refs s)) as [c|];
      [|intros ? []]. destruct (is_closed c); [intros ? []|].
    intros y [<-|[]]. reflexivity. }
  assert (S : forall y, In y (map SourceStop (outputSourcesRef (refs s))) ->
                code_rank y = 3%nat).
  { intros y Hy. apply in_map_iff in Hy. now destruct Hy as (x & <- & _). }
  assert (O : forall y, In y (context_closes (outputAudioContextRef (refs s))
                OutputContextClose) -> code_rank y = 4%nat).
  { unfold context_closes. destruct (outputAudioContextRef (refs s)) as [c|];
      [|intros ? []]. destruct (is_closed c); [intros ? []|].
    intros y [<-|[]]. reflexivity. }
  assert (C : forall y, In y (channel_closes s) -> code_rank y = 5%nat).
  { unfold channel_closes.
    destruct (sessionPromiseRef (refs s)) as [[rs| |]|]; simpl;
      intros y Hy; try contradiction.
    destruct Hy as [<-|[]]. reflexivity. }
  assert (L5 : forall y, In y (channel_closes s) -> (5 <= code_rank y)%nat)
    by (intros y Hy; rewrite (C y Hy); lia).
  assert (L4 : forall y,
            In y (context_closes (outputAudioContextRef (refs s))
                    OutputContextClose ++ channel_closes s) ->
            (4 <= code_rank y)%nat).
  { intros y Hy. apply in_app_or in Hy. destruct Hy as [Hy|Hy];
      [rewrite (O y Hy); lia | specialize (L5 y Hy); lia]. }
  assert (L3 : forall y,
            In y (map SourceStop (outputSourcesRef (refs s)) ++
                  context_closes (outputAudioContextRef (refs s))
                    OutputContextClose ++ channel_closes s) ->
            (3 <= code_rank y)%nat).
  { intros y Hy. apply in_app_or in Hy. destruct Hy as [Hy|Hy];
      [rewrite (S y Hy); lia | specialize (L4 y Hy); lia]. }
  assert (L2 : forall y,
            In y (context_closes (audioContextRef (refs s)) InputContextClose ++
                  map SourceStop (outputSourcesRef (refs s)) ++
                  context_closes (outputAudioContextRef (refs s))
                    OutputContextClose ++ channel_closes s) ->
            (2 <= code_rank y)%nat).
  { intros y Hy. apply in_app_or in Hy. destruct Hy as [Hy|Hy];
      [rewrite (I y Hy); lia | specialize (L3 y Hy); lia]. }
  assert (L1 : forall y,
            In y (processor_disconnects s ++
                  context_closes (audioContextRef (refs s)) InputContextClose ++
                  map SourceStop (outputSourcesRef (refs s)) ++
                  context_closes (outputAudioContextRef (refs s))
                    OutputContextClose ++ channel_closes s) ->
            (1 <= code_rank y)%nat).
  { intros y Hy. apply in_app_or in Hy. destruct Hy as [Hy|Hy];
      [rewrite (P y Hy); lia | specialize (L2 y Hy); lia]. }
  apply in_order_app; [now apply (in_order_same _ _ 0%nat) | |
    intros x y Hx Hy; rewrite (T x Hx); specialize (L1 y Hy); lia].
  apply in_order_app; [now apply (in_order_same _ _ 1%nat) | |
    intros x y Hx Hy; rewrite (P x Hx); specialize (L2 y Hy); lia].
  apply in_order_app; [now apply (in_order_same _ _ 2%nat) | |
    intros x y Hx Hy; rewrite (I x Hx); specialize (L3 y Hy); lia].
  apply in_order_app; [now apply (in_order_same _ _ 3%nat) | |
    intros x y Hx Hy; rewrite (S x Hx); specialize (L4 y Hy); lia].
  apply in_order_app; [now apply (in_order_same _ _ 4%nat) | |
    intros x y Hx Hy; rewrite (O x Hx); specialize (L5 y Hy); lia].
  now apply (in_order_same _ _ 5%nat).
Qed.

(** With a source playing, the microphone is released before the source is
    stopped. *)
Lemma release_order_counterexample : ~ release_order_claim.
Proof.
  intros H.
  assert (R : Reachable speaking_session).
  { exists [TtsSettled (ApiResponds (Some "AAAAAAAA"%string)); SourceEnded 0;
            SocketOpened; ConnectSettled true; MicSettled true;
            ServerMessage 1 (ModelAudioFrame "AAAAAAAA")].
    vm_compute. reflexivity. }
  specialize (H _ R). vm_compute in H. discriminate H.
Qed.

(** Claim C4, amended. Teardown release order.  Ending the session from any
    reachable state makes exactly these release calls, in this order: the
    microphone tracks are stopped, the processing node is disconnected, the
    input context is closed, the active playback sources are stopped, the
    output context is closed, and the channel is closed, its close being a
    reaction to the session promise that runs once the rest is done; a
    handle that was never acquired, and a context that is closed already,
    gets no call. *)
Theorem teardown_release_order :
  forall s, Reachable s ->
    released_by s (endSession s) = teardown_calls s /\
    in_order code_rank (released_by s (endSession s)) = true.
Proof.
  intros s R. pose proof (Reachable_Inv s R) as HI.
  rewrite (endSession_releases s HI). split; [reflexivity|].
  apply teardown_calls_in_order.
Qed.

Lemma teardown_release_order_witness :
  released_by speaking_session (endSession speaking_session) =
    [TrackStop; ProcessorDisconnect; InputContextClose; SourceStop 1;
     OutputContextClose; ChannelClose].
Proof.
  assert (R : Reachable speaking_session).
  { exists [TtsSettled (ApiResponds (Some "AAAAAAAA"%string)); SourceEnded 0;
            SocketOpened; ConnectSettled true; MicSettled true;
            ServerMessage 1 (ModelAudioFrame "AAAAAAAA")].
    vm_compute. reflexivity. }
  destruct (teardown_release_order speaking_session R) as [E _].
  rewrite E. vm_compute. reflexivity.
Defined.

Lemma teardown_calls_again s s' :
  cleaned s s' ->
  track_stops s' = track_stops s /\
  processor_disconnects s' = processor_disconnects s /\
  context_closes (audioContextRef (refs s')) InputContextClose = [] /\
  context_closes (outputAudioContextRef (refs s')) OutputContextClose = [] /\
  outputSourcesRef (refs s') = outputSourcesRef (refs s) /\
  channel_closes s' = channel_closes s.
Proof.
  intros Hcl. unfold track_stops, processor_disconnects, channel_closes.
  rewrite (cl_stream _ _ Hcl), (cl_processor _ _ Hcl), (cl_input _ _ Hcl),
    (cl_output _ _ Hcl), (cl_promise _ _ Hcl), (cl_active _ _ Hcl).
  repeat split.
  - destruct (mediaStreamRef (refs s)); simpl; [|reflexivity].
    now rewrite map_map.
  - now destruct (scriptProcessorRef (refs s)).
  - now destruct (audioContextRef (refs s)).
  - now destruct (outputAudioContextRef (refs s)).
  - now destruct (sessionPromiseRef (refs s)) as [[rs| |]|].
Qed.

(** *** Once torn down, for good *)

Lemma stopped_ended id s j : stopped s j -> stopped (mark_ended id s) j.
Proof.
  intros (n & Hn & Hs). unfold stopped, find_node, mark_ended, update_node in *.
  simpl. rewrite nth_error_update_at, Hn.
  destruct (Nat.eqb id j); simpl; eauto.
Qed.

(** What the released handles read. *)
Lemma all_released_ext s x :
  mediaStreamRef (refs x) = mediaStreamRef (refs s) ->
  scriptProcessorRef (refs x) = scriptProcessorRef (refs s) ->
  audioContextRef (refs x) = audioContextRef (refs s) ->
  outputAudioContextRef (refs x) = outputAudioContextRef (refs s) ->
  sessionPromiseRef (refs x) = sessionPromiseRef (refs s) ->
  sessionClosed (world x) = sessionClosed (world s) ->
  (forall id, In id (outputSourcesRef (refs x)) ->
              In id (outputSourcesRef (refs s))) ->
  (forall id, stopped s id -> stopped x id) ->
  all_released s -> all_released x.
Proof.
  intros H1 H2 H3 H4 H5 H6 Hin Hst (R1 & R2 & R3 & R4 & R5 & R6).
  unfold all_released, sources_released, stream_released, processor_released,
    channel_released in *.
  rewrite H1, H2, H3, H4, H5, H6. repeat split; auto.
  rewrite Forall_forall in *. auto.
Qed.

Lemma all_released_drain x :
  microtasks (world x) = [] -> all_released x -> all_released (drain x).
Proof.
  intros Hm. apply all_released_ext; rewrite ?refs_drain; auto.
  - rewrite closed_drain, Hm. apply orb_false_r.
  - intros id. apply stopped_same_nodes. apply nodes_drain.
Qed.

Lemma torn_down_cleaned s c x :
  microtasks (world s) = [] ->
  socket (agenda s) = SocketOpen -> micPending (agenda s) = false ->
  sessionPromiseRef (refs s) = Some Fulfilled ->
  cleaned s c ->
  refs x = refs c -> nodes (world x) = nodes (world c) ->
  sessionClosed (world x) = sessionClosed (world c) ->
  microtasks (world x) = microtasks (world c) ->
  uncaught (world x) = uncaught (world c) ->
  socket (agenda x) = socket (agenda s) ->
  micPending (agenda x) = micPending (agenda s) ->
  Inv (drain x) ->
  torn_down (drain x) /\ uncaught (world (drain x)) = uncaught (world s).
Proof.
  intros HI Hsock Hmic Hp Hcl Hr Hn Hc Hm Hu Hs Hmi HIx.
  split.
  - split; [exact HIx|]. rewrite agenda_drain, refs_drain, Hs, Hmi, Hr.
    rewrite (cl_promise _ _ Hcl), Hp.
    split; [exact Hsock|]. split; [exact Hmic|]. split; [reflexivity|].
    apply (cleaned_released s c); auto. congruence.
  - rewrite uncaught_drain, Hu, Hm, (cl_uncaught _ _ Hcl), (cl_microtasks _ _ Hcl).
    rewrite HI, Hp. apply app_nil_r.
Qed.

Lemma torn_down_step e s s' :
  torn_down s -> step e s = Some s' ->
  torn_down s' /\ uncaught (world s') = uncaught (world s).
Proof.
  intros HT Hstep. pose proof HT as (HI & Hsock & Hmic & Hp & Hrel).
  pose proof (step_Inv e s s' HI Hstep) as HI'.
  destruct (inv_opening s (proj1 HI)) as [Htts Hopen]; [congruence|].
  assert (Hclosed : sessionClosed (world s) = true).
  { destruct Hrel as (_ & _ & _ & _ & _ & Hch).
    unfold channel_released in Hch. now rewrite Hp in Hch. }
  assert (Hext : forall x : Session,
            agenda x = agenda s ->
            mediaStreamRef (refs x) = mediaStreamRef (refs s) ->
            scriptProcessorRef (refs x) = scriptProcessorRef (refs s) ->
            audioContextRef (refs x) = audioContextRef (refs s) ->
            outputAudioContextRef (refs x) = outputAudioContextRef (refs s) ->
            sessionPromiseRef (refs x) = sessionPromiseRef (refs s) ->
            sessionClosed (world x) = sessionClosed (world s) ->
            microtasks (world x) = microtasks (world s) ->
            uncaught (world x) = uncaught (world s) ->
            (forall id, In id (outputSourcesRef (refs x)) ->
                        In id (outputSourcesRef (refs s))) ->
            (forall id, stopped s id -> stopped x id) ->
            Inv (drain x) ->
            torn_down (drain x) /\ uncaught (world (drain x)) = uncaught (world s)).
  { intros x Ha R1 R2 R3 R4 R5 Hc Hm Hu Hin Hst HIx. split.
    - split; [exact HIx|]. rewrite agenda_drain, refs_drain, Ha, R5.
      split; [exact Hsock|]. split; [exact Hmic|]. split; [exact Hp|].
      apply all_released_drain; [rewrite Hm; apply HI|].
      now apply (all_released_ext s).
    - rewrite uncaught_drain, Hm, (proj2 HI), Hu. apply app_nil_r. }
  step_cases e s Hstep; try congruence.
  - exfalso. destruct Hrel as (_ & _ & Hpr & _).
    unfold capturing, processor_released in *.
    destruct (scriptProcessorRef (refs s)) as [node|]; [|discriminate].
    rewrite Hpr in Ecap. destruct (audioContextRef (refs s)); discriminate.
  - rewrite (Hopen id n Ef Er) in Ec. discriminate.
  - cbn [task] in *. unfold onended in *.
    cbn [refs outputSourcesRef write_outputSourcesRef mark_ended update_node
         set_nodes on_refs on_world] in *.
    destruct (List.length (set_delete id (outputSourcesRef (refs s))) =? 0)%nat;
      apply Hext; simpl; auto;
      try (intros j Hj; apply in_set_delete in Hj; tauto);
      intros j; apply (stopped_ended id s j).
  - cbn [task] in *. apply Hext; auto.
  - destruct (endSession_effect s HI) as (c & Hc & Hret & _).
    rewrite Hret in *. cbn [task] in *.
    apply (torn_down_cleaned s c); auto; try apply HI;
      simpl; now rewrite (cl_agenda _ _ Hc).
  - assert (Hst : Forall (started (set_mounted false s))
                    (outputSourcesRef (refs (set_mounted false s)))).
    { eapply Forall_impl; [|exact (inv_started s (proj1 HI))].
      intros j. now apply started_same_nodes. }
    destruct (cleanUp_returns (set_mounted false s) Hst) as (c & Hret & Hc).
    rewrite Hret in *. cbn [task] in *.
    apply (torn_down_cleaned (set_mounted false s) c); auto; try apply HI;
      now rewrite (cl_agenda _ _ Hc).
Qed.

Lemma torn_down_run events : forall s s',
  torn_down s -> run events s = Some s' ->
  torn_down s' /\ uncaught (world s') = uncaught (world s).
Proof.
  induction events as [|e rest IH]; intros s s' HT Hrun; cbn [run] in Hrun.
  - injection Hrun as <-. auto.
  - destruct (step e s) as [s1|] eqn:E; [|discriminate].
    destruct (torn_down_step e s s1 HT E) as [H1 E1].
    destruct (IH s1 s' H1 Hrun) as [H2 E2]. split; [exact H2 | congruence].
Qed.

Lemma torn_down_endSession s :
  Inv s -> socket (agenda s) = SocketOpen -> micPending (agenda s) = false ->
  sessionPromiseRef (refs s) = Some Fulfilled ->
  torn_down (endSession s).
Proof.
  intros HI Hsock Hmic Hp.
  pose proof (endSession_Inv s HI) as HIe.
  destruct (endSession_effect s HI) as (c & Hcl & _ & Hend).
  split; [exact HIe|].
  assert (Hrel : all_released (endSession s))
    by (apply endSession_released; [exact HI | congruence]).
  rewrite Hend in *. rewrite agenda_drain, refs_drain. simpl.
  rewrite (cl_agenda _ _ Hcl), (cl_promise _ _ Hcl), Hp. auto.
Qed.

(** The claim fails on each count.  With the microphone granted and a
    source playing, the second teardown stops the track, disconnects the
    node, stops the source and closes the channel once more.  After a
    failed connection each teardown leaves an unhandled rejection.  While
    the connection is being made the close can only wait.  With the
    microphone request pending the handles are acquired after the
    teardown. *)
Lemma guarded_release_counterexample :
  ~ guarded_release_claim /\ ~ quiet_teardown_claim /\
  ~ lasting_release_claim /\
  (Reachable rejected_session /\
   uncaught (world rejected_session) = [] /\
   uncaught (world (endSession (endSession rejected_session))) =
     [ConnectError; ConnectError]) /\
  (Reachable connecting_session /\
   ~ channel_released (endSession (endSession connecting_session))) /\
  (Reachable awaiting_microphone /\
   exists s',
     run [MicSettled true] (endSession (endSession awaiting_microphone)) =
       Some s' /\
     capturing s' = true /\ ~ stream_released s').
Proof.
  assert (R1 : Reachable speaking_session).
  { exists [TtsSettled (ApiResponds (Some "AAAAAAAA"%string)); SourceEnded 0;
            SocketOpened; ConnectSettled true; MicSettled true;
            ServerMessage 1 (ModelAudioFrame "AAAAAAAA")].
    vm_compute. reflexivity. }
  assert (R2 : Reachable rejected_session).
  { exists [TtsSettled (ApiResponds None); ConnectSettled false].
    vm_compute. reflexivity. }
  assert (R3 : Reachable connecting_session).
  { exists [TtsSettled (ApiResponds None)]. vm_compute. reflexivity. }
  assert (R4 : Reachable awaiting_microphone).
  { exists [TtsSettled (ApiResponds None); SocketOpened].
    vm_compute. reflexivity. }
  assert (U : uncaught (world (endSession (endSession rejected_session))) =
              [ConnectError; ConnectError]) by (vm_compute; reflexivity).
  assert (L : exists s',
            run [MicSettled true] (endSession (endSession awaiting_microphone)) =
              Some s' /\
            capturing s' = true /\ ~ stream_released s').
  { eexists. split; [vm_compute; reflexivity|].
    split; [vm_compute; reflexivity|].
    intros H. vm_compute in H. inversion H as [|t l Ht _]. discriminate Ht. }
  split; [|split; [|split; [|split; [|split]]]].
  - intros H. destruct (H _ R1) as [_ E]. vm_compute in E. discriminate E.
  - intros H. specialize (H _ R2). rewrite U in H. vm_compute in H.
    discriminate H.
  - intros H. destruct L as (s' & Hrun & _ & Hs).
    apply Hs. now destruct (H awaiting_microphone _ s' R4 Hrun) as (_ & K & _).
  - split; [exact R2|]. split; [vm_compute; reflexivity | exact U].
  - split; [exact R3|]. intros H. vm_compute in H. exact H.
  - split; [exact R4 | exact L].
Qed.

(** Claim C5, amended.  Idempotent teardown.  From any reachable state in
    which the connection is made and the microphone request has settled,
    granted or refused, ending the session twice in a row returns both
    times, leaves nothing uncaught and no console error behind, and leaves
    every handle released after the first run and after the second: the
    active sources stopped, the tracks ended, the node disconnected, both
    contexts closed or never made, the channel closed.  They stay released,
    and nothing is left uncaught, whatever events follow.  A handle that
    was never acquired gets no call in either run; the second run closes
    no context, but it does repeat the stop of each track, the disconnect,
    the stop of each source and the close of the channel. *)
Theorem teardown_idempotent :
  forall s, Reachable s ->
    socket (agenda s) = SocketOpen ->
    micPending (agenda s) = false ->
    sessionPromiseRef (refs s) = Some Fulfilled ->
    (exists r, handleEndSession s = Returned r) /\
    (exists r, handleEndSession (endSession s) = Returned r) /\
    uncaught (world (endSession (endSession s))) = uncaught (world s) /\
    console (world (endSession (endSession s))) = console (world s) /\
    all_released (endSession s) /\
    all_released (endSession (endSession s)) /\
    (forall events s',
       run events (endSession (endSession s)) = Some s' ->
       all_released s' /\ uncaught (world s') = uncaught (world s)) /\
    released_by s (endSession s) = teardown_calls s /\
    released_by (endSession s) (endSession (endSession s)) =
      track_stops s ++ processor_disconnects s ++
      map SourceStop (outputSourcesRef (refs s)) ++ channel_closes s.
Proof.
  intros s R Hsock Hmic Hp. pose proof (Reachable_Inv s R) as HI.
  pose proof (endSession_Inv s HI) as HI1.
  pose proof (torn_down_endSession s HI Hsock Hmic Hp) as HT1.
  pose proof HT1 as (_ & Hsock1 & Hmic1 & Hp1 & Hrel1).
  pose proof (torn_down_endSession _ HI1 Hsock1 Hmic1 Hp1) as HT2.
  destruct (endSession_effect s HI) as (s' & Hcl & Hrun & Hend).
  destruct (endSession_effect _ HI1) as (s1' & _ & Hrun1 & _).
  destruct (endSession_quiet s HI) as [Hu Hc].
  destruct (endSession_quiet _ HI1) as [Hu1 Hc1].
  rewrite Hp, app_nil_r in Hu. rewrite Hp1, app_nil_r in Hu1.
  split; [eauto|]. split; [eauto|].
  split; [congruence|]. split; [congruence|].
  split; [exact Hrel1|].
  split; [apply HT2|].
  split.
  { intros events x Hx.
    destruct (torn_down_run events _ x HT2 Hx) as [HTx Hux].
    split; [apply HTx | congruence]. }
  split; [now apply endSession_releases|].
  rewrite (endSession_releases _ HI1).
  destruct (teardown_calls_again s s' Hcl) as (E1 & E2 & E3 & E4 & E5 & E6).
  unfold teardown_calls, track_stops, processor_disconnects, channel_closes
    in *.
  rewrite Hend, refs_drain. simpl.
  now rewrite E1, E2, E3, E4, E5, E6.
Qed.

Lemma teardown_idempotent_witness :
  uncaught (world (endSession (endSession refused_session))) =
    uncaught (world refused_session) /\
  all_released (endSession (endSession refused_session)) /\
  released_by refused_session (endSession refused_session) =
    [OutputContextClose; ChannelClose] /\
  released_by (endSession refused_session)
              (endSession (endSession refused_session)) = [ChannelClose].
Proof.
  assert (R : Reachable refused_session).
  { exists [TtsSettled (ApiResponds (Some "AAAAAAAA"%string)); SourceEnded 0;
            SocketOpened; ConnectSettled true; MicSettled false].
    vm_compute. reflexivity. }
  destruct (teardown_idempotent refused_session R)
    as (_ & _ & Hu & _ & _ & Hrel & _ & Hfirst & Hagain);
    try (vm_compute; reflexivity).
  split; [exact Hu|]. split; [exact Hrel|].
  split; [rewrite Hfirst | rewrite Hagain]; vm_compute; reflexivity.
Defined.

(** With the microphone granted and a source playing, the second run
    repeats four releases. *)
Example teardown_twice_while_speaking :
  released_by (endSession speaking_session)
              (endSession (endSession speaking_session)) =
    [TrackStop; ProcessorDisconnect; SourceStop 1; ChannelClose].
Proof. vm_compute. reflexivity. Qed.

(** A teardown while the connection is being made: when the connection
    then fails, the close that waited leaves an unhandled rejection. *)
Example close_waiting_on_failed_connection :
  option_map (fun s => uncaught (world s))
    (run [TtsSettled (ApiResponds None); EndSessionClicked;
          ConnectSettled false] init) =
  Some [ConnectError].
Proof. vm_compute. reflexivity. Qed.

End Ending.

(** ** The microphone is refused *)

Section Refused.

Lemma silenced_step e s s' : silenced s -> step e s = Some s' -> silenced s'.
Proof.
  intros (HI & Hnone & Hidle & Hsock) Hstep.
  split; [exact (step_Inv e s s' HI Hstep)|].
  destruct (inv_opening s (proj1 HI)) as [Htts Hopen]; [congruence|].
  destruct e as [api| |granted|ok|inputData|now m|id| | |];
    unfold step in Hstep.
  - rewrite Htts in Hstep. discriminate.
  - rewrite Hsock in Hstep. discriminate.
  - rewrite Hidle in Hstep. discriminate.
  - destruct (sessionPromiseRef (refs s)) as [[rs| |]|]; try discriminate.
    rewrite Hsock in Hstep. destruct ok; [|discriminate].
    injection Hstep as <-.
    rewrite ?refs_task, ?agenda_task, ?refs_drain, ?agenda_drain. simpl. auto.
  - unfold capturing in Hstep. rewrite Hnone in Hstep. discriminate.
  - rewrite Hsock in Hstep.
    destruct (sessionClosed (world s)); [discriminate|].
    injection Hstep as <-. rewrite refs_task, agenda_task.
    destruct (onmessage_effect now m s) as (Ha & Hp & _).
    rewrite Ha, Hp. auto.
  - destruct (find_node id s) as [n|] eqn:Ef; [|discriminate].
    destruct (can_end n) eqn:Ec; [|discriminate].
    destruct (role n) eqn:Er.
    + rewrite (Hopen id n Ef Er) in Ec. discriminate.
    + lazy iota beta in Hstep. injection Hstep as <-.
      rewrite ?refs_task, ?agenda_task, ?refs_drain, ?agenda_drain.
      unfold onended. simpl.
      destruct (List.length (set_delete id (outputSourcesRef (refs s))) =? 0)%nat;
        simpl; auto.
  - rewrite Hsock in Hstep. injection Hstep as <-.
    rewrite ?refs_task, ?agenda_task, ?refs_drain, ?agenda_drain. simpl. auto.
  - destruct (mounted (agenda s)); [|discriminate]. injection Hstep as <-.
    destruct (endSession_effect s HI) as (c & Hcl & _ & Hend).
    fold (endSession s). rewrite Hend, refs_drain, agenda_drain. simpl.
    rewrite (cl_processor _ _ Hcl), (cl_agenda _ _ Hcl), Hnone. auto.
  - destruct (mounted (agenda s)); [|discriminate]. injection Hstep as <-.
    assert (Hst : Forall (started (set_mounted false s))
                    (outputSourcesRef (refs (set_mounted false s)))).
    { eapply Forall_impl; [|exact (inv_started s (proj1 HI))].
      intros j. now apply started_same_nodes. }
    destruct (cleanUp_returns _ Hst) as (c & Hrun & Hcl).
    rewrite Hrun, refs_task, agenda_task. simpl.
    rewrite (cl_processor _ _ Hcl), (cl_agenda _ _ Hcl). simpl.
    rewrite Hnone. auto.
Qed.

Lemma silenced_run events : forall s s',
  silenced s -> run events s = Some s' -> silenced s'.
Proof.
  induction events as [|e rest IH]; intros s s' Hs Hrun; simpl in Hrun.
  - now injection Hrun as <-.
  - destruct (step e s) as [s1|] eqn:E; [|discriminate].
    apply (IH s1); [|exact Hrun]. now apply (silenced_step e s).
Qed.

(** Claim C8. Permission-denied safety.  In any reachable state where the
    microphone request is pending (the channel has opened; the status is
    Starting unless another event changed it), a refusal puts the status
    to Error and, whatever events follow, no frame is ever sent on the
    channel; a grant puts the status to Listening. *)
Theorem permission_denied_safety :
  forall s, Reachable s -> micPending (agenda s) = true ->
    (exists s1,
       step (MicSettled false) s = Some s1 /\
       status (view s1) = Error /\
       forall events s2, run events s1 = Some s2 -> sent (world s2) = []) /\
    (exists s1,
       step (MicSettled true) s = Some s1 /\
       status (view s1) = Listening).
Proof.
  intros s R Hpend. pose proof (Reachable_Inv s R) as HI.
  destruct (inv_mic s (proj1 HI) Hpend) as [Hsock Hnone].
  split.
  - exists (task (Returned (onopen false (set_micPending false s)))).
    split; [unfold step; now rewrite Hpend|].
    split; [rewrite view_task; reflexivity|].
    intros events s2 Hrun.
    assert (Hs : silenced (task (Returned (onopen false (set_micPending false s))))).
    { split; [now apply Inv_MicSettled|].
      rewrite refs_task, agenda_task. simpl. auto. }
    destruct (silenced_run events _ s2 Hs Hrun) as (HI2 & Hnone2 & _).
    now destruct (inv_quiet s2 (proj1 HI2) Hnone2).
  - exists (task (Returned (onopen true (set_micPending false s)))).
    split; [unfold step; now rewrite Hpend|].
    rewrite view_task. reflexivity.
Qed.

Lemma permission_denied_safety_witness :
  status (view awaiting_microphone) = Starting /\
  (exists s1,
     step (MicSettled false) awaiting_microphone = Some s1 /\
     status (view s1) = Error /\
     forall events s2, run events s1 = Some s2 -> sent (world s2) = []) /\
  (exists s1,
     step (MicSettled true) awaiting_microphone = Some s1 /\
     status (view s1) = Listening).
Proof.
  split; [vm_compute; reflexivity|].
  apply permission_denied_safety.
  - exists [TtsSettled (ApiResponds None); SocketOpened]. vm_compute. reflexivity.
  - vm_compute. reflexivity.
Defined.

End Refused.

(** * Further properties of the session *)

(** ** Trimming *)

Section Trim.

Lemma trimStart_split l :
  exists ws, l = ws ++ trimStart_chars l.
Proof.
  induction l as [|c l [ws IH]]; simpl.
  - now exists [].
  - destruct (isWhiteSpace c).
    + exists (c :: ws). simpl. now rewrite <- IH.
    + now exists [].
Qed.

Lemma trimStart_head l c r :
  trimStart_chars l = c :: r -> isWhiteSpace c = false.
Proof.
  induction l as [|x l IH]; simpl; [discriminate|].
  destruct (isWhiteSpace x) eqn:E; [exact IH|].
  intros H. injection H as <- _. exact E.
Qed.

Lemma trimStart_fixed c r :
  isWhiteSpace c = false -> trimStart_chars (c :: r) = c :: r.
Proof. intros E. simpl. now rewrite E. Qed.

Lemma trimStart_idem l : trimStart_chars (trimStart_chars l) = trimStart_chars l.
Proof.
  destruct (trimStart_chars l) as [|c r] eqn:E; [reflexivity|].
  apply trimStart_fixed. exact (trimStart_head l c r E).
Qed.

(** What is left after trimming both ends has no white space at its
    start. *)
Lemma trimStart_trimmed l :
  trimStart_chars (rev (trimStart_chars (rev (trimStart_chars l)))) =
  rev (trimStart_chars (rev (trimStart_chars l))).
Proof.
  destruct (trimStart_split (rev (trimStart_chars l))) as [ws Hws].
  destruct (rev (trimStart_chars (rev (trimStart_chars l)))) as [|c r] eqn:Ey;
    [reflexivity|].
  apply trimStart_fixed.
  assert (Hz : trimStart_chars l = (c :: r) ++ rev ws).
  { rewrite <- Ey, <- rev_app_distr, <- Hws. now rewrite rev_involutive. }
  exact (trimStart_head l c _ Hz).
Qed.

Lemma trim_idem s : trim (trim s) = trim s.
Proof.
  unfold trim. rewrite list_ascii_of_string_of_list_ascii. f_equal.
  rewrite (trimStart_trimmed (list_ascii_of_string s)).
  set (y := trimStart_chars (rev (trimStart_chars (list_ascii_of_string s)))).
  rewrite rev_involutive. unfold y. now rewrite trimStart_idem.
Qed.

(** A string that neither starts nor ends with white space is its own
    trimming. *)
Lemma trim_chars_fixed c l d :
  isWhiteSpace c = false -> isWhiteSpace d = false ->
  rev (trimStart_chars (rev (trimStart_chars (c :: l ++ [d])))) = c :: l ++ [d].
Proof.
  intros Hc Hd. rewrite (trimStart_fixed c _ Hc).
  assert (H : rev (c :: l ++ [d]) = d :: rev l ++ [c]).
  { simpl. now rewrite rev_app_distr. }
  rewrite H, (trimStart_fixed d _ Hd), <- H. apply rev_involutive.
Qed.

Lemma truthy_not_empty s : truthy s = true <-> s <> ""%string.
Proof. destruct s; simpl; split; congruence. Qed.

Lemma entry_if_ok who said : Forall entry_ok (entry_if who said).
Proof.
  unfold entry_if. destruct (truthy (trim said)) eqn:E; constructor; [|constructor].
  split; simpl; [now apply truthy_not_empty | apply trim_idem].
Qed.

End Trim.

(** ** What [onmessage] does to the words and to the status *)

Section Display.

Local Open Scope string_scope.

Lemma onmessage_words now m s :
  let s' := final (onmessage now m s) in
  let user := currentUserInputRef (refs s) ++ heard m in
  let model := currentJudgeOutputRef (refs s) ++ spoken m in
  transcripts (view s') =
    (transcripts (view s) ++
     if turnComplete m then entry_if You user ++ entry_if Judge model else [])%list /\
  currentUserInputRef (refs s') = (if turnComplete m then "" else user) /\
  currentJudgeOutputRef (refs s') = (if turnComplete m then "" else model) /\
  (currentUserInput (view s') = currentUserInputRef (refs s') \/
   inputTranscription m = None /\ turnComplete m = false /\
   currentUserInput (view s') = currentUserInput (view s)) /\
  (currentJudgeOutput (view s') = currentJudgeOutputRef (refs s') \/
   outputTranscription m = None /\ turnComplete m = false /\
   currentJudgeOutput (view s') = currentJudgeOutput (view s)) /\
  error (view s') = error (view s) /\
  (status (view s') = status (view s) \/ status (view s') = Speaking).
Proof.
  destruct m as [[ti|] [to|] [|] [audio|]]; unfold onmessage, heard, spoken;
    cbn [inputTranscription outputTranscription turnComplete inlineData];
    cbv zeta;
    try destruct (truthy audio);
    unfold onModelAudio, onModelAudio_begin, onModelAudio_resume; simpl;
    try (destruct (outputAudioContextRef (refs s)); simpl);
    try (destruct (decodeFrame audio); simpl);
    rewrite ?push_if_entry, ?append_nil_r, ?app_nil_r, <- ?app_assoc;
    repeat split; auto.
Qed.

Lemma Shown_ext s s' :
  view s' = view s ->
  currentUserInputRef (refs s') = currentUserInputRef (refs s) ->
  currentJudgeOutputRef (refs s') = currentJudgeOutputRef (refs s) ->
  Shown s -> Shown s'.
Proof.
  intros Hv Hu Hj [H1 H2 H3 H4 H5].
  constructor; rewrite ?Hv, ?Hu, ?Hj; assumption.
Qed.

Lemma Shown_task o : Shown (final o) -> Shown (task o).
Proof. apply Shown_ext; now rewrite ?view_task, ?refs_task. Qed.

Lemma Shown_drain s : Shown s -> Shown (drain s).
Proof. apply Shown_ext; now rewrite ?view_drain, ?refs_drain. Qed.

Lemma Shown_onmessage now m s : Shown s -> Shown (final (onmessage now m s)).
Proof.
  intros [H1 H2 H3 H4 H5].
  destruct (onmessage_words now m s) as (Ht & Hu & Hj & Hcu & Hcj & He & Hs).
  constructor.
  - destruct Hs as [-> | ->]; [exact H1 | discriminate].
  - rewrite He. destruct Hs as [-> | ->]; [exact H2 | discriminate].
  - destruct Hcu as [E | (E1 & E2 & E3)]; [exact E|].
    rewrite E3, Hu, E2, H3. unfold heard. rewrite E1. now rewrite append_nil_r.
  - destruct Hcj as [E | (E1 & E2 & E3)]; [exact E|].
    rewrite E3, Hj, E2, H4. unfold spoken. rewrite E1. now rewrite append_nil_r.
  - rewrite Ht. apply Forall_app. split; [exact H5|].
    destruct (turnComplete m); [|constructor].
    apply Forall_app. split; apply entry_if_ok.
Qed.

End Display.

(** ** What one event can change *)

Section Steps.

Lemma schedule_updated id (f : SourceNode -> SourceNode) s s' :
  (forall n, role (f n) = role n /\ startedAt (f n) = startedAt n /\
             buffer (f n) = buffer n) ->
  nodes (world s') = update_at id f (nodes (world s)) ->
  schedule s' = schedule s.
Proof.
  intros Hf Hn. unfold schedule. rewrite Hn. clear Hn.
  revert id. induction (nodes (world s)) as [|x l IH]; intros [|i]; simpl; auto.
  - destruct (Hf x) as (-> & -> & ->). reflexivity.
  - now rewrite IH.
Qed.

Lemma schedule_same_nodes s s' :
  nodes (world s') = nodes (world s) -> schedule s' = schedule s.
Proof. intros Hn. unfold schedule. now rewrite Hn. Qed.


(** A call of [stop], whether it returns or throws. *)
Lemma source_stop_final id s :
  let s' := final (source_stop id s) in
  view s' = view s /\ refs s' = refs s /\ agenda s' = agenda s /\
  map core (nodes (world s')) = map core (nodes (world s)) /\
  schedule s' = schedule s /\ sent (world s') = sent (world s) /\
  microtasks (world s') = microtasks (world s).
Proof.
  unfold source_stop. destruct (find_node id s) as [n|];
    [|cbn [final]; repeat split; auto].
  destruct (startedAt n); cbn [final]; [|repeat split; auto].
  repeat split; try reflexivity.
  - simpl. now apply map_core_update_at.
  - eapply (schedule_updated id); [|reflexivity]. intros m. simpl. auto.
Qed.

Lemma stop_each_final ids : forall s,
  let s' := final (stop_each ids s) in
  view s' = view s /\ refs s' = refs s /\ agenda s' = agenda s /\
  map core (nodes (world s')) = map core (nodes (world s)) /\
  schedule s' = schedule s /\ sent (world s') = sent (world s) /\
  microtasks (world s') = microtasks (world s).
Proof.
  induction ids as [|id ids IH]; intros s; cbn [stop_each].
  - cbn [final]. repeat split; auto.
  - destruct (source_stop_final id s) as (H1 & H2 & H3 & H4 & H5 & H6 & H7).
    destruct (source_stop id s) as [s1|e s1]; cbn [bind final] in *.
    + destruct (IH s1) as (K1 & K2 & K3 & K4 & K5 & K6 & K7).
      repeat split; congruence.
    + repeat split; auto.
Qed.

(** What [cleanUp] leaves alone, whether it returns or throws. *)
Lemma cleanUp_final s :
  let c := final (cleanUp s) in
  view c = view s /\ agenda c = agenda s /\
  currentUserInputRef (refs c) = currentUserInputRef (refs s) /\
  currentJudgeOutputRef (refs c) = currentJudgeOutputRef (refs s) /\
  nextStartTimeRef (refs c) = nextStartTimeRef (refs s) /\
  outputSourcesRef (refs c) = outputSourcesRef (refs s) /\
  map core (nodes (world c)) = map core (nodes (world s)) /\
  schedule c = schedule s /\
  (outputAudioContextRef (refs s) = None ->
   outputAudioContextRef (refs c) = None).
Proof.
  unfold cleanUp.
  rewrite close_input_eq, disconnect_processor_eq, stop_tracks_eq, then_eq.
  match goal with
  | |- context [stop_each ?ids ?s4'] => set (s4 := s4')
  end.
  simpl outputSourcesRef.
  destruct (stop_each_final (outputSourcesRef (refs s)) s4)
    as (H1 & H2 & H3 & H4 & H5 & _).
  destruct (stop_each (outputSourcesRef (refs s)) s4) as [s5|e s5];
    cbn [bind final] in *.
  - rewrite close_output_eq.
    assert (K : schedule
      (set_releases
        (releases (world s5) ++
         context_closes (outputAudioContextRef (refs s5)) OutputContextClose)
        (write_outputAudioContextRef
           (option_map close_context (outputAudioContextRef (refs s5))) s5))
      = schedule s5) by (apply schedule_same_nodes; reflexivity).
    rewrite K. simpl. rewrite H1, H2, H3, H4, H5. subst s4.
    repeat split; try reflexivity. simpl. now intros ->.
  - rewrite H1, H2, H3, H4, H5. subst s4. repeat split; try reflexivity.
    simpl. auto.
Qed.

Lemma handleEndSession_final s :
  final (handleEndSession s) = final (cleanUp s) \/
  final (handleEndSession s) =
    set_timers (S (timers (world (final (cleanUp s)))))
      (setStatus Ended (final (cleanUp s))).
Proof.
  unfold handleEndSession. destruct (cleanUp s); cbn [bind final]; auto.
Qed.

(** Where [playOpeningStatement] leaves the nodes and the references the
    playback reads. *)
Lemma playOpeningStatement_nodes api s :
  let s' := playOpeningStatement api s in
  outputSourcesRef (refs s') = outputSourcesRef (refs s) /\
  nextStartTimeRef (refs s') = nextStartTimeRef (refs s) /\
  currentUserInputRef (refs s') = currentUserInputRef (refs s) /\
  currentJudgeOutputRef (refs s') = currentJudgeOutputRef (refs s) /\
  (nodes (world s') = nodes (world s) \/
   exists b,
     nodes (world s') =
       nodes (world s) ++ [mkSourceNode OpeningSource b (Some 0%float) false false]).
Proof.
  unfold playOpeningStatement.
  destruct (getTextToSpeech api) as [e|[audioData|]]; simpl; auto 6.
  destruct (truthy audioData); simpl; auto 6.
  destruct (outputAudioContextRef (refs s)), (decodeFrame audioData); simpl;
    rewrite ?update_at_last; simpl; eauto 7.
Qed.

End Steps.

(** ** The screen *)

Section Screen.

Local Open Scope string_scope.

Lemma Shown_init : Shown init.
Proof. constructor; simpl; auto; discriminate. Qed.

Lemma Shown_playOpeningStatement api s :
  Shown s -> Shown (playOpeningStatement api s).
Proof.
  intros [H1 H2 H3 H4 H5]. unfold playOpeningStatement.
  destruct (getTextToSpeech api) as [e|[audioData|]];
    [constructor; simpl; auto; discriminate
    | | constructor; simpl; auto; discriminate].
  destruct (truthy audioData); [|constructor; simpl; auto; discriminate].
  destruct (outputAudioContextRef (refs s)), (decodeFrame audioData);
    constructor; simpl; auto; discriminate.
Qed.

Lemma Shown_cleanUp s : Shown s -> Shown (final (cleanUp s)).
Proof.
  destruct (cleanUp_final s) as (Hv & _ & Hu & Hj & _).
  now apply Shown_ext.
Qed.

Lemma Shown_step e s s' : Shown s -> step e s = Some s' -> Shown s'.
Proof.
  intros HS Hstep. step_cases e s Hstep;
    try (first [apply Shown_drain | apply Shown_task; cbn [final]]).
  - apply Shown_playOpeningStatement. revert HS. now apply Shown_ext.
  - revert HS. now apply Shown_ext.
  - destruct HS as [H1 H2 H3 H4 H5].
    destruct granted; constructor; simpl; auto; discriminate.
  - destruct HS as [H1 H2 H3 H4 H5]. constructor; simpl; auto; discriminate.
  - revert HS. now apply Shown_ext.
  - revert HS. unfold onaudioprocess. rewrite then_eq. now apply Shown_ext.
  - now apply Shown_onmessage.
  - destruct HS as [H1 H2 H3 H4 H5]. constructor; simpl; auto; discriminate.
  - destruct HS as [H1 H2 H3 H4 H5]. unfold onended. simpl.
    destruct (List.length (set_delete id (outputSourcesRef (refs s))) =? 0)%nat;
      constructor; simpl; auto; discriminate.
  - destruct HS as [H1 H2 H3 H4 H5]. constructor; simpl; auto; discriminate.
  - destruct HS as [H1 H2 H3 H4 H5]. constructor; simpl; auto; discriminate.
  - pose proof (Shown_cleanUp s HS) as [H1 H2 H3 H4 H5].
    destruct (handleEndSession_final s) as [-> | ->];
      constructor; simpl; auto; discriminate.
  - apply Shown_cleanUp. revert HS. now apply Shown_ext.
Qed.

Lemma Shown_run events : forall s s',
  Shown s -> run events s = Some s' -> Shown s'.
Proof.
  induction events as [|e rest IH]; intros s s' HS Hrun; simpl in Hrun.
  - now injection Hrun as <-.
  - destruct (step e s) as [s1|] eqn:E; [|discriminate].
    apply (IH s1); [|exact Hrun]. now apply (Shown_step e s).
Qed.

Lemma Shown_reachable s : Reachable s -> Shown s.
Proof. intros [events Hrun]. exact (Shown_run events init s Shown_init Hrun). Qed.

End Screen.

Section ScreenProperties.

Local Open Scope string_scope.

(** Property X1.  The status indicator always has a caption: in every
    state the session can reach the status is one of the six the indicator
    has a case for, never 'active', so the caption is not empty. *)
Theorem status_caption_always_shown :
  forall s, Reachable s ->
    status (view s) <> Active /\
    indicator_text (indicator (render s)) <> "".
Proof.
  intros s R. destruct (Shown_reachable s R) as [H1 _ _ _ _].
  split; [exact H1|]. unfold render. cbn [indicator].
  destruct (status (view s)); try discriminate. contradiction.
Qed.

Lemma status_caption_always_shown_witness :
  status (view speaking_session) <> Active /\
  indicator_text (indicator (render speaking_session)) <> "".
Proof.
  apply status_caption_always_shown.
  exists [TtsSettled (ApiResponds (Some "AAAAAAAA")); SourceEnded 0;
          SocketOpened; ConnectSettled true; MicSettled true;
          ServerMessage 1 (ModelAudioFrame "AAAAAAAA")].
  vm_compute. reflexivity.
Defined.

(** Property X2.  The error line is shown exactly in the error status,
    and then it carries a message: no reachable state shows an empty
    error. *)
Theorem error_line_never_blank :
  forall s, Reachable s ->
    (error_line (render s) <> None <-> status (view s) = Error) /\
    forall msg, error_line (render s) = Some msg -> msg <> "".
Proof.
  intros s R. destruct (Shown_reachable s R) as [_ H2 _ _ _].
  unfold render. cbn [error_line].
  destruct (status (view s)) eqn:E; split;
    try (split; [intros H; now contradiction H | discriminate]);
    try discriminate.
  - split; [reflexivity | discriminate].
  - intros msg H. injection H as <-. now apply H2.
Qed.

Lemma error_line_never_blank_witness :
  (error_line (render errored_while_speaking) <> None <->
   status (view errored_while_speaking) = Error) /\
  forall msg, error_line (render errored_while_speaking) = Some msg -> msg <> "".
Proof.
  apply error_line_never_blank.
  exists [TtsSettled (ApiResponds (Some "AAAAAAAA")); SourceEnded 0;
          SocketOpened; ConnectSettled true; MicSettled true;
          ServerMessage 1 (ModelAudioFrame "AAAAAAAA"); TransportError].
  vm_compute. reflexivity.
Defined.



(** Property X4.  Every entry of the transcript log on the screen is
    trimmed and not empty, in every reachable state. *)
Theorem committed_entries_trimmed :
  forall s, Reachable s ->
    forall t, In t (entries (render s)) ->
      text t <> "" /\ trim (text t) = text t.
Proof.
  intros s R t Hin. destruct (Shown_reachable s R) as [_ _ _ _ H5].
  rewrite Forall_forall in H5. exact (H5 t Hin).
Qed.

Lemma committed_entries_trimmed_witness :
  text (mkTranscript You "I object.") <> "" /\
  trim (text (mkTranscript You "I object.")) = text (mkTranscript You "I object.").
Proof.
  apply (committed_entries_trimmed
           (after [TtsSettled (ApiResponds None); SocketOpened;
                   ServerMessage 0 (PartialUserTranscript " I object. ");
                   ServerMessage 0 TurnComplete])).
  - exists [TtsSettled (ApiResponds None); SocketOpened;
            ServerMessage 0 (PartialUserTranscript " I object. ");
            ServerMessage 0 TurnComplete].
    vm_compute. reflexivity.
  - vm_compute. left. reflexivity.
Defined.

Lemma step_transcripts e s s' :
  step e s = Some s' ->
  exists more,
    transcripts (view s') = (transcripts (view s) ++ more)%list /\
    (List.length more <= 2)%nat.
Proof.
  intros Hstep.
  assert (Hnil : forall x : Session,
            transcripts (view x) = transcripts (view s) ->
            exists more,
              transcripts (view x) = (transcripts (view s) ++ more)%list /\
              (List.length more <= 2)%nat).
  { intros x Hx. exists []. rewrite app_nil_r. split; [exact Hx | simpl; lia]. }
  step_cases e s Hstep; rewrite ?view_task, ?view_drain; cbn [final].
  - apply Hnil. unfold playOpeningStatement.
    destruct (getTextToSpeech api) as [e|[a|]]; try reflexivity.
    destruct (truthy a); try reflexivity.
    destruct (outputAudioContextRef (refs (set_ttsPending false s))),
             (decodeFrame a); reflexivity.
  - now apply Hnil.
  - apply Hnil. now destruct granted.
  - now apply Hnil.
  - now apply Hnil.
  - apply Hnil. unfold onaudioprocess. now rewrite then_eq.
  - destruct (onmessage_words now m s) as (Ht & _).
    eexists. split; [exact Ht|].
    destruct (turnComplete m); [|simpl; lia].
    rewrite length_app.
    pose proof (entry_if_length You (currentUserInputRef (refs s) ++ heard m)).
    pose proof (entry_if_length Judge (currentJudgeOutputRef (refs s) ++ spoken m)).
    lia.
  - now apply Hnil.
  - apply Hnil. unfold onended. simpl.
    now destruct (List.length (set_delete id (outputSourcesRef (refs s))) =? 0)%nat.
  - now apply Hnil.
  - now apply Hnil.
  - apply Hnil. destruct (cleanUp_final s) as (Hv & _).
    destruct (handleEndSession_final s) as [-> | ->]; simpl; now rewrite Hv.
  - apply Hnil. destruct (cleanUp_final (set_mounted false s)) as (Hv & _).
    now rewrite Hv.
Qed.

(** Property X5.  The transcript log is append-only: whatever events
    happen, from any state, the log afterwards is the log before followed
    by new entries, at most two for each event. *)
Theorem transcript_append_only :
  forall events s s', run events s = Some s' ->
    exists more,
      transcripts (view s') = (transcripts (view s) ++ more)%list /\
      (List.length more <= 2 * List.length events)%nat.
Proof.
  induction events as [|e rest IH]; intros s s' Hrun; simpl in Hrun.
  - injection Hrun as <-. exists []. rewrite app_nil_r. split; [reflexivity|].
    simpl. lia.
  - destruct (step e s) as [s1|] eqn:E; [|discriminate].
    destruct (step_transcripts e s s1 E) as (m1 & H1 & L1).
    destruct (IH s1 s' Hrun) as (m2 & H2 & L2).
    exists (m1 ++ m2)%list. rewrite H2, H1, <- app_assoc. split; [reflexivity|].
    rewrite length_app. simpl List.length. lia.
Qed.

Lemma transcript_append_only_witness :
  exists more,
    transcripts (view (after [TtsSettled (ApiResponds None); SocketOpened;
                              ServerMessage 0 (PartialUserTranscript "I object.");
                              ServerMessage 0 TurnComplete])) =
      (transcripts (view init) ++ more)%list /\
    (List.length more <=
     2 * List.length [TtsSettled (ApiResponds None); SocketOpened;
                      ServerMessage 0 (PartialUserTranscript "I object.");
                      ServerMessage 0 TurnComplete])%nat.
Proof.
  apply transcript_append_only. vm_compute. reflexivity.
Defined.

(** Property X6.  A message that completes the turn commits everything it
    carries: the transcription text of the same message is appended to the
    accumulators before the commit, so the log gains the trimmed user text
    and then the trimmed judge text including it, and the accumulators and
    partial lines are empty afterwards, whether or not the audio part of
    the message throws. *)
Theorem turn_complete_commits_whole_message :
  forall now m s, turnComplete m = true ->
    let s' := task (onmessage now m s) in
    transcripts (view s') =
      (transcripts (view s) ++
       entry_if You (currentUserInputRef (refs s) ++ heard m) ++
       entry_if Judge (currentJudgeOutputRef (refs s) ++ spoken m))%list /\
    currentUserInputRef (refs s') = "" /\
    currentJudgeOutputRef (refs s') = "" /\
    currentUserInput (view s') = "" /\
    currentJudgeOutput (view s') = "".
Proof.
  intros now m s Htc s'. subst s'. rewrite view_task, refs_task.
  destruct (onmessage_words now m s) as (Ht & Hu & Hj & Hcu & Hcj & _).
  rewrite Htc in *.
  repeat split; auto.
  - destruct Hcu as [E | (_ & E & _)]; [congruence | discriminate].
  - destruct Hcj as [E | (_ & E & _)]; [congruence | discriminate].
Qed.

Lemma turn_complete_commits_whole_message_witness :
  let m := mkMessage (Some "I object.") None true (Some "!") in
  let s' := task (onmessage 0 m mid_turn) in
  transcripts (view s') =
    (transcripts (view mid_turn) ++
     entry_if You (currentUserInputRef (refs mid_turn) ++ heard m) ++
     entry_if Judge (currentJudgeOutputRef (refs mid_turn) ++ spoken m))%list /\
  currentUserInputRef (refs s') = "" /\
  currentJudgeOutputRef (refs s') = "" /\
  currentUserInput (view s') = "" /\
  currentJudgeOutput (view s') = "".
Proof.
  exact (turn_complete_commits_whole_message 0
           (mkMessage (Some "I object.") None true (Some "!")) mid_turn eq_refl).
Defined.

End ScreenProperties.

(** ** The active set and the audio graph *)

Section Playing.

Lemma in_set_add_iff x l y : In y (set_add x l) <-> y = x \/ In y l.
Proof.
  split; [apply in_set_add|]. unfold set_add.
  destruct (existsb (Nat.eqb x) l) eqn:E; intros [->|H]; auto.
  - apply existsb_exists in E. destruct E as (z & Hz & Ez).
    apply Nat.eqb_eq in Ez. now subst.
  - apply in_or_app. right. now left.
  - apply in_or_app. now left.
Qed.

Lemma NoDup_snoc (x : nat) l : NoDup l -> ~ In x l -> NoDup (l ++ [x]).
Proof.
  induction 1 as [|y l Hy Hl IH]; intros Hx; simpl.
  - constructor; [intros []|constructor].
  - constructor.
    + intros H. apply in_app_or in H. destruct H as [H|[H|[]]]; [auto|].
      subst. apply Hx. now left.
    + apply IH. intros H. apply Hx. now right.
Qed.

Lemma NoDup_set_add x l : NoDup l -> NoDup (set_add x l).
Proof.
  intros H. unfold set_add. destruct (existsb (Nat.eqb x) l) eqn:E; [exact H|].
  apply NoDup_snoc; [exact H|]. intros Hin.
  assert (K : existsb (Nat.eqb x) l = true)
    by (apply existsb_exists; exists x; split; [exact Hin | apply Nat.eqb_refl]).
  congruence.
Qed.

Lemma NoDup_set_delete x l : NoDup l -> NoDup (set_delete x l).
Proof. apply NoDup_filter. Qed.

Lemma in_set_delete_iff x l y : In y (set_delete x l) <-> In y l /\ y <> x.
Proof.
  split; [apply in_set_delete|]. intros [H E]. now apply set_delete_in.
Qed.

Lemma Tracked_init : Tracked init.
Proof.
  constructor; simpl; [constructor|]. intros id. split; [intros []|].
  intros (n & Hf & _). unfold find_node in Hf. simpl in Hf.
  destruct id; discriminate.
Qed.

Lemma playing_cores s s' id :
  map core (nodes (world s')) = map core (nodes (world s)) ->
  playing s id -> playing s' id.
Proof.
  intros Hc (n & Hf & Hr & He). unfold playing, find_node in *.
  destruct (core_lookup _ _ id n (eq_sym Hc) Hf) as (n' & Hf' & Hcore).
  exists n'. split; [exact Hf'|].
  rewrite (role_core _ _ Hcore), (can_end_core _ _ Hcore). auto.
Qed.

Lemma Tracked_ext s s' :
  outputSourcesRef (refs s') = outputSourcesRef (refs s) ->
  map core (nodes (world s')) = map core (nodes (world s)) ->
  Tracked s -> Tracked s'.
Proof.
  intros Ha Hc [Hnd Hpl]. constructor; rewrite Ha; [exact Hnd|].
  intros id. rewrite Hpl. split; apply playing_cores; auto.
Qed.

Lemma Tracked_same s s' :
  outputSourcesRef (refs s') = outputSourcesRef (refs s) ->
  nodes (world s') = nodes (world s) ->
  Tracked s -> Tracked s'.
Proof. intros Ha Hn. apply Tracked_ext; [exact Ha | now rewrite Hn]. Qed.

Lemma Tracked_task o : Tracked (final o) -> Tracked (task o).
Proof. apply Tracked_same; now rewrite ?refs_task, ?nodes_task. Qed.

Lemma Tracked_drain s : Tracked s -> Tracked (drain s).
Proof. apply Tracked_same; now rewrite ?refs_drain, ?nodes_drain. Qed.

Lemma Tracked_opening s s' n0 :
  outputSourcesRef (refs s') = outputSourcesRef (refs s) ->
  nodes (world s') = nodes (world s) ++ [n0] ->
  role n0 = OpeningSource ->
  Tracked s -> Tracked s'.
Proof.
  intros Ha Hn Hr [Hnd Hpl]. constructor; rewrite Ha; [exact Hnd|].
  intros id. rewrite Hpl. unfold playing, find_node. rewrite Hn. split.
  - intros (n & Hf & Hrole & He). exists n. split; [|auto].
    now apply nth_error_snoc_old.
  - intros (n & Hf & Hrole & He). apply nth_error_snoc in Hf.
    destruct Hf as [Hf|[_ ->]]; [eauto | congruence].
Qed.

Lemma Tracked_frame s s' b t :
  outputSourcesRef (refs s') =
    set_add (List.length (nodes (world s))) (outputSourcesRef (refs s)) ->
  nodes (world s') =
    nodes (world s) ++ [mkSourceNode FrameSource b (Some t) false false] ->
  Tracked s -> Tracked s'.
Proof.
  intros Ha Hn [Hnd Hpl]. constructor; rewrite Ha; [now apply NoDup_set_add|].
  intros id. rewrite in_set_add_iff, Hpl. unfold playing, find_node.
  rewrite Hn. split.
  - intros [-> | (n & Hf & Hrole & He)].
    + eexists. split; [apply nth_error_snoc_new|]. split; reflexivity.
    + exists n. split; [|auto]. now apply nth_error_snoc_old.
  - intros (n & Hf & Hrole & He). apply nth_error_snoc in Hf.
    destruct Hf as [Hf|[-> _]]; [right; eauto | now left].
Qed.

Lemma Tracked_frame_ended s s' id :
  outputSourcesRef (refs s') = set_delete id (outputSourcesRef (refs s)) ->
  nodes (world s') = update_at id ended (nodes (world s)) ->
  Tracked s -> Tracked s'.
Proof.
  intros Ha Hn [Hnd Hpl]. constructor; rewrite Ha; [now apply NoDup_set_delete|].
  intros j. rewrite in_set_delete_iff, Hpl. unfold playing, find_node.
  rewrite Hn. split.
  - intros [(n & Hf & Hrole & He) Hne]. exists n.
    rewrite nth_error_update_at.
    destruct (Nat.eqb id j) eqn:E; [apply Nat.eqb_eq in E; congruence|]. auto.
  - intros (n' & Hf & Hrole & He). apply nth_error_updated in Hf.
    destruct Hf as (n & Hf & [[Hne ->] | [-> ->]]).
    + split; [eauto | exact Hne].
    + unfold can_end, ended in He. simpl in He.
      destruct (startedAt n); discriminate.
Qed.

Lemma Tracked_opening_ended s s' id n :
  find_node id s = Some n -> role n = OpeningSource ->
  outputSourcesRef (refs s') = outputSourcesRef (refs s) ->
  nodes (world s') = update_at id ended (nodes (world s)) ->
  Tracked s -> Tracked s'.
Proof.
  intros Hid Hr Ha Hn [Hnd Hpl]. constructor; rewrite Ha; [exact Hnd|].
  intros j. rewrite Hpl. unfold playing, find_node in *. rewrite Hn. split.
  - intros (m & Hf & Hrole & He). exists m.
    rewrite nth_error_update_at.
    destruct (Nat.eqb id j) eqn:E; [apply Nat.eqb_eq in E; congruence|]. auto.
  - intros (n' & Hf & Hrole & He). apply nth_error_updated in Hf.
    destruct Hf as (m & Hf & [[Hne ->] | [-> ->]]); [eauto|].
    unfold ended in Hrole. simpl in Hrole. congruence.
Qed.

Lemma Tracked_cleanUp s : Tracked s -> Tracked (final (cleanUp s)).
Proof.
  destruct (cleanUp_final s) as (_ & _ & _ & _ & _ & Ha & Hc & _).
  now apply Tracked_ext.
Qed.

Lemma Tracked_step e s s' : Tracked s -> step e s = Some s' -> Tracked s'.
Proof.
  intros HT Hstep. step_cases e s Hstep;
    try (first [apply Tracked_drain | apply Tracked_task; cbn [final]]).
  - destruct (playOpeningStatement_nodes api (set_ttsPending false s))
      as (Ha & _ & _ & _ & [Hn | (b & Hn)]).
    + revert HT. now apply Tracked_same.
    + revert HT. eapply Tracked_opening; [exact Ha | exact Hn | reflexivity].
  - revert HT. now apply Tracked_same.
  - revert HT. apply Tracked_same; now destruct granted.
  - revert HT. now apply Tracked_same.
  - revert HT. now apply Tracked_same.
  - revert HT. unfold onaudioprocess. rewrite then_eq. now apply Tracked_same.
  - destruct (onmessage_effect now m s)
      as (_ & _ & _ & _ & _ & _ & [[Hn Ha] | (b & t & Hn & Ha)]).
    + revert HT. now apply Tracked_same.
    + revert HT. now apply (Tracked_frame s _ b t).
  - revert HT. now apply (Tracked_opening_ended s _ id n).
  - assert (K : Tracked (mark_ended id
                  (write_outputSourcesRef
                     (set_delete id (outputSourcesRef (refs s))) s)))
      by (revert HT; now apply (Tracked_frame_ended s _ id)).
    revert K. apply Tracked_same; unfold onended; simpl;
      now destruct (List.length (set_delete id (outputSourcesRef (refs s))) =? 0)%nat.
  - revert HT. now apply Tracked_same.
  - revert HT. now apply Tracked_same.
  - pose proof (Tracked_cleanUp s HT) as K. revert K.
    destruct (handleEndSession_final s) as [-> | ->]; [auto|].
    now apply Tracked_same.
  - apply Tracked_cleanUp. revert HT. now apply Tracked_same.
Qed.

Lemma Tracked_run events : forall s s',
  Tracked s -> run events s = Some s' -> Tracked s'.
Proof.
  induction events as [|e rest IH]; intros s s' HS Hrun; simpl in Hrun.
  - now injection Hrun as <-.
  - destruct (step e s) as [s1|] eqn:E; [|discriminate].
    apply (IH s1); [|exact Hrun]. now apply (Tracked_step e s).
Qed.

Lemma Tracked_reachable s : Reachable s -> Tracked s.
Proof. intros [events Hrun]. exact (Tracked_run events init s Tracked_init Hrun). Qed.

(** Property X7.  The active set is the set of frame sources that are
    playing: in every reachable state it holds, once each, exactly the
    sources made for a frame of the judge that were started and have not
    fired 'ended'. *)
Theorem active_set_is_playing_frames :
  forall s, Reachable s ->
    NoDup (outputSourcesRef (refs s)) /\
    forall id, In id (outputSourcesRef (refs s)) <->
      exists n, find_node id s = Some n /\ role n = FrameSource /\
                startedAt n <> None /\ hasEnded n = false.
Proof.
  intros s R. destruct (Tracked_reachable s R) as [Hnd Hpl].
  split; [exact Hnd|]. intros id. rewrite Hpl. unfold playing, can_end.
  split; intros (n & Hf & Hr & He); exists n; (split; [exact Hf|]);
    (split; [exact Hr|]).
  - destruct (startedAt n); [|discriminate]. split; [discriminate|].
    now destruct (hasEnded n).
  - destruct He as [Hs ->]. now destruct (startedAt n).
Qed.

Lemma active_set_is_playing_frames_witness :
  NoDup (outputSourcesRef (refs speaking_session)) /\
  forall id, In id (outputSourcesRef (refs speaking_session)) <->
    exists n, find_node id speaking_session = Some n /\ role n = FrameSource /\
              startedAt n <> None /\ hasEnded n = false.
Proof.
  apply active_set_is_playing_frames.
  exists [TtsSettled (ApiResponds (Some "AAAAAAAA"%string)); SourceEnded 0;
          SocketOpened; ConnectSettled true; MicSettled true;
          ServerMessage 1 (ModelAudioFrame "AAAAAAAA")].
  vm_compute. reflexivity.
Defined.

(** Property X8.  When a playing frame of the judge ends, the status goes
    to Listening if no frame source is left playing, whatever the status
    was, and is left as it was if one still plays. *)
Theorem listening_when_last_frame_ends :
  forall s id, Reachable s -> playing s id ->
    exists s',
      step (SourceEnded id) s = Some s' /\
      ~ playing s' id /\
      ((forall j, ~ playing s' j) -> status (view s') = Listening) /\
      ((exists j, playing s' j) -> status (view s') = status (view s)).
Proof.
  intros s id R Hplay. pose proof (Tracked_reachable s R) as HT.
  destruct Hplay as (n & Hf & Hr & He).
  assert (Hstep : step (SourceEnded id) s =
                  Some (task (Returned (onended id (mark_ended id s)))))
    by (unfold step; now rewrite Hf, He, Hr).
  eexists. split; [exact Hstep|].
  pose proof (Tracked_step _ _ _ HT Hstep) as [_ Hpl'].
  assert (Hact : outputSourcesRef (refs (task (Returned (onended id (mark_ended id s))))) =
                 set_delete id (outputSourcesRef (refs s))).
  { rewrite refs_task. cbn [final]. unfold onended. simpl.
    now destruct (List.length (set_delete id (outputSourcesRef (refs s))) =? 0)%nat. }
  assert (Hst : status (view (task (Returned (onended id (mark_ended id s))))) =
                if (List.length (set_delete id (outputSourcesRef (refs s))) =? 0)%nat
                then Listening else status (view s)).
  { rewrite view_task. cbn [final]. unfold onended. simpl.
    now destruct (List.length (set_delete id (outputSourcesRef (refs s))) =? 0)%nat. }
  split; [|split].
  - intros Hp. apply Hpl' in Hp. rewrite Hact in Hp.
    apply in_set_delete in Hp. now destruct Hp.
  - intros Hnone. rewrite Hst.
    destruct (set_delete id (outputSourcesRef (refs s))) as [|j l] eqn:E;
      [reflexivity|].
    exfalso. apply (Hnone j). apply Hpl'. rewrite Hact, ?E. now left.
  - intros (j & Hj). rewrite Hst. apply Hpl' in Hj. rewrite Hact in Hj.
    destruct (set_delete id (outputSourcesRef (refs s))); [contradiction|].
    reflexivity.
Qed.

Lemma listening_when_last_frame_ends_witness :
  exists s',
    step (SourceEnded 1) speaking_session = Some s' /\
    ~ playing s' 1 /\
    ((forall j, ~ playing s' j) -> status (view s') = Listening) /\
    ((exists j, playing s' j) -> status (view s') = status (view speaking_session)).
Proof.
  apply listening_when_last_frame_ends.
  - exists [TtsSettled (ApiResponds (Some "AAAAAAAA"%string)); SourceEnded 0;
            SocketOpened; ConnectSettled true; MicSettled true;
            ServerMessage 1 (ModelAudioFrame "AAAAAAAA")].
    vm_compute. reflexivity.
  - eexists. split; [vm_compute; reflexivity|]. split; reflexivity.
Defined.

End Playing.

(** ** The schedule of the judge's frames *)

Section Scheduling.
















End Scheduling.

(** ** A session without the opening audio *)

Section Voiceless.

Lemma onmessage_voiceless now m s :
  outputAudioContextRef (refs s) = None ->
  let s' := final (onmessage now m s) in
  outputAudioContextRef (refs s') = None /\
  nodes (world s') = nodes (world s) /\
  outputSourcesRef (refs s') = outputSourcesRef (refs s) /\
  agenda s' = agenda s.
Proof.
  intros Hc.
  destruct m as [[ti|] [to|] [|] [audio|]]; unfold onmessage;
    cbn [inputTranscription outputTranscription turnComplete inlineData];
    cbv zeta;
    try (repeat split; auto; fail);
    (destruct (truthy audio); [|repeat split; auto]);
    unfold onModelAudio, onModelAudio_begin; simpl; rewrite Hc; simpl;
    repeat split; auto.
Qed.

Lemma voiceless_ext s s' :
  ttsPending (agenda s') = ttsPending (agenda s) ->
  outputAudioContextRef (refs s') = outputAudioContextRef (refs s) ->
  nodes (world s') = nodes (world s) ->
  outputSourcesRef (refs s') = outputSourcesRef (refs s) ->
  voiceless s -> voiceless s'.
Proof.
  intros Ha Hc Hn Ho (H1 & H2 & H3 & H4). unfold voiceless.
  rewrite Ha, Hc, Hn, Ho. auto.
Qed.

Lemma voiceless_task o : voiceless (final o) -> voiceless (task o).
Proof. apply voiceless_ext; now rewrite ?agenda_task, ?refs_task, ?nodes_task. Qed.

Lemma voiceless_drain s : voiceless s -> voiceless (drain s).
Proof. apply voiceless_ext; now rewrite ?agenda_drain, ?refs_drain, ?nodes_drain. Qed.

Lemma voiceless_cleanUp s : voiceless s -> voiceless (final (cleanUp s)).
Proof.
  intros (H1 & H2 & H3 & H4).
  destruct (cleanUp_final s) as (_ & Ha & _ & _ & _ & Ho & Hc & _ & Hk).
  unfold voiceless. rewrite Ha, Ho, (Hk H2). repeat split; auto.
  rewrite H3 in Hc. simpl in Hc. now apply map_eq_nil in Hc.
Qed.

Lemma voiceless_step e s s' : voiceless s -> step e s = Some s' -> voiceless s'.
Proof.
  intros HV Hstep. pose proof HV as (H1 & H2 & H3 & H4).
  step_cases e s Hstep;
    try (first [apply voiceless_drain | apply voiceless_task; cbn [final]]).
  - congruence.
  - revert HV. now apply voiceless_ext.
  - revert HV. apply voiceless_ext; now destruct granted.
  - revert HV. now apply voiceless_ext.
  - revert HV. now apply voiceless_ext.
  - revert HV. unfold onaudioprocess. rewrite then_eq. now apply voiceless_ext.
  - destruct (onmessage_voiceless now m s H2) as (K1 & K2 & K3 & K4).
    revert HV. apply voiceless_ext; congruence.
  - unfold find_node in Ef. rewrite H3 in Ef. destruct id; discriminate.
  - unfold find_node in Ef. rewrite H3 in Ef. destruct id; discriminate.
  - revert HV. now apply voiceless_ext.
  - revert HV. now apply voiceless_ext.
  - pose proof (voiceless_cleanUp s HV) as K. revert K.
    destruct (handleEndSession_final s) as [-> | ->]; [auto|].
    now apply voiceless_ext.
  - apply voiceless_cleanUp. revert HV. now apply voiceless_ext.
Qed.

Lemma voiceless_run events : forall s s',
  voiceless s -> run events s = Some s' -> voiceless s'.
Proof.
  induction events as [|e rest IH]; intros s s' HS Hrun; simpl in Hrun.
  - now injection Hrun as <-.
  - destruct (step e s) as [s1|] eqn:E; [|discriminate].
    apply (IH s1); [|exact Hrun]. now apply (voiceless_step e s).
Qed.

(** Property X10.  When the speech request brings no audio (it throws,
    or answers with no data or with empty data), no output context is ever
    made: whatever events follow, no source node exists, nothing plays, and
    every non-empty audio frame of the judge makes [onmessage] throw a
    TypeError after it has put the status to Speaking. *)
Theorem no_playback_without_opening_audio :
  forall api events s,
    (forall audioData, getTextToSpeech api <> inr (Some audioData)) ->
    run (TtsSettled api :: events) init = Some s ->
    nodes (world s) = [] /\
    schedule s = [] /\
    forall now base64Audio, truthy base64Audio = true ->
      exists s',
        onmessage now (ModelAudioFrame base64Audio) s = Threw TypeError s' /\
        status (view s') = Speaking /\
        nodes (world s') = [].
Proof.
  intros api events s Hnone Hrun.
  assert (H0 : exists s0, step (TtsSettled api) init = Some s0 /\ voiceless s0).
  { eexists. split; [reflexivity|]. apply voiceless_drain.
    unfold playOpeningStatement.
    destruct (getTextToSpeech api) as [e|[a|]] eqn:E.
    - repeat split.
    - destruct (truthy a) eqn:Ea.
      + exfalso. apply (Hnone a). reflexivity.
      + repeat split.
    - repeat split. }
  destruct H0 as (s0 & Hs0 & Hv0).
  change (run (TtsSettled api :: events) init) with
    (match step (TtsSettled api) init with
     | Some s' => run events s'
     | None => None
     end) in Hrun.
  rewrite Hs0 in Hrun.
  destruct (voiceless_run events s0 s Hv0 Hrun) as (H1 & H2 & H3 & H4).
  split; [exact H3|]. split; [unfold schedule; now rewrite H3|].
  intros now base64Audio Ht.
  unfold onmessage, ModelAudioFrame.
  cbn [inputTranscription outputTranscription turnComplete inlineData].
  cbv zeta. rewrite Ht.
  unfold onModelAudio, onModelAudio_begin. simpl. rewrite H2. simpl.
  eexists. split; [reflexivity|]. split; [reflexivity | exact H3].
Qed.

Lemma no_playback_without_opening_audio_witness :
  nodes (world voiceless_session) = [] /\
  schedule voiceless_session = [] /\
  forall now base64Audio, truthy base64Audio = true ->
    exists s',
      onmessage now (ModelAudioFrame base64Audio) voiceless_session =
        Threw TypeError s' /\
      status (view s') = Speaking /\
      nodes (world s') = [].
Proof.
  apply (no_playback_without_opening_audio (ApiResponds None)
           [SocketOpened; ConnectSettled true; MicSettled true]).
  - intros audioData. discriminate.
  - vm_compute. reflexivity.
Defined.

End Voiceless.

(** ** After the end of the session *)

Section CaptureOver.

Lemma capturing_down p c :
  match option_map disconnect p, option_map close_context c with
  | Some node, Some c' => connected node && negb (is_closed c')
  | _, _ => false
  end = false.
Proof. destruct p, c; reflexivity. Qed.

Lemma capture_over_cleaned s c :
  microtasks (world s) = [] -> cleaned s c ->
  socket (agenda s) = SocketOpen ->
  micPending (agenda s) = false ->
  sessionPromiseRef (refs s) = Some Fulfilled ->
  forall x,
    refs x = refs c -> agenda x = agenda c -> nodes (world x) = nodes (world c) ->
    sent (world x) = sent (world c) -> microtasks (world x) = microtasks (world c) ->
    sessionClosed (world x) = sessionClosed (world c) ->
    Inv (drain x) ->
    capture_over (drain x) /\ sent (world (drain x)) = sent (world s).
Proof.
  intros HI Hcl Hsock Hmic Hp x Hr Ha Hn Hs Hm Hc HIx.
  assert (Hmt : microtasks (world x) = [CloseSession]).
  { rewrite Hm, (cl_microtasks _ _ Hcl), Hp. now rewrite HI. }
  split; [split; [exact HIx|]|].
  - rewrite closed_drain.
    unfold capturing. rewrite refs_drain, agenda_drain, Hr, Ha.
    rewrite (cl_processor _ _ Hcl), (cl_input _ _ Hcl), (cl_agenda _ _ Hcl).
    rewrite (cl_promise _ _ Hcl), Hp, Hmt.
    split; [apply capturing_down|]. repeat split; auto.
    simpl. apply orb_true_r.
  - rewrite sent_drain, Hmt, Hs, (cl_sent _ _ Hcl). simpl. apply app_nil_r.
Qed.

Lemma capture_over_step e s s' :
  capture_over s -> step e s = Some s' ->
  capture_over s' /\ sent (world s') = sent (world s).
Proof.
  intros HO Hstep. pose proof HO as (HI & Hcap & Hmic & Hsock & Hp & Hcl).
  pose proof (step_Inv e s s' HI Hstep) as HI'.
  destruct (inv_opening s (proj1 HI)) as [Htts Hopen]; [congruence|].
  assert (Hext : forall x : Session,
            refs x = refs s \/
            (scriptProcessorRef (refs x) = scriptProcessorRef (refs s) /\
             audioContextRef (refs x) = audioContextRef (refs s) /\
             sessionPromiseRef (refs x) = sessionPromiseRef (refs s)) ->
            agenda x = agenda s ->
            sent (world x) = sent (world s) ->
            microtasks (world x) = microtasks (world s) ->
            sessionClosed (world x) = sessionClosed (world s) ->
            Inv (drain x) ->
            capture_over (drain x) /\ sent (world (drain x)) = sent (world s)).
  { intros x Hr Ha Hs Hm Hc HIx.
    assert (Hr' : scriptProcessorRef (refs x) = scriptProcessorRef (refs s) /\
                  audioContextRef (refs x) = audioContextRef (refs s) /\
                  sessionPromiseRef (refs x) = sessionPromiseRef (refs s))
      by (destruct Hr as [-> | Hr]; auto).
    destruct Hr' as (R1 & R2 & R3).
    split; [split; [exact HIx|]|].
    - unfold capturing in *.
      rewrite closed_drain, refs_drain, agenda_drain, R1, R2, R3, Ha, Hc, Hcl.
      repeat split; auto.
    - rewrite sent_drain, Hm, (proj2 HI), Hs. apply app_nil_r. }
  step_cases e s Hstep; try congruence.
  - rewrite (Hopen id n Ef Er) in Ec. discriminate.
  - unfold onended in *. cbn [refs outputSourcesRef write_outputSourcesRef
                              mark_ended update_node set_nodes on_refs on_world] in *.
    destruct (List.length (set_delete id (outputSourcesRef (refs s))) =? 0)%nat;
      apply Hext; simpl; auto.
  - apply Hext; auto.
  - destruct (endSession_effect s HI) as (c & Hc & Hret & _).
    rewrite Hret in *. cbn [task] in *.
    apply (capture_over_cleaned s c); auto. apply HI.
  - assert (Hst : Forall (started (set_mounted false s))
                    (outputSourcesRef (refs (set_mounted false s)))).
    { eapply Forall_impl; [|exact (inv_started s (proj1 HI))].
      intros j. now apply started_same_nodes. }
    destruct (cleanUp_returns (set_mounted false s) Hst) as (c & Hret & Hc).
    rewrite Hret in *. cbn [task] in *.
    apply (capture_over_cleaned (set_mounted false s) c); auto. apply HI.
Qed.

Lemma capture_over_run events : forall s s',
  capture_over s -> run events s = Some s' ->
  capture_over s' /\ sent (world s') = sent (world s).
Proof.
  induction events as [|e rest IH]; intros s s' HS Hrun; simpl in Hrun.
  - injection Hrun as <-. auto.
  - destruct (step e s) as [s1|] eqn:E; [|discriminate].
    destruct (capture_over_step e s s1 HS E) as [H1 E1].
    destruct (IH s1 s' H1 Hrun) as [H2 E2]. split; [exact H2 | congruence].
Qed.

(** Property X11.  Ending the session ends the capture for good.  On a
    channel whose promise has resolved and with the microphone request
    settled, after End Session the channel is closed, no frame is sent by
    the teardown, and whatever events follow no frame is ever sent
    again. *)
Theorem end_session_stops_capture :
  forall s, Reachable s ->
    socket (agenda s) = SocketOpen ->
    micPending (agenda s) = false ->
    sessionPromiseRef (refs s) = Some Fulfilled ->
    sessionClosed (world (endSession s)) = true /\
    forall events s', run events (endSession s) = Some s' ->
      sent (world s') = sent (world s) /\ capturing s' = false.
Proof.
  intros s R Hsock Hmic Hp. pose proof (Reachable_Inv s R) as HI.
  destruct (endSession_effect s HI) as (c & Hc & _ & Hend).
  assert (HO : capture_over (endSession s) /\
               sent (world (endSession s)) = sent (world s)).
  { pose proof (endSession_Inv s HI) as HIe. rewrite Hend in *.
    apply (capture_over_cleaned s c); auto. apply HI. }
  destruct HO as [HO Hs]. split; [apply HO|].
  intros events s' Hrun.
  destruct (capture_over_run events _ s' HO Hrun) as [HO' Hs'].
  split; [congruence | apply HO'].
Qed.

Lemma end_session_stops_capture_witness :
  sessionClosed (world (endSession speaking_session)) = true /\
  forall events s', run events (endSession speaking_session) = Some s' ->
    sent (world s') = sent (world speaking_session) /\ capturing s' = false.
Proof.
  apply end_session_stops_capture.
  - exists [TtsSettled (ApiResponds (Some "AAAAAAAA"%string)); SourceEnded 0;
            SocketOpened; ConnectSettled true; MicSettled true;
            ServerMessage 1 (ModelAudioFrame "AAAAAAAA")].
    vm_compute. reflexivity.
  - vm_compute. reflexivity.
  - vm_compute. reflexivity.
  - vm_compute. reflexivity.
Defined.

End CaptureOver.

(** ** Frames captured before the channel promise resolves *)

Section Deferred.

Lemma sends_map_blob buffers :
  sends (map (fun b => SendRealtimeInput (Codec.pcmBlob b)) buffers) =
  map Codec.pcmBlob buffers.
Proof. induction buffers as [|b l IH]; simpl; [reflexivity | now rewrite IH]. Qed.

Lemma record_pending buffers : forall s rs,
  sessionPromiseRef (refs s) = Some (Pending rs) ->
  microtasks (world s) = [] ->
  let s1 := record buffers s in
  sessionPromiseRef (refs s1) =
    Some (Pending (rs ++ map (fun b => SendRealtimeInput (Codec.pcmBlob b)) buffers)) /\
  sent (world s1) = sent (world s) /\
  microtasks (world s1) = [] /\
  agenda s1 = agenda s.
Proof.
  induction buffers as [|b l IH]; intros s rs Hp Hm; cbn [record map].
  - rewrite app_nil_r. auto.
  - destruct (IH (task (Returned (onaudioprocess b s)))
                 (rs ++ [SendRealtimeInput (Codec.pcmBlob b)]))
      as (K1 & K2 & K3 & K4).
    + rewrite refs_task. cbn [final]. unfold onaudioprocess, then_.
      rewrite Hp. reflexivity.
    + cbn [task]. apply microtasks_drain.
    + rewrite K1, K2, K3, K4, <- app_assoc. repeat split; auto.
      * cbn [task]. rewrite sent_drain. unfold onaudioprocess, then_.
        rewrite Hp. simpl. rewrite Hm. apply app_nil_r.
      * rewrite agenda_task. cbn [final]. unfold onaudioprocess.
        now rewrite then_eq.
Qed.

Lemma record_fulfilled buffers : forall s,
  sessionPromiseRef (refs s) = Some Fulfilled ->
  microtasks (world s) = [] ->
  sent (world (record buffers s)) = sent (world s) ++ map Codec.pcmBlob buffers.
Proof.
  induction buffers as [|b l IH]; intros s Hp Hm; cbn [record map].
  - now rewrite app_nil_r.
  - rewrite IH.
    + cbn [task]. rewrite sent_drain. unfold onaudioprocess, then_.
      rewrite Hp. simpl. rewrite Hm. simpl. now rewrite <- app_assoc.
    + rewrite refs_task. cbn [final]. unfold onaudioprocess. rewrite then_eq.
      simpl. now rewrite Hp.
    + cbn [task]. apply microtasks_drain.
Qed.

(** Property X12.  Audio captured before the promise of the channel
    resolves is neither sent early nor lost: while the promise is pending
    the captured buffers send nothing; when it resolves, what was waiting is
    sent in capture order, each buffer as its PCM blob; and from then on
    every captured buffer is sent in the turn that captured it. *)
Theorem captured_frames_wait_for_the_session :
  forall s rs buffers,
    sessionPromiseRef (refs s) = Some (Pending rs) ->
    microtasks (world s) = [] ->
    socket (agenda s) = SocketOpen ->
    sent (world (record buffers s)) = sent (world s) /\
    exists s',
      step (ConnectSettled true) (record buffers s) = Some s' /\
      sent (world s') =
        sent (world s) ++ sends rs ++ map Codec.pcmBlob buffers /\
      forall more,
        sent (world (record more s')) = sent (world s') ++ map Codec.pcmBlob more.
Proof.
  intros s rs buffers Hp Hm Hsock.
  destruct (record_pending buffers s rs Hp Hm) as (K1 & K2 & K3 & K4).
  split; [exact K2|].
  eexists. split.
  - unfold step. rewrite K1, K4, Hsock. reflexivity.
  - split.
    + rewrite sent_drain. simpl. rewrite K2, sends_app, sends_map_blob.
      reflexivity.
    + intros more. apply record_fulfilled.
      * rewrite refs_drain. reflexivity.
      * apply microtasks_drain.
Qed.

Lemma captured_frames_wait_for_the_session_witness :
  sent (world (record [[1 # 2; - (1)]; [0]]%Q early_microphone)) =
    sent (world early_microphone) /\
  exists s',
    step (ConnectSettled true) (record [[1 # 2; - (1)]; [0]]%Q early_microphone) =
      Some s' /\
    sent (world s') =
      sent (world early_microphone) ++ sends [] ++
      map Codec.pcmBlob [[1 # 2; - (1)]; [0]]%Q /\
    forall more,
      sent (world (record more s')) = sent (world s') ++ map Codec.pcmBlob more.
Proof.
  apply captured_frames_wait_for_the_session; vm_compute; reflexivity.
Defined.

End Deferred.

(** * Properties of the other components *)

(** ** The text requests of the service *)

Section Answers.

Local Open Scope string_scope.

Lemma list_ascii_app (a b : string) :
  list_ascii_of_string (a ++ b) =
  (list_ascii_of_string a ++ list_ascii_of_string b)%list.
Proof. induction a as [|c a IH]; simpl; [reflexivity | now rewrite IH]. Qed.

Lemma string_of_list_app (a b : list ascii) :
  string_of_list_ascii (a ++ b) = string_of_list_ascii a ++ string_of_list_ascii b.
Proof. induction a as [|c a IH]; simpl; [reflexivity | now rewrite IH]. Qed.

Lemma reverse_app a b :
  Service.reverse (a ++ b) = Service.reverse b ++ Service.reverse a.
Proof.
  unfold Service.reverse. now rewrite list_ascii_app, rev_app_distr, string_of_list_app.
Qed.

Lemma reverse_involutive a : Service.reverse (Service.reverse a) = a.
Proof.
  unfold Service.reverse.
  now rewrite list_ascii_of_string_of_list_ascii, rev_involutive,
              string_of_list_ascii_of_string.
Qed.

Lemma strip_prefix_app p s : Service.strip_prefix p (p ++ s) = Some s.
Proof.
  induction p as [|c p IH]; simpl; [now destruct s|].
  now rewrite Ascii.eqb_refl.
Qed.

Lemma strip_fence_close_app body : Service.strip_fence_close (body ++ "```") = body.
Proof.
  unfold Service.strip_fence_close. rewrite reverse_app.
  change (Service.reverse "```") with "```".
  rewrite strip_prefix_app. apply reverse_involutive.
Qed.

Lemma strip_fence_open_fenced rest :
  Service.strip_fence_open ("```json" ++ String Service.newline rest) = rest.
Proof. reflexivity. Qed.

Lemma trimStart_padded ws l :
  Forall (fun c => isWhiteSpace c = true) ws ->
  trimStart_chars (ws ++ l) = trimStart_chars l.
Proof.
  induction 1 as [|c ws Hc Hws IH]; simpl; [reflexivity|]. now rewrite Hc.
Qed.

(** Trimming takes the white space off both ends of a text whose first
    and last characters are not white space. *)
Lemma trim_padded lead c l d trail :
  Service.is_whitespace lead -> Service.is_whitespace trail ->
  isWhiteSpace c = false -> isWhiteSpace d = false ->
  trim (lead ++ string_of_list_ascii (c :: l ++ [d])%list ++ trail) =
  string_of_list_ascii (c :: l ++ [d])%list.
Proof.
  intros Hl Ht Hc Hd. unfold trim. f_equal.
  rewrite !list_ascii_app, list_ascii_of_string_of_list_ascii.
  rewrite (trimStart_padded _ _ Hl).
  assert (E : trimStart_chars ((c :: l ++ [d]) ++ list_ascii_of_string trail)%list =
              ((c :: l ++ [d]) ++ list_ascii_of_string trail)%list)
    by (simpl; now rewrite Hc).
  rewrite E, rev_app_distr.
  rewrite trimStart_padded by (now apply Forall_rev).
  assert (H : rev (c :: l ++ [d])%list = (d :: rev l ++ [c])%list).
  { simpl. now rewrite rev_app_distr. }
  rewrite H, (trimStart_fixed d _ Hd), <- H. apply rev_involutive.
Qed.

Lemma fenced_chars body :
  exists l,
    Service.fenced body = string_of_list_ascii ("`"%char :: l ++ ["`"%char])%list.
Proof.
  exists (list_ascii_of_string ("``json" ++ String Service.newline body ++ "``")).
  cbn [string_of_list_ascii].
  rewrite string_of_list_app, string_of_list_ascii_of_string.
  unfold Service.fenced. simpl. now rewrite append_assoc.
Qed.

Lemma sanitize_fenced lead body trail :
  Service.is_whitespace lead -> Service.is_whitespace trail ->
  Service.sanitize (lead ++ Service.fenced body ++ trail) = body.
Proof.
  intros Hl Ht. unfold Service.sanitize.
  destruct (fenced_chars body) as [l El]. rewrite El.
  rewrite (trim_padded lead "`"%char l "`"%char trail Hl Ht eq_refl eq_refl), <- El.
  unfold Service.fenced.
  change ("```json" ++ String Service.newline body ++ "```")
    with ("```json" ++ String Service.newline (body ++ "```")).
  rewrite strip_fence_open_fenced. apply strip_fence_close_app.
Qed.

(** Property X13.  A fenced answer is unwrapped exactly: whatever the
    body, an answer made of white space, the opening fence with its line
    break, the body, the closing fence and white space is sanitized to the
    body, so that is what [JSON.parse] is given. *)
Theorem fenced_answer_unwrapped :
  forall (A : Type) (JSON_parse : string -> option (Service.Json A))
         (lead body trail : string) (chunks : list Service.GroundingChunk),
    Service.is_whitespace lead -> Service.is_whitespace trail ->
    Service.sanitize (lead ++ Service.fenced body ++ trail) = body /\
    Service.parse_answer A JSON_parse
      (Service.mkResponse (Some (lead ++ Service.fenced body ++ trail)) chunks) =
    JSON_parse body.
Proof.
  intros A JSON_parse lead body trail chunks Hl Ht.
  pose proof (sanitize_fenced lead body trail Hl Ht) as E.
  split; [exact E|]. unfold Service.parse_answer.
  cbn [Service.response_text]. now rewrite E.
Qed.

Lemma fenced_answer_unwrapped_witness :
  Service.sanitize (" " ++ Service.fenced "[]" ++ String Service.newline "") = "[]" /\
  Service.parse_answer nat (fun _ => Some (Service.JsonArray [1%nat]))
    (Service.mkResponse
       (Some (" " ++ Service.fenced "[]" ++ String Service.newline "")) []) =
  Some (Service.JsonArray [1%nat]).
Proof.
  apply (fenced_answer_unwrapped nat (fun _ => Some (Service.JsonArray [1%nat]))
           " " "[]" (String Service.newline "") []).
  - repeat constructor.
  - repeat constructor.
Defined.

Lemma fallback_places chunks :
  map (fun chunk =>
         match Service.maps chunk with
         | Some place => Service.fallbackResult place
         | None => Service.fallbackResult (Service.mkLink "" "")
         end)
      (filter (fun chunk => match Service.maps chunk with
                            | Some _ => true
                            | None => false
                            end) chunks) =
  map Service.fallbackResult (Service.mapped chunks).
Proof.
  induction chunks as [|[[place|] w] chunks IH]; simpl; [reflexivity| |exact IH].
  now rewrite IH.
Qed.

(** Property X14.  When the answer cannot be parsed, [findLegalAid]
    falls back on the grounding chunks: it returns one placeholder result
    for each chunk that has a maps part, in their order, with the title and
    the link of the place, no rating and no distance; the fallback is never
    an empty list, for when no chunk has a maps part it throws instead. *)
Theorem legal_aid_fallback :
  forall JSON_parse response,
    Service.parse_answer _ JSON_parse response = None ->
    match Service.findLegalAid JSON_parse response with
    | inr results =>
        results <> [] /\
        results = map Service.fallbackResult
                      (Service.mapped (Service.groundingChunks response)) /\
        Forall (fun r => Service.rating r = 0%Q /\ Service.distance r = "N/A" /\
                         Service.contactNumber r = None) results
    | inl message =>
        Service.mapped (Service.groundingChunks response) = [] /\
        message = "Could not retrieve or parse location data."
    end.
Proof.
  intros JSON_parse response Hnone. unfold Service.findLegalAid.
  rewrite Hnone, fallback_places.
  destruct (Service.mapped (Service.groundingChunks response)) as [|place places];
    simpl; [auto|].
  split; [discriminate|]. split; [reflexivity|].
  constructor; [auto|]. apply Forall_forall. intros r Hr.
  apply in_map_iff in Hr. destruct Hr as (q & <- & _). auto.
Qed.

Lemma legal_aid_fallback_witness :
  match Service.findLegalAid (fun _ => None)
          (Service.mkResponse (Some "no results")
             [Service.mkChunk None (Some (Service.mkLink "a page" "https://a"));
              Service.mkChunk (Some (Service.mkLink "Legal Aid Cell" "https://maps/1"))
                              None]) with
  | inr results =>
      results <> [] /\
      results = map Service.fallbackResult
                    (Service.mapped
                       [Service.mkChunk None (Some (Service.mkLink "a page" "https://a"));
                        Service.mkChunk
                          (Some (Service.mkLink "Legal Aid Cell" "https://maps/1"))
                          None]) /\
      Forall (fun r => Service.rating r = 0%Q /\ Service.distance r = "N/A" /\
                       Service.contactNumber r = None) results
  | inl message =>
      Service.mapped
        [Service.mkChunk None (Some (Service.mkLink "a page" "https://a"));
         Service.mkChunk (Some (Service.mkLink "Legal Aid Cell" "https://maps/1"))
                         None] = [] /\
      message = "Could not retrieve or parse location data."
  end.
Proof.
  exact (legal_aid_fallback (fun _ => None)
           (Service.mkResponse (Some "no results")
              [Service.mkChunk None (Some (Service.mkLink "a page" "https://a"));
               Service.mkChunk (Some (Service.mkLink "Legal Aid Cell" "https://maps/1"))
                               None])
           eq_refl).
Defined.

(** Property X15.  [getRelatedNews] is [getLegalNews] made total: on
    every answer it returns what [getLegalNews] returns, and the empty list
    where [getLegalNews] throws.  Both give every article the web pages of
    the grounding as its sources when there is at least one such page. *)
Theorem related_news_never_throws :
  forall JSON_parse response,
    Service.getRelatedNews JSON_parse response =
      match Service.getLegalNews JSON_parse response with
      | inr articles => articles
      | inl _ => []
      end /\
    forall articles,
      Service.getLegalNews JSON_parse response = inr articles ->
      Service.web_sources response <> [] ->
      Forall (fun a => Service.sources a = Some (Service.web_sources response))
             articles.
Proof.
  intros JSON_parse response. unfold Service.getRelatedNews, Service.getLegalNews.
  destruct (Service.parse_answer _ JSON_parse response) as [[items|]|];
    (split; [reflexivity|]); intros articles H Hs; try discriminate;
    injection H as <-; [|constructor].
  unfold Service.attach_sources.
  destruct (Service.web_sources response) as [|x l]; [contradiction|]. simpl.
  apply Forall_forall. intros a Ha. apply in_map_iff in Ha.
  destruct Ha as (b & <- & _). reflexivity.
Qed.

Lemma related_news_never_throws_witness :
  let response :=
    Service.mkResponse (Some "[]")
      [Service.mkChunk None (Some (Service.mkLink "a page" "https://a"))] in
  let JSON_parse := fun _ : string =>
    Some (Service.JsonArray [News.article "A ruling" "text"]) in
  Service.getRelatedNews JSON_parse response =
    match Service.getLegalNews JSON_parse response with
    | inr articles => articles
    | inl _ => []
    end /\
  forall articles,
    Service.getLegalNews JSON_parse response = inr articles ->
    Service.web_sources response <> [] ->
    Forall (fun a => Service.sources a = Some (Service.web_sources response))
           articles.
Proof.
  exact (related_news_never_throws
           (fun _ : string => Some (Service.JsonArray [News.article "A ruling" "text"]))
           (Service.mkResponse (Some "[]")
              [Service.mkChunk None (Some (Service.mkLink "a page" "https://a"))])).
Defined.

End Answers.

(** ** The news caches *)

Section Caches.

Local Open Scope string_scope.

Lemma Map_set_keys {V} k (v : V) m :
  forall k', In k' (map fst (News.Map_set k v m)) <-> k' = k \/ In k' (map fst m).
Proof.
  induction m as [|[k0 v0] m IH]; intros k'; simpl.
  - intuition.
  - destruct (String.eqb k k0) eqn:E; simpl.
    + apply String.eqb_eq in E. subst. intuition.
    + rewrite IH. intuition.
Qed.

Lemma Map_set_NoDup {V} k (v : V) m :
  NoDup (map fst m) -> NoDup (map fst (News.Map_set k v m)).
Proof.
  induction m as [|[k0 v0] m IH]; simpl; intros Hnd.
  - constructor; [intros []|constructor].
  - inversion Hnd as [|? ? Hk0 Hm]; subst.
    destruct (String.eqb k k0) eqn:E; simpl.
    + apply String.eqb_eq in E. subst. now constructor.
    + constructor; [|now apply IH].
      rewrite Map_set_keys. intros [-> | H]; [|contradiction].
      rewrite String.eqb_refl in E. discriminate.
Qed.

Lemma Map_set_entries {V} k (v : V) m :
  NoDup (map fst m) ->
  forall k' v', In (k', v') (News.Map_set k v m) ->
    (k' = k /\ v' = v) \/ (k' <> k /\ In (k', v') m).
Proof.
  induction m as [|[k0 v0] m IH]; simpl; intros Hnd k' v' Hin.
  - destruct Hin as [H|[]]. injection H as <- <-. auto.
  - inversion Hnd as [|? ? Hk0 Hm]; subst.
    destruct (String.eqb k k0) eqn:E; simpl in Hin.
    + apply String.eqb_eq in E. subst k0.
      destruct Hin as [H|H]; [injection H as <- <-; auto|].
      right. split; [|auto]. intros ->. apply Hk0.
      apply in_map_iff. exists (k, v'). auto.
    + apply String.eqb_neq in E.
      destruct Hin as [H|H].
      * injection H as <- <-. right. split; [congruence | auto].
      * destruct (IH Hm k' v' H) as [?|[? ?]]; auto.
Qed.

(** A key that is new goes to the end. *)
Lemma Map_set_fresh {V} k (v : V) m :
  ~ In k (map fst m) -> News.Map_set k v m = (m ++ [(k, v)])%list.
Proof.
  induction m as [|[k0 v0] m IH]; simpl; intros Hk; [reflexivity|].
  destruct (String.eqb k k0) eqn:E.
  - apply String.eqb_eq in E. subst. exfalso. auto.
  - rewrite IH; auto.
Qed.

Lemma new_Map_snoc {V} (entries : list (string * V)) e :
  News.new_Map (entries ++ [e]) =
  News.Map_set (fst e) (snd e) (News.new_Map entries).
Proof. unfold News.new_Map. now rewrite fold_left_app. Qed.

Lemma new_Map_NoDup {V} (entries : list (string * V)) :
  NoDup (map fst (News.new_Map entries)).
Proof.
  induction entries as [|e l IH] using rev_ind.
  - constructor.
  - rewrite new_Map_snoc. now apply Map_set_NoDup.
Qed.

Lemma new_Map_keys {V} (entries : list (string * V)) :
  forall k, In k (map fst (News.new_Map entries)) <-> In k (map fst entries).
Proof.
  induction entries as [|e l IH] using rev_ind; intros k.
  - simpl. tauto.
  - rewrite new_Map_snoc, Map_set_keys, IH, map_app, in_app_iff. simpl.
    intuition.
Qed.

Lemma new_Map_distinct {V} (entries : list (string * V)) :
  NoDup (map fst entries) -> News.new_Map entries = entries.
Proof.
  induction entries as [|e l IH] using rev_ind; intros Hnd; [reflexivity|].
  rewrite map_app in Hnd. simpl in Hnd.
  rewrite new_Map_snoc, IH by (now apply NoDup_remove_1 in Hnd; rewrite app_nil_r in Hnd).
  rewrite Map_set_fresh; [now destruct e|].
  apply NoDup_remove_2 in Hnd. now rewrite app_nil_r in Hnd.
Qed.

Lemma last_with_snoc h l a :
  News.last_with h (l ++ [a]) =
  if String.eqb (Service.headline a) h then Some a else News.last_with h l.
Proof. unfold News.last_with. rewrite rev_app_distr. reflexivity. Qed.

Lemma new_Map_last l :
  forall k a,
    In (k, a) (News.new_Map (map (fun item => (Service.headline item, item)) l)) ->
    Service.headline a = k /\ News.last_with k l = Some a.
Proof.
  induction l as [|x l IH] using rev_ind; intros k a Hin; [contradiction|].
  rewrite map_app in Hin. cbn [map] in Hin. rewrite new_Map_snoc in Hin.
  cbn [fst snd] in Hin.
  apply Map_set_entries in Hin; [|apply new_Map_NoDup].
  rewrite last_with_snoc.
  destruct Hin as [[-> ->] | [Hne Hin]].
  - now rewrite String.eqb_refl.
  - destruct (IH k a Hin) as [Hh Hl]. split; [exact Hh|].
    destruct (String.eqb (Service.headline x) k) eqn:E; [|exact Hl].
    apply String.eqb_eq in E. congruence.
Qed.

Lemma headlines_unique l :
  News.headlines (News.uniqueCombined l) =
  map fst (News.new_Map (map (fun item => (Service.headline item, item)) l)).
Proof.
  unfold News.headlines, News.uniqueCombined. rewrite map_map.
  apply map_ext_in. intros [k a] Hin. simpl.
  now destruct (new_Map_last l k a Hin).
Qed.

Lemma uniqueCombined_NoDup l : NoDup (News.headlines (News.uniqueCombined l)).
Proof. rewrite headlines_unique. apply new_Map_NoDup. Qed.

Lemma uniqueCombined_headlines l h :
  In h (News.headlines (News.uniqueCombined l)) <-> In h (News.headlines l).
Proof.
  rewrite headlines_unique, new_Map_keys. unfold News.headlines.
  now rewrite map_map.
Qed.

Lemma uniqueCombined_distinct l :
  NoDup (News.headlines l) -> News.uniqueCombined l = l.
Proof.
  intros Hnd. unfold News.uniqueCombined. rewrite new_Map_distinct.
  - rewrite map_map. simpl. apply map_id.
  - rewrite map_map. exact Hnd.
Qed.

(** Property X16.  The de-duplication of the news caches, the Map built
    from headline and article pairs read back as an array: the result has
    no two articles with the same headline; it has exactly the headlines of
    the input; for a headline that occurs several times it keeps the last
    article that carries it; and a list without repeated headlines comes
    back unchanged. *)
Theorem unique_by_headline_keeps_last :
  forall l,
    NoDup (News.headlines (News.uniqueCombined l)) /\
    (forall h, In h (News.headlines (News.uniqueCombined l)) <->
               In h (News.headlines l)) /\
    (forall a, In a (News.uniqueCombined l) ->
               News.last_with (Service.headline a) l = Some a) /\
    (NoDup (News.headlines l) -> News.uniqueCombined l = l).
Proof.
  intros l. split; [apply uniqueCombined_NoDup|].
  split; [apply uniqueCombined_headlines|].
  split; [|apply uniqueCombined_distinct].
  intros a Ha. unfold News.uniqueCombined in Ha. apply in_map_iff in Ha.
  destruct Ha as ([k b] & E & Hin). simpl in E. subst b.
  destruct (new_Map_last l k a Hin) as [<- Hl]. exact Hl.
Qed.

Lemma unique_by_headline_keeps_last_witness :
  let l := [News.article "A" "old"; News.article "B" "one"; News.article "A" "new"] in
  NoDup (News.headlines (News.uniqueCombined l)) /\
  (forall h, In h (News.headlines (News.uniqueCombined l)) <->
             In h (News.headlines l)) /\
  (forall a, In a (News.uniqueCombined l) ->
             News.last_with (Service.headline a) l = Some a) /\
  (NoDup (News.headlines l) -> News.uniqueCombined l = l).
Proof.
  exact (unique_by_headline_keeps_last
           [News.article "A" "old"; News.article "B" "one"; News.article "A" "new"]).
Defined.

Example uniqueCombined_last_wins :
  News.uniqueCombined
    [News.article "A" "old"; News.article "B" "one"; News.article "A" "new"] =
  [News.article "A" "new"; News.article "B" "one"].
Proof. reflexivity. Qed.

Lemma has_headline_In cache h :
  News.has_headline cache h = true <-> In h (News.headlines cache).
Proof.
  unfold News.has_headline, News.headlines. rewrite existsb_exists. split.
  - intros (x & Hx & E). apply String.eqb_eq in E. now subst.
  - intros H. exists h. split; [exact H | apply String.eqb_refl].
Qed.

Lemma fresh_headlines mainCache l h :
  In h (News.headlines
          (filter (fun a => negb (News.has_headline mainCache (Service.headline a))) l))
  <-> In h (News.headlines l) /\ ~ In h (News.headlines mainCache).
Proof.
  unfold News.headlines at 1 2. rewrite !in_map_iff. split.
  - intros (a & <- & Ha). apply filter_In in Ha. destruct Ha as [Ha Hn].
    split; [eauto|]. rewrite <- has_headline_In.
    now destruct (News.has_headline mainCache (Service.headline a)).
  - intros [(a & <- & Ha) Hn]. exists a. split; [reflexivity|].
    apply filter_In. split; [exact Ha|].
    rewrite <- has_headline_In in Hn.
    now destruct (News.has_headline mainCache (Service.headline a)).
Qed.

(** Property X17.  The background fetch only ever writes the cache of
    latest news and raises the flag: the main cache, the results on the
    screen, the error and the loading flag are left as they were.  With
    both caches readable, if every fetched headline is already in the main
    cache nothing changes at all; otherwise the flag is raised and the
    latest cache becomes a list without repeated headlines whose headlines
    are the fetched ones that the main cache lacks, together with those the
    latest cache already had. *)
Theorem background_fetch_collects_new_headlines :
  forall fetched st,
    let st' := News.backgroundFetch fetched st in
    News.getItem News.NEWS_CACHE_KEY_ENGLISH st' =
      News.getItem News.NEWS_CACHE_KEY_ENGLISH st /\
    News.results st' = News.results st /\
    News.error st' = News.error st /\
    News.isLoading st' = News.isLoading st /\
    forall mainCache latestCache newEnglishArticles,
      News.parse_or_empty (News.getItem News.NEWS_CACHE_KEY_ENGLISH st) =
        Some mainCache ->
      News.parse_or_empty (News.getItem News.LATEST_NEWS_KEY_ENGLISH st) =
        Some latestCache ->
      fetched = inr newEnglishArticles ->
      ((forall h, In h (News.headlines newEnglishArticles) ->
                  In h (News.headlines mainCache)) -> st' = st) /\
      ((exists h, In h (News.headlines newEnglishArticles) /\
                  ~ In h (News.headlines mainCache)) ->
       News.newArticlesAvailable st' = true /\
       exists l,
         News.getItem News.LATEST_NEWS_KEY_ENGLISH st' = Some (News.Articles l) /\
         NoDup (News.headlines l) /\
         forall h, In h (News.headlines l) <->
           (In h (News.headlines newEnglishArticles) /\
            ~ In h (News.headlines mainCache)) \/
           In h (News.headlines latestCache)).
Proof.
  intros fetched st st'. subst st'.
  split; [|split; [|split; [|split]]].
  1-4: unfold News.backgroundFetch;
    destruct (News.parse_or_empty (News.getItem News.NEWS_CACHE_KEY_ENGLISH st));
      [|reflexivity];
    destruct fetched; [reflexivity|];
    match goal with
    | |- context [(0 <? ?n)%nat] => destruct (0 <? n)%nat
    end; [|reflexivity];
    destruct (News.parse_or_empty (News.getItem News.LATEST_NEWS_KEY_ENGLISH st));
    reflexivity.
  intros mainCache latestCache new Hm Hl ->.
  unfold News.backgroundFetch. rewrite Hm, Hl.
  set (fresh := filter (fun a => negb (News.has_headline mainCache
                                         (Service.headline a))) new).
  assert (Hfresh : forall h, In h (News.headlines fresh) <->
            In h (News.headlines new) /\ ~ In h (News.headlines mainCache))
    by (intros h; apply fresh_headlines).
  destruct fresh as [|a fresh'].
  - simpl. split; [reflexivity|].
    intros (h & Hh & Hn). exfalso.
    exact (proj2 (Hfresh h) (conj Hh Hn)).
  - cbn [List.length Nat.ltb Nat.leb]. split.
    + intros Hall. exfalso.
      assert (K : In (Service.headline a) (News.headlines (a :: fresh')))
        by (now left).
      apply Hfresh in K. destruct K as [K1 K2]. auto.
    + intros _. split; [reflexivity|].
      eexists. split; [reflexivity|]. split; [apply uniqueCombined_NoDup|].
      intros h. rewrite uniqueCombined_headlines. unfold News.headlines at 1.
      rewrite map_app, in_app_iff. fold (News.headlines (a :: fresh')).
      fold (News.headlines latestCache). now rewrite Hfresh.
Qed.

Lemma background_fetch_collects_new_headlines_witness :
  let st := News.init (News.mkStorage
              (Some (News.Articles [News.article "A" "old"])) None) in
  let fetched : string + list Service.LegalNewsArticle :=
    inr [News.article "A" "again"; News.article "B" "new"] in
  let st' := News.backgroundFetch fetched st in
  News.getItem News.NEWS_CACHE_KEY_ENGLISH st' =
    News.getItem News.NEWS_CACHE_KEY_ENGLISH st /\
  News.results st' = News.results st /\
  News.error st' = News.error st /\
  News.isLoading st' = News.isLoading st /\
  forall mainCache latestCache newEnglishArticles,
    News.parse_or_empty (News.getItem News.NEWS_CACHE_KEY_ENGLISH st) =
      Some mainCache ->
    News.parse_or_empty (News.getItem News.LATEST_NEWS_KEY_ENGLISH st) =
      Some latestCache ->
    fetched = inr newEnglishArticles ->
    ((forall h, In h (News.headlines newEnglishArticles) ->
                In h (News.headlines mainCache)) -> st' = st) /\
    ((exists h, In h (News.headlines newEnglishArticles) /\
                ~ In h (News.headlines mainCache)) ->
     News.newArticlesAvailable st' = true /\
     exists l,
       News.getItem News.LATEST_NEWS_KEY_ENGLISH st' = Some (News.Articles l) /\
       NoDup (News.headlines l) /\
       forall h, In h (News.headlines l) <->
         (In h (News.headlines newEnglishArticles) /\
          ~ In h (News.headlines mainCache)) \/
         In h (News.headlines latestCache)).
Proof.
  exact (background_fetch_collects_new_headlines
           (inr [News.article "A" "again"; News.article "B" "new"])
           (News.init (News.mkStorage
              (Some (News.Articles [News.article "A" "old"])) None))).
Defined.

Lemma originals_kept language LANGUAGE_MAP api l :
  map News.original (News.createDisplayableArticles language LANGUAGE_MAP api l) = l.
Proof.
  unfold News.createDisplayableArticles. rewrite map_map.
  rewrite <- (map_id l) at 2. apply map_ext. intros a.
  now destruct (String.eqb language "English").
Qed.

(** Property X18.  Loading the new articles merges the two caches.  With
    a readable latest cache and a readable main cache, the articles of the
    latest cache are put in front of the results, each displayed article
    keeping its English original; the main cache becomes a list without
    repeated headlines that has the headlines of both caches; the latest
    cache is removed and the flag lowered; and loading again changes
    nothing. *)
Theorem load_new_articles_merges_caches :
  forall language LANGUAGE_MAP api st newEnglishArticles mainCache,
    News.getItem News.LATEST_NEWS_KEY_ENGLISH st =
      Some (News.Articles newEnglishArticles) ->
    News.parse_or_empty (News.getItem News.NEWS_CACHE_KEY_ENGLISH st) =
      Some mainCache ->
    let shown := News.createDisplayableArticles language LANGUAGE_MAP api
                   newEnglishArticles in
    let st' := News.handleLoadNewArticles language LANGUAGE_MAP api st in
    News.results st' =
      Some (shown ++ match News.results st with
                     | Some prevResults => prevResults
                     | None => []
                     end)%list /\
    map News.original shown = newEnglishArticles /\
    News.getItem News.LATEST_NEWS_KEY_ENGLISH st' = None /\
    News.newArticlesAvailable st' = false /\
    (exists l,
       News.getItem News.NEWS_CACHE_KEY_ENGLISH st' = Some (News.Articles l) /\
       NoDup (News.headlines l) /\
       forall h, In h (News.headlines l) <->
         In h (News.headlines newEnglishArticles) \/
         In h (News.headlines mainCache)) /\
    News.handleLoadNewArticles language LANGUAGE_MAP api st' = st'.
Proof.
  intros language LANGUAGE_MAP api st new mainCache Hl Hm shown st'.
  assert (E : st' =
    News.setNewArticlesAvailable false
      (News.removeItem News.LATEST_NEWS_KEY_ENGLISH
         (News.setItem News.NEWS_CACHE_KEY_ENGLISH
            (News.Articles (News.uniqueCombined (new ++ mainCache)%list))
            (News.setResults
               (Some (shown ++ match News.results st with
                               | Some prevResults => prevResults
                               | None => []
                               end)%list) st)))).
  { subst st' shown. unfold News.handleLoadNewArticles. rewrite Hl. cbn zeta.
    change (News.getItem News.NEWS_CACHE_KEY_ENGLISH
              (News.setResults
                 (Some
                    (News.createDisplayableArticles language LANGUAGE_MAP api new ++
                     match News.results st with
                     | Some prevResults => prevResults
                     | None => []
                     end)%list) st))
      with (News.getItem News.NEWS_CACHE_KEY_ENGLISH st).
    now rewrite Hm. }
  rewrite E.
  split; [reflexivity|]. split; [apply originals_kept|].
  split; [reflexivity|]. split; [reflexivity|]. split.
  - eexists. split; [reflexivity|]. split; [apply uniqueCombined_NoDup|].
    intros h. rewrite uniqueCombined_headlines. unfold News.headlines.
    now rewrite map_app, in_app_iff.
  - reflexivity.
Qed.

Lemma load_new_articles_merges_caches_witness :
  let st := News.init (News.mkStorage
              (Some (News.Articles [News.article "A" "old"]))
              (Some (News.Articles [News.article "B" "new"; News.article "A" "newer"]))) in
  let newEnglishArticles := [News.article "B" "new"; News.article "A" "newer"] in
  let mainCache := [News.article "A" "old"] in
  let shown := News.createDisplayableArticles "English" (fun l => l)
                 (fun _ => Service.TextThrows) newEnglishArticles in
  let st' := News.handleLoadNewArticles "English" (fun l => l)
               (fun _ => Service.TextThrows) st in
  News.results st' =
    Some (shown ++ match News.results st with
                   | Some prevResults => prevResults
                   | None => []
                   end)%list /\
  map News.original shown = newEnglishArticles /\
  News.getItem News.LATEST_NEWS_KEY_ENGLISH st' = None /\
  News.newArticlesAvailable st' = false /\
  (exists l,
     News.getItem News.NEWS_CACHE_KEY_ENGLISH st' = Some (News.Articles l) /\
     NoDup (News.headlines l) /\
     forall h, In h (News.headlines l) <->
       In h (News.headlines newEnglishArticles) \/
       In h (News.headlines mainCache)) /\
  News.handleLoadNewArticles "English" (fun l => l)
    (fun _ => Service.TextThrows) st' = st'.
Proof.
  exact (load_new_articles_merges_caches "English" (fun l => l)
           (fun _ => Service.TextThrows)
           (News.init (News.mkStorage
              (Some (News.Articles [News.article "A" "old"]))
              (Some (News.Articles [News.article "B" "new"; News.article "A" "newer"]))))
           [News.article "B" "new"; News.article "A" "newer"]
           [News.article "A" "old"] eq_refl eq_refl).
Defined.

(** Property X19.  A failed refresh at start-up throws away the cached
    articles it has just put on the screen.  When the main cache holds at
    least one article and the request of the initial search fails,
    [loadInitialData] ends with an empty result list and the error message,
    not loading, although the cache itself is untouched: the search it
    calls is the closure of the first render, for which the results are
    still null. *)
Theorem failed_refresh_drops_cached_results :
  forall language LANGUAGE_MAP api storage cachedEnglishNews err,
    News.news_cache storage = Some (News.Articles cachedEnglishNews) ->
    cachedEnglishNews <> [] ->
    let st' := News.loadInitialData language LANGUAGE_MAP api (inl err)
                 (News.init storage) in
    News.results st' = Some [] /\
    News.error st' =
      "Sorry, something went wrong while fetching news. Please try again." /\
    News.isLoading st' = false /\
    News.localStorage st' = storage.
Proof.
  intros language LANGUAGE_MAP api storage cached err Hc Hne st'. subst st'.
  unfold News.loadInitialData.
  change (News.getItem News.NEWS_CACHE_KEY_ENGLISH (News.init storage))
    with (News.news_cache storage).
  rewrite Hc. destruct cached as [|a l]; [contradiction|].
  cbn [List.length Nat.ltb Nat.leb]. cbn zeta.
  unfold News.handleSearch. cbn [News.query News.init News.setIsLoading
                                  News.setResults].
  change (truthy (trim "latest Indian supreme court judgements")) with true.
  cbn [negb].
  destruct (News.latest_news storage) eqn:El; simpl; rewrite El; simpl;
    repeat split; auto; now destruct storage.
Qed.

Lemma failed_refresh_drops_cached_results_witness :
  let storage := News.mkStorage (Some (News.Articles [News.article "A" "old"])) None in
  let st' := News.loadInitialData "English" (fun l => l)
               (fun _ => Service.TextThrows) (inl "offline")
               (News.init storage) in
  News.results st' = Some [] /\
  News.error st' =
    "Sorry, something went wrong while fetching news. Please try again." /\
  News.isLoading st' = false /\
  News.localStorage st' = storage.
Proof.
  apply (failed_refresh_drops_cached_results "English" (fun l => l)
           (fun _ => Service.TextThrows)
           (News.mkStorage (Some (News.Articles [News.article "A" "old"])) None)
           [News.article "A" "old"] "offline").
  - reflexivity.
  - discriminate.
Defined.

End Caches.

(** ** The search history of the locator *)

Section History.

Local Open Scope string_scope.




Lemma Forall_filter_of {A} (P : A -> Prop) f l : Forall P l -> Forall P (filter f l).
Proof.
  rewrite !Forall_forall. intros H x Hx. apply H.
  apply filter_In in Hx. tauto.
Qed.




(** Property X21.  What the locator shows once a search with a query that
    is not blank is over: the cards of the results when there are some, the
    no-results line when the list is empty, and when the search failed an
    error text that is never empty (the message of what was thrown, or the
    standard sentence when that has none).  It never shows the spinner and
    never nothing. *)
Theorem locator_shows_outcome :
  forall searchQuery found st,
    trim searchQuery <> "" ->
    match Locator.renderContent (Locator.handleSearch searchQuery found st) with
    | Locator.Cards l => found = inr l /\ l <> []
    | Locator.NoResults => found = inr []
    | Locator.ErrorText shown =>
        shown <> "" /\
        exists message,
          found = inl message /\
          shown = if truthy message then message
                  else "Sorry, something went wrong. Please try again."
    | Locator.Finding | Locator.Blank => False
    end.
Proof.
  intros searchQuery found st Hq. apply truthy_not_empty in Hq.
  unfold Locator.handleSearch. rewrite Hq. cbn [negb].
  destruct found as [message|[|r l]]; unfold Locator.renderContent; simpl.
  - destruct message as [|c m]; simpl.
    + split; [discriminate|]. exists "". auto.
    + split; [discriminate|]. exists (String c m). auto.
  - reflexivity.
  - split; [reflexivity | discriminate].
Qed.

Lemma locator_shows_outcome_witness :
  match Locator.renderContent
          (Locator.handleSearch "notary" (inl "") (Locator.init None)) with
  | Locator.Cards l => @inl string (list Service.ExpertLocationResult) "" = inr l /\ l <> []
  | Locator.NoResults => @inl string (list Service.ExpertLocationResult) "" = inr []
  | Locator.ErrorText shown =>
      shown <> "" /\
      exists message,
        @inl string (list Service.ExpertLocationResult) "" = inl message /\
        shown = if truthy message then message
                else "Sorry, something went wrong. Please try again."
  | Locator.Finding | Locator.Blank => False
  end.
Proof.
  apply (locator_shows_outcome "notary" (inl "") (Locator.init None)).
  discriminate.
Defined.

End History.

(** ** The conversations of the chatbot *)

Section Conversations.

Local Open Scope string_scope.

Variable language : string.
Variable LANGUAGE_MAP : string -> string.
Variable api : string -> Service.TextOutcome.

Lemma id_with_user_message a e u s :
  Chatbot.id (Chatbot.with_user_message a e u s) = Chatbot.id s.
Proof.
  unfold Chatbot.with_user_message.
  now destruct (String.eqb (Chatbot.id s) a).
Qed.

Lemma id_with_message a m s :
  Chatbot.id (Chatbot.with_message a m s) = Chatbot.id s.
Proof.
  unfold Chatbot.with_message. now destruct (String.eqb (Chatbot.id s) a).
Qed.

Lemma ids_with_user_message a e u l :
  map Chatbot.id (map (Chatbot.with_user_message a e u) l) = map Chatbot.id l.
Proof. rewrite map_map. apply map_ext. intros s. apply id_with_user_message. Qed.

Lemma ids_with_message a m l :
  map Chatbot.id (map (Chatbot.with_message a m) l) = map Chatbot.id l.
Proof. rewrite map_map. apply map_ext. intros s. apply id_with_message. Qed.

(** What a send leaves of the state. *)
Lemma handleSendMessage_frame englishMessage reply st :
  let st' := Chatbot.handleSendMessage language LANGUAGE_MAP api
               englishMessage reply st in
  Chatbot.activeSessionId st' = Chatbot.activeSessionId st /\
  map Chatbot.id (Chatbot.sessions st') = map Chatbot.id (Chatbot.sessions st).
Proof.
  unfold Chatbot.handleSendMessage, Chatbot.handleSendMessage_begin,
         Chatbot.handleSendMessage_settle.
  destruct (Chatbot.activeSessionId st) as [a|] eqn:Ea; [|simpl; auto].
  destruct (truthy a); simpl; [|auto].
  destruct reply; simpl; rewrite ids_with_message, ids_with_user_message; auto.
Qed.

Lemma listed_ids st st' :
  map Chatbot.id (Chatbot.sessions st') = map Chatbot.id (Chatbot.sessions st) ->
  Chatbot.activeSessionId st' = Chatbot.activeSessionId st ->
  Chatbot.active_listed st -> Chatbot.active_listed st'.
Proof.
  intros Hids Ha H a E. rewrite Ha in E. destruct (H a E) as (s & Hs & <-).
  assert (K : In (Chatbot.id s) (map Chatbot.id (Chatbot.sessions st')))
    by (rewrite Hids; now apply in_map).
  apply in_map_iff in K. destruct K as (s' & E' & Hs'). eauto.
Qed.

Lemma active_listed_step e st st' :
  Chatbot.active_listed st ->
  Chatbot.step language LANGUAGE_MAP api e st = Some st' ->
  Chatbot.active_listed st'.
Proof.
  intros H Hstep. destruct e as [now now'|index|index|englishMessage reply];
    simpl in Hstep.
  - injection Hstep as <-. intros a E. simpl in E. injection E as <-.
    eexists. split; [now left | reflexivity].
  - destruct (nth_error (Chatbot.sessions st) index) as [s|] eqn:En; [|discriminate].
    injection Hstep as <-. intros a E. simpl in E. injection E as <-.
    exists s. split; [|reflexivity]. simpl. eapply nth_error_In; eauto.
  - destruct (nth_error (Chatbot.sessions st) index) as [s|] eqn:En; [|discriminate].
    injection Hstep as <-. unfold Chatbot.handleDeleteSession.
    intros a E.
    assert (Ha : Chatbot.activeSessionId st = Some a /\ a <> Chatbot.id s).
    { cbv zeta in E.
      destruct (Chatbot.activeSessionId st) as [b|] eqn:Eb;
        [|simpl in E; congruence].
      destruct (String.eqb b (Chatbot.id s)) eqn:Eq; [discriminate|].
      simpl in E. rewrite Eb in E. injection E as <-. split; [reflexivity|].
      now apply String.eqb_neq. }
    destruct Ha as [Ha Hne]. destruct (H a Ha) as (x & Hx & Ex).
    exists x. split; [|exact Ex].
    assert (K : In x (filter (fun s0 => negb (String.eqb (Chatbot.id s0) (Chatbot.id s)))
                        (Chatbot.sessions st))).
    { apply filter_In. split; [exact Hx|].
      destruct (String.eqb (Chatbot.id x) (Chatbot.id s)) eqn:Eq; [|reflexivity].
      apply String.eqb_eq in Eq. congruence. }
    destruct (Chatbot.activeSessionId st) as [b|]; [|exact K].
    destruct (String.eqb b (Chatbot.id s)); exact K.
  - destruct (Chatbot.activeSession st); [|discriminate].
    injection Hstep as <-.
    destruct (handleSendMessage_frame englishMessage reply st) as [Ha Hids].
    revert H. now apply listed_ids.
Qed.

Lemma active_listed_run events : forall st st',
  Chatbot.active_listed st ->
  Chatbot.run language LANGUAGE_MAP api events st = Some st' ->
  Chatbot.active_listed st'.
Proof.
  induction events as [|e rest IH]; intros st st' H Hrun; simpl in Hrun.
  - now injection Hrun as <-.
  - destruct (Chatbot.step language LANGUAGE_MAP api e st) as [s1|] eqn:E;
      [|discriminate].
    apply (IH s1); [|exact Hrun]. now apply (active_listed_step e st).
Qed.

Lemma find_listed st a :
  (exists s, In s (Chatbot.sessions st) /\ Chatbot.id s = a) ->
  find (Chatbot.is_active (Some a)) (Chatbot.sessions st) <> None.
Proof.
  intros (s & Hs & Ei) Hnone.
  pose proof (find_none _ _ Hnone s Hs) as K. simpl in K.
  rewrite Ei, String.eqb_refl in K. discriminate.
Qed.

End Conversations.

Section ActiveConversation.

Local Open Scope string_scope.

(** Property X22.  The active conversation is always on the list.
    Whatever history is loaded at mount, and whatever conversations are
    then created, selected, deleted or written to, a set active id is the
    id of a conversation of the list; so the chat pane is shown exactly
    when an id is set, and deleting the active conversation closes it. *)
Theorem active_conversation_listed :
  forall language LANGUAGE_MAP api storedHistory events st,
    Chatbot.run language LANGUAGE_MAP api events (Chatbot.mounted storedHistory) =
      Some st ->
    (forall a, Chatbot.activeSessionId st = Some a ->
       exists s, In s (Chatbot.sessions st) /\ Chatbot.id s = a) /\
    (Chatbot.activeSession st = None <-> Chatbot.activeSessionId st = None).
Proof.
  intros language LANGUAGE_MAP api storedHistory events st Hrun.
  assert (H : Chatbot.active_listed st).
  { apply (active_listed_run language LANGUAGE_MAP api events
             (Chatbot.mounted storedHistory)); [|exact Hrun].
    intros a E. discriminate. }
  split; [exact H|]. unfold Chatbot.activeSession. split.
  - intros Hnone. destruct (Chatbot.activeSessionId st) as [a|] eqn:Ea;
      [|reflexivity].
    exfalso. exact (find_listed st a (H a Ea) Hnone).
  - intros ->. induction (Chatbot.sessions st) as [|s l IH]; [reflexivity|].
    simpl. exact IH.
Qed.

Lemma active_conversation_listed_witness :
  let st := Chatbot.handleDeleteSession "1002"
              (Chatbot.handleSelectSession "1001"
                 (Chatbot.handleNewChat 1002 1002
                    (Chatbot.handleNewChat 1001 1001 Chatbot.init))) in
  (forall a, Chatbot.activeSessionId st = Some a ->
     exists s, In s (Chatbot.sessions st) /\ Chatbot.id s = a) /\
  (Chatbot.activeSession st = None <-> Chatbot.activeSessionId st = None).
Proof.
  apply (active_conversation_listed "English"%string (fun l => l)
           (fun _ => Service.TextThrows) None
           [Chatbot.NewChat 1001 1001; Chatbot.NewChat 1002 1002;
            Chatbot.SelectSession 1; Chatbot.DeleteSession 0]).
  vm_compute. reflexivity.
Defined.

End ActiveConversation.

Section Titles.

Local Open Scope string_scope.

Variable language : string.
Variable LANGUAGE_MAP : string -> string.
Variable api : string -> Service.TextOutcome.

Lemma length_substring_le s : forall n m, (String.length (substring n m s) <= m)%nat.
Proof.
  induction s as [|c s IH]; intros [|n] [|m]; simpl; try lia.
  - specialize (IH 0%nat m). lia.
  - apply (IH n 0%nat).
  - apply (IH n (S m)).
Qed.

Lemma length_append_sum (a b : string) :
  String.length (a ++ b) = (String.length a + String.length b)%nat.
Proof. induction a as [|c a IH]; simpl; [reflexivity | now rewrite IH]. Qed.

Lemma titled_sent a e u m s :
  Chatbot.role u = Chatbot.user -> Chatbot.englishText u = e ->
  Chatbot.titled s ->
  Chatbot.titled (Chatbot.with_message a m (Chatbot.with_user_message a e u s)).
Proof.
  intros Hr He Ht.
  unfold Chatbot.with_message, Chatbot.with_user_message.
  destruct (String.eqb (Chatbot.id s) a) eqn:E; simpl; rewrite ?E; [|exact Ht].
  unfold Chatbot.titled in *. simpl.
  destruct (Chatbot.messages s) as [|first rest]; simpl.
  - split; [exact Hr | now rewrite He].
  - exact Ht.
Qed.

Lemma titled_short s :
  Chatbot.titled s -> (String.length (Chatbot.title s) <= 33)%nat.
Proof.
  unfold Chatbot.titled. destruct (Chatbot.messages s) as [|first rest].
  - intros ->. simpl. lia.
  - intros [_ ->]. rewrite length_append_sum.
    pose proof (length_substring_le (Chatbot.englishText first) 0 30). simpl. lia.
Qed.

Lemma titled_step e st st' :
  Forall Chatbot.titled (Chatbot.sessions st) ->
  Chatbot.step language LANGUAGE_MAP api e st = Some st' ->
  Forall Chatbot.titled (Chatbot.sessions st').
Proof.
  intros H Hstep. destruct e as [now now'|index|index|englishMessage reply];
    simpl in Hstep.
  - injection Hstep as <-. simpl. constructor; [reflexivity | exact H].
  - destruct (nth_error (Chatbot.sessions st) index); [|discriminate].
    now injection Hstep as <-.
  - destruct (nth_error (Chatbot.sessions st) index) as [s|]; [|discriminate].
    injection Hstep as <-. unfold Chatbot.handleDeleteSession. cbv zeta.
    assert (K : Forall Chatbot.titled
                  (filter (fun s0 => negb (String.eqb (Chatbot.id s0) (Chatbot.id s)))
                     (Chatbot.sessions st))) by (now apply Forall_filter_of).
    destruct (Chatbot.activeSessionId st) as [b|]; [|exact K].
    destruct (String.eqb b (Chatbot.id s)); exact K.
  - destruct (Chatbot.activeSession st) as [act|]; [|discriminate].
    injection Hstep as <-.
    unfold Chatbot.handleSendMessage, Chatbot.handleSendMessage_begin,
           Chatbot.handleSendMessage_settle.
    destruct (Chatbot.activeSessionId st) as [a|]; [|exact H].
    destruct (truthy a); [|exact H]. cbn [negb].
    destruct reply; simpl; rewrite map_map; apply Forall_forall;
      intros x Hx; apply in_map_iff in Hx; destruct Hx as (y & <- & Hy);
      apply titled_sent; try reflexivity;
      rewrite Forall_forall in H; now apply H.
Qed.

Lemma titled_run events : forall st st',
  Forall Chatbot.titled (Chatbot.sessions st) ->
  Chatbot.run language LANGUAGE_MAP api events st = Some st' ->
  Forall Chatbot.titled (Chatbot.sessions st').
Proof.
  induction events as [|e rest IH]; intros st st' H Hrun; simpl in Hrun.
  - now injection Hrun as <-.
  - destruct (Chatbot.step language LANGUAGE_MAP api e st) as [s1|] eqn:E;
      [|discriminate].
    apply (IH s1); [|exact Hrun]. now apply (titled_step e st).
Qed.

End Titles.

Section NamedConversations.

Local Open Scope string_scope.

(** Property X23.  A conversation is named by its first message.  If the
    conversations loaded at mount are named so (as they are when there are
    none), then every conversation on the list is called New Chat while it
    is empty, and from its first message on by the first thirty characters
    of the English text of that message followed by three dots; later
    messages never rename it, and no title is longer than thirty-three
    characters. *)
Theorem conversation_named_by_first_message :
  forall language LANGUAGE_MAP api storedHistory events st,
    Forall Chatbot.titled (Chatbot.loadChatHistory storedHistory) ->
    Chatbot.run language LANGUAGE_MAP api events (Chatbot.mounted storedHistory) =
      Some st ->
    forall s, In s (Chatbot.sessions st) ->
      (String.length (Chatbot.title s) <= 33)%nat /\
      match Chatbot.messages s with
      | [] => Chatbot.title s = "New Chat"%string
      | first :: _ =>
          Chatbot.role first = Chatbot.user /\
          Chatbot.title s =
            (substring 0 30 (Chatbot.englishText first) ++ "...")%string
      end.
Proof.
  intros language LANGUAGE_MAP api storedHistory events st Hload Hrun s Hs.
  pose proof (titled_run language LANGUAGE_MAP api events
                (Chatbot.mounted storedHistory) st Hload Hrun) as H.
  rewrite Forall_forall in H. specialize (H s Hs).
  split; [now apply titled_short | exact H].
Qed.

Lemma conversation_named_by_first_message_witness :
  let st :=
    Chatbot.handleSendMessage "English" (fun l => l) (fun _ => Service.TextThrows)
      "and what about the deposit?" None
      (Chatbot.handleSendMessage "English" (fun l => l) (fun _ => Service.TextThrows)
         "My landlord wants to evict me without any notice"
         (Some "You have rights.")
         (Chatbot.handleNewChat 1001 1001 (Chatbot.mounted None))) in
  exists s,
    In s (Chatbot.sessions st) /\
    (String.length (Chatbot.title s) <= 33)%nat /\
    match Chatbot.messages s with
    | [] => Chatbot.title s = "New Chat"
    | first :: _ =>
        Chatbot.role first = Chatbot.user /\
        Chatbot.title s = substring 0 30 (Chatbot.englishText first) ++ "..."
    end.
Proof.
  eexists. split; [left; reflexivity|].
  apply (conversation_named_by_first_message "English" (fun l => l)
           (fun _ => Service.TextThrows) None
           [Chatbot.NewChat 1001 1001;
            Chatbot.SendMessage "My landlord wants to evict me without any notice"
              (Some "You have rights.");
            Chatbot.SendMessage "and what about the deposit?" None]
           (Chatbot.handleSendMessage "English" (fun l => l)
              (fun _ => Service.TextThrows)
              "and what about the deposit?" None
              (Chatbot.handleSendMessage "English" (fun l => l)
                 (fun _ => Service.TextThrows)
                 "My landlord wants to evict me without any notice"
                 (Some "You have rights.")
                 (Chatbot.handleNewChat 1001 1001 (Chatbot.mounted None))))).
  - constructor.
  - vm_compute. reflexivity.
  - left. reflexivity.
Defined.

End NamedConversations.

Section Sending.

Local Open Scope string_scope.

Variable language : string.
Variable LANGUAGE_MAP : string -> string.
Variable api : string -> Service.TextOutcome.

Lemma with_message_other a m l :
  (forall s, In s l -> Chatbot.id s <> a) ->
  map (Chatbot.with_message a m) l = l.
Proof.
  intros H. rewrite <- (map_id l) at 2. apply map_ext_in. intros s Hs.
  unfold Chatbot.with_message.
  destruct (String.eqb (Chatbot.id s) a) eqn:E; [|reflexivity].
  apply String.eqb_eq in E. now apply H in Hs.
Qed.

Lemma deleted_gone i st s :
  In s (Chatbot.sessions (Chatbot.handleDeleteSession i st)) ->
  Chatbot.id s <> i /\ In s (Chatbot.sessions st).
Proof.
  unfold Chatbot.handleDeleteSession. cbv zeta. intros H.
  assert (K : In s (filter (fun s0 => negb (String.eqb (Chatbot.id s0) i))
                      (Chatbot.sessions st))).
  { destruct (Chatbot.activeSessionId st) as [b|]; [|exact H].
    destruct (String.eqb b i); exact H. }
  apply filter_In in K. destruct K as [Hin Hne]. split; [|exact Hin].
  intros E. rewrite E, String.eqb_refl in Hne. discriminate.
Qed.

End Sending.

Section Landing.

Local Open Scope string_scope.

(** Property X24.  A message and its answer land in the conversation
    that was active when the message was sent, and nowhere else.  With an
    active id that is set and not empty, sending keeps the list of
    conversations and their order, appends to every conversation of that id
    the user's message and then the model's message (the standard apology
    when the request failed), leaves every other conversation untouched,
    and ends not loading.  If the conversation is deleted while the request
    is in flight, the answer is dropped and no conversation changes. *)
Theorem message_lands_in_active_conversation :
  forall language LANGUAGE_MAP api englishMessage reply st a,
    Chatbot.activeSessionId st = Some a -> a <> ""%string ->
    let st' := Chatbot.handleSendMessage language LANGUAGE_MAP api
                 englishMessage reply st in
    map Chatbot.id (Chatbot.sessions st') = map Chatbot.id (Chatbot.sessions st) /\
    Chatbot.isLoading st' = false /\
    (forall k s s',
       nth_error (Chatbot.sessions st) k = Some s ->
       nth_error (Chatbot.sessions st') k = Some s' ->
       if String.eqb (Chatbot.id s) a then
         exists u r,
           Chatbot.messages s' = (Chatbot.messages s ++ [u; r])%list /\
           Chatbot.role u = Chatbot.user /\
           Chatbot.englishText u = englishMessage /\
           Chatbot.role r = Chatbot.model /\
           (reply = None -> r = Chatbot.errorMessage)
       else s' = s) /\
    (forall st1,
       Chatbot.sessions
         (Chatbot.handleSendMessage_settle language LANGUAGE_MAP api a reply
            (Chatbot.handleDeleteSession a st1)) =
       Chatbot.sessions (Chatbot.handleDeleteSession a st1)).
Proof.
  intros language LANGUAGE_MAP api englishMessage reply st a Ha Hne st'.
  apply truthy_not_empty in Hne.
  split; [apply (handleSendMessage_frame language LANGUAGE_MAP api)|].
  split; [|split].
  - subst st'. unfold Chatbot.handleSendMessage, Chatbot.handleSendMessage_begin.
    rewrite Ha, Hne. reflexivity.
  - intros k s s' Hk Hk'. subst st'.
    unfold Chatbot.handleSendMessage, Chatbot.handleSendMessage_begin,
           Chatbot.handleSendMessage_settle in Hk'.
    rewrite Ha, Hne in Hk'. cbn [negb] in Hk'.
    destruct reply as [englishResponseText|]; simpl in Hk';
      rewrite map_map, nth_error_map, Hk in Hk'; simpl in Hk';
      injection Hk' as <-;
      unfold Chatbot.with_message, Chatbot.with_user_message;
      destruct (String.eqb (Chatbot.id s) a) eqn:E; simpl; rewrite ?E;
      try reflexivity; simpl;
      do 2 eexists; rewrite <- app_assoc; simpl;
      (split; [reflexivity|]); repeat split; auto; discriminate.
  - intros st1. unfold Chatbot.handleSendMessage_settle.
    destruct reply as [answer|]; simpl;
      apply with_message_other; intros x Hx;
      now apply deleted_gone in Hx.
Qed.

Lemma message_lands_in_active_conversation_witness :
  let st := Chatbot.handleNewChat 1002 1002
              (Chatbot.handleNewChat 1001 1001 Chatbot.init) in
  let st' := Chatbot.handleSendMessage "English" (fun l => l)
               (fun _ => Service.TextThrows) "What is an FIR?" None st in
  map Chatbot.id (Chatbot.sessions st') = map Chatbot.id (Chatbot.sessions st) /\
  Chatbot.isLoading st' = false /\
  (forall k s s',
     nth_error (Chatbot.sessions st) k = Some s ->
     nth_error (Chatbot.sessions st') k = Some s' ->
     if String.eqb (Chatbot.id s) "1002" then
       exists u r,
         Chatbot.messages s' = (Chatbot.messages s ++ [u; r])%list /\
         Chatbot.role u = Chatbot.user /\
         Chatbot.englishText u = "What is an FIR?"%string /\
         Chatbot.role r = Chatbot.model /\
         (@None string = None -> r = Chatbot.errorMessage)
     else s' = s) /\
  (forall st1,
     Chatbot.sessions
       (Chatbot.handleSendMessage_settle "English" (fun l => l)
          (fun _ => Service.TextThrows) "1002" None
          (Chatbot.handleDeleteSession "1002" st1)) =
     Chatbot.sessions (Chatbot.handleDeleteSession "1002" st1)).
Proof.
  apply (message_lands_in_active_conversation "English"%string (fun l => l)
           (fun _ => Service.TextThrows) "What is an FIR?"%string None
           (Chatbot.handleNewChat 1002 1002
              (Chatbot.handleNewChat 1001 1001 Chatbot.init))
           "1002"%string).
  - vm_compute. reflexivity.
  - discriminate.
Defined.

End Landing.

(** ** The pages of the virtual courtroom *)

Section Pages.

Lemma courtroom_step e st st' :
  (Courtroom.currentStep st = Courtroom.selection \/
   exists scenario,
     Courtroom.selectedScenario st = Some scenario /\
     In scenario Courtroom.scenarios) ->
  Courtroom.step e st = Some st' ->
  Courtroom.currentStep st' = Courtroom.selection \/
  exists scenario,
    Courtroom.selectedScenario st' = Some scenario /\
    In scenario Courtroom.scenarios.
Proof.
  intros H Hstep. unfold Courtroom.step, Courtroom.render in Hstep.
  destruct e.
  - destruct (Courtroom.currentStep st);
      try (destruct (Courtroom.selectedScenario st); discriminate).
    destruct (nth_error Courtroom.scenarios card) as [scenario|] eqn:En;
      [|discriminate].
    injection Hstep as <-. right. exists scenario. split; [reflexivity|].
    eapply nth_error_In; eauto.
  - destruct (Courtroom.currentStep st) eqn:Es; try discriminate;
      destruct (Courtroom.selectedScenario st) as [scenario|] eqn:Ec;
      try discriminate.
    injection Hstep as <-. destruct H as [H | (x & Hx & Hin)]; [discriminate|].
    right. exists x. split; [simpl; congruence | exact Hin].
  - destruct (Courtroom.currentStep st) eqn:Es; try discriminate;
      destruct (Courtroom.selectedScenario st) as [scenario|] eqn:Ec;
      try discriminate.
    injection Hstep as <-. destruct H as [H | (x & Hx & Hin)]; [discriminate|].
    right. exists x. split; [simpl; congruence | exact Hin].
  - assert (K : match Courtroom.timers st with
                | S n => Some (Courtroom.handleEndSession
                                 (Courtroom.mkState (Courtroom.currentStep st)
                                    (Courtroom.selectedScenario st) n))
                | O => None
                end = Some st').
    { destruct (Courtroom.currentStep st);
        destruct (Courtroom.selectedScenario st); exact Hstep. }
    destruct (Courtroom.timers st); [discriminate|].
    injection K as <-. now left.
Qed.

Lemma courtroom_run events : forall st st',
  (Courtroom.currentStep st = Courtroom.selection \/
   exists scenario,
     Courtroom.selectedScenario st = Some scenario /\
     In scenario Courtroom.scenarios) ->
  Courtroom.run events st = Some st' ->
  Courtroom.currentStep st' = Courtroom.selection \/
  exists scenario,
    Courtroom.selectedScenario st' = Some scenario /\
    In scenario Courtroom.scenarios.
Proof.
  induction events as [|e rest IH]; intros st st' H Hrun; simpl in Hrun.
  - now injection Hrun as <-.
  - destruct (Courtroom.step e st) as [s1|] eqn:E; [|discriminate].
    apply (IH s1); [|exact Hrun]. now apply (courtroom_step e st).
Qed.

(** Property X25.  The virtual courtroom never renders nothing.  Whatever
    buttons are pressed and whatever timers of ended sessions fire, the
    component shows the selection page, or the instructions or the live
    session of a scenario, and that scenario is always one of the four of
    the list: the null fallback of the render is never reached. *)
Theorem courtroom_never_blank :
  forall events st,
    Courtroom.run events Courtroom.init = Some st ->
    Courtroom.render st <> Courtroom.Fallback /\
    forall scenario,
      Courtroom.render st = Courtroom.InstructionsPage scenario \/
      Courtroom.render st = Courtroom.LiveSession scenario ->
      In scenario Courtroom.scenarios.
Proof.
  intros events st Hrun.
  pose proof (courtroom_run events Courtroom.init st (or_introl eq_refl) Hrun) as H.
  unfold Courtroom.render.
  destruct H as [-> | (x & -> & Hin)].
  - split; [discriminate|]. intros scenario [K|K]; discriminate.
  - destruct (Courtroom.currentStep st); split; try discriminate;
      intros scenario [K|K]; try discriminate; injection K as <-; exact Hin.
Qed.

Lemma courtroom_never_blank_witness :
  exists st,
    Courtroom.run [Courtroom.StartPractice 1; Courtroom.BeginSimulation]
      Courtroom.init = Some st /\
    Courtroom.render st <> Courtroom.Fallback /\
    forall scenario,
      Courtroom.render st = Courtroom.InstructionsPage scenario \/
      Courtroom.render st = Courtroom.LiveSession scenario ->
      In scenario Courtroom.scenarios.
Proof.
  eexists. split; [vm_compute; reflexivity|].
  apply (courtroom_never_blank [Courtroom.StartPractice 1; Courtroom.BeginSimulation]).
  vm_compute. reflexivity.
Defined.

(** A timer left by a session that was ended twice cuts the next one. *)
Example stale_timer_ends_next_session :
  option_map Courtroom.render
    (Courtroom.run [Courtroom.StartPractice 0; Courtroom.BeginSimulation;
                    Courtroom.EndSessionPressed; Courtroom.EndSessionPressed;
                    Courtroom.TimerFired;
                    Courtroom.StartPractice 1; Courtroom.BeginSimulation;
                    Courtroom.TimerFired] Courtroom.init) =
  Some (Courtroom.SelectionPage Courtroom.scenarios).
Proof. vm_compute. reflexivity. Qed.

End Pages.

(** ** The turns of the SMS demo *)

Section Turns_of_SMS.

Lemma alternates_snoc l : forall next m,
  SMS.alternates next l = true ->
  SMS.sender m =
    (if Nat.even (List.length l) then next
     else match next with SMS.user => SMS.bot | SMS.bot => SMS.user end) ->
  SMS.alternates next (l ++ [m]) = true.
Proof.
  induction l as [|x l IH]; intros next m Ha Hs.
  - simpl in *. rewrite Hs. now destruct next.
  - cbn [SMS.alternates app] in *.
    destruct next, (SMS.sender x); try discriminate; apply IH; auto;
      rewrite Hs; cbn [List.length]; rewrite Nat.even_succ, <- Nat.negb_even;
      now destruct (Nat.even (List.length l)).
Qed.

Lemma turns_of_alternates l :
  forall next,
    SMS.alternates next l = true ->
    SMS.turns (match next with SMS.user => SMS.role_user | SMS.bot => SMS.role_model end)
      (map (fun msg => (match SMS.sender msg with
                        | SMS.user => SMS.role_user
                        | SMS.bot => SMS.role_model
                        end, SMS.text msg)) l) = true.
Proof.
  induction l as [|x l IH]; intros next Ha; [reflexivity|].
  cbn [SMS.alternates map SMS.turns] in *.
  destruct next, (SMS.sender x); try discriminate; now apply (IH _ Ha).
Qed.

Lemma sms_step e st n st' n' :
  (exists rest,
     SMS.messages st = SMS.welcome :: rest /\
     SMS.alternates SMS.user rest = true /\
     SMS.isLoading st = Nat.odd (List.length rest) /\
     n = if SMS.isLoading st then 1%nat else 0%nat) ->
  SMS.step e (st, n) = Some (st', n') ->
  exists rest,
    SMS.messages st' = SMS.welcome :: rest /\
    SMS.alternates SMS.user rest = true /\
    SMS.isLoading st' = Nat.odd (List.length rest) /\
    n' = if SMS.isLoading st' then 1%nat else 0%nat.
Proof.
  intros (rest & Hm & Ha & Hl & Hn) Hstep. destruct e as [value| |reply];
    cbn [SMS.step] in Hstep.
  - injection Hstep as <- <-. exists rest. auto.
  - unfold SMS.handleSend_begin in Hstep.
    destruct (negb (truthy (trim (SMS.input st))) || SMS.isLoading st) eqn:Eg.
    + injection Hstep as <- <-. exists rest. auto.
    + injection Hstep as <- <-.
      apply orb_false_iff in Eg. destruct Eg as [_ El].
      rewrite El in *.
      exists (rest ++ [SMS.mkSMS SMS.user (trim (SMS.input st))]).
      simpl. rewrite Hm. split; [reflexivity|]. split; [|split].
      * apply alternates_snoc; [exact Ha|]. simpl.
        rewrite <- Nat.negb_odd, <- Hl. reflexivity.
      * rewrite length_app. simpl. rewrite Nat.add_1_r, Nat.odd_succ.
        rewrite <- Nat.negb_odd, <- Hl. reflexivity.
      * now rewrite Hn.
  - destruct n as [|k]; [discriminate|]. injection Hstep as <- <-.
    destruct (SMS.isLoading st) eqn:El; [|discriminate].
    injection Hn as ->.
    assert (K : forall m, SMS.sender m = SMS.bot ->
              SMS.alternates SMS.user (rest ++ [m]) = true /\
              false = Nat.odd (List.length (rest ++ [m]))).
    { intros m Hsm. split.
      - apply alternates_snoc; [exact Ha|]. rewrite Hsm.
        rewrite <- Nat.negb_odd, <- Hl. reflexivity.
      - rewrite length_app. simpl. rewrite Nat.add_1_r, Nat.odd_succ.
        rewrite <- Nat.negb_odd, <- Hl. reflexivity. }
    unfold SMS.handleSend_settle.
    destruct reply as [answer|].
    + exists (rest ++ [SMS.mkSMS SMS.bot answer]).
      destruct (K (SMS.mkSMS SMS.bot answer) eq_refl) as [K1 K2].
      split; [simpl; now rewrite Hm|]. split; [exact K1|].
      split; [exact K2 | reflexivity].
    + exists (rest ++ [SMS.errorMessage]).
      destruct (K SMS.errorMessage eq_refl) as [K1 K2].
      split; [simpl; now rewrite Hm|]. split; [exact K1|].
      split; [exact K2 | reflexivity].
Qed.

Lemma sms_run events : forall st n st' n',
  (exists rest,
     SMS.messages st = SMS.welcome :: rest /\
     SMS.alternates SMS.user rest = true /\
     SMS.isLoading st = Nat.odd (List.length rest) /\
     n = if SMS.isLoading st then 1%nat else 0%nat) ->
  SMS.run events (st, n) = Some (st', n') ->
  exists rest,
    SMS.messages st' = SMS.welcome :: rest /\
    SMS.alternates SMS.user rest = true /\
    SMS.isLoading st' = Nat.odd (List.length rest) /\
    n' = if SMS.isLoading st' then 1%nat else 0%nat.
Proof.
  induction events as [|e rest IH]; intros st n st' n' H Hrun;
    cbn [SMS.run] in Hrun.
  - injection Hrun as <- <-. exact H.
  - destruct (SMS.step e (st, n)) as [[s1 n1]|] eqn:E; [|discriminate].
    apply (IH s1 n1); [|exact Hrun]. now apply (sms_step e st n).
Qed.

(** Property X26.  The SMS demo keeps a well-formed dialogue.  Whatever is
    typed, sent and answered, in whatever order the answers arrive, the
    messages are the welcome message followed by messages that alternate
    between the user and the bot, starting with the user; at most one
    request is in flight, exactly when the spinner shows; and whenever no
    request is in flight the history the next send gives to the model has
    the welcome message removed, starts with a turn of the user, alternates,
    and ends with a turn of the model. *)
Theorem sms_dialogue_alternates :
  forall events st inflight,
    SMS.run events (SMS.init, 0%nat) = Some (st, inflight) ->
    (exists rest,
       SMS.messages st = SMS.welcome :: rest /\
       SMS.alternates SMS.user rest = true) /\
    inflight = (if SMS.isLoading st then 1%nat else 0%nat) /\
    (SMS.isLoading st = false ->
       SMS.turns SMS.role_user (SMS.history st) = true /\
       Nat.even (List.length (SMS.history st)) = true).
Proof.
  intros events st inflight Hrun.
  destruct (sms_run events SMS.init 0%nat st inflight) as (rest & Hm & Ha & Hl & Hn);
    [|exact Hrun|].
  - exists []. repeat split; reflexivity.
  - split; [eauto|]. split; [exact Hn|]. intros El.
    unfold SMS.history. rewrite Hm. cbn [map skipn].
    split; [exact (turns_of_alternates rest SMS.user Ha)|].
    rewrite length_map, <- Nat.negb_odd, <- Hl, El. reflexivity.
Qed.

Lemma sms_dialogue_alternates_witness :
  let c := SMS.run [SMS.Typed "What is bail?"; SMS.Send; SMS.Typed "and an FIR?";
                    SMS.Send; SMS.Settled None] (SMS.init, 0%nat) in
  exists st inflight,
    c = Some (st, inflight) /\
    (exists rest,
       SMS.messages st = SMS.welcome :: rest /\
       SMS.alternates SMS.user rest = true) /\
    inflight = (if SMS.isLoading st then 1%nat else 0%nat) /\
    (SMS.isLoading st = false ->
       SMS.turns SMS.role_user (SMS.history st) = true /\
       Nat.even (List.length (SMS.history st)) = true).
Proof.
  eexists. eexists. split; [vm_compute; reflexivity|].
  apply (sms_dialogue_alternates
           [SMS.Typed "What is bail?"; SMS.Send; SMS.Typed "and an FIR?";
            SMS.Send; SMS.Settled None]).
  vm_compute. reflexivity.
Defined.

End Turns_of_SMS.

(** ** The title of the header *)

Section Title.

Local Open Scope string_scope.

Lemma length_substring_whole s : forall n m,
  (String.length (substring n m s) <= String.length s)%nat.
Proof.
  induction s as [|c s IH]; intros [|n] [|m]; simpl; try lia.
  - specialize (IH 0%nat m). lia.
  - specialize (IH n 0%nat). lia.
  - specialize (IH n (S m)). lia.
Qed.

Lemma replace_short pattern replacement s :
  (String.length s < String.length pattern)%nat ->
  Header.replace pattern replacement s = s.
Proof.
  intros Hlen. unfold Header.replace.
  destruct (index 0 pattern s) as [i|] eqn:E; [|reflexivity].
  apply index_correct1 in E.
  pose proof (length_substring_whole s i (String.length pattern)) as H.
  rewrite E in H. lia.
Qed.

(** Property X27.  The replacement in the title of the header never
    applies to a view name of at most eleven characters: the title is the
    name with its first letter in upper case, the rest unchanged.  So the
    view 'casestudies' is titled Casestudies, not Case Studies, because the
    replacement is made on the name without its first letter. *)
Theorem header_title_only_capitalizes :
  forall currentView,
    (String.length currentView <= 11)%nat ->
    Header.title currentView =
      match currentView with
      | EmptyString => ""
      | String c rest => String (Header.toUpperCase_char c) rest
      end /\
    Header.title "casestudies" = "Casestudies".
Proof.
  intros currentView Hlen. split; [|reflexivity].
  destruct currentView as [|c rest]; [reflexivity|].
  unfold Header.title. rewrite replace_short; [reflexivity|].
  simpl in *. lia.
Qed.

Lemma header_title_only_capitalizes_witness :
  Header.title "casestudies" =
    match "casestudies" with
    | EmptyString => ""
    | String c rest => String (Header.toUpperCase_char c) rest
    end /\
  Header.title "casestudies" = "Casestudies".
Proof.
  apply (header_title_only_capitalizes "casestudies"). simpl. lia.
Defined.

End Title.

(** ** Reading a message aloud *)

Section Aloud.

Lemma marked_live_same st st' :
  ChatUI.nowPlaying st' = ChatUI.nowPlaying st ->
  map ChatUI.hasEnded (ChatUI.sources st') = map ChatUI.hasEnded (ChatUI.sources st) ->
  ChatUI.marked_live st -> ChatUI.marked_live st'.
Proof.
  intros Hn Hs H np E. rewrite Hn in E. destruct (H np E) as (s & Hf & He).
  assert (K : nth_error (map ChatUI.hasEnded (ChatUI.sources st')) (ChatUI.source np) =
              Some false).
  { rewrite Hs, nth_error_map, Hf. simpl. now rewrite He. }
  rewrite nth_error_map in K.
  destruct (nth_error (ChatUI.sources st') (ChatUI.source np)) as [s'|];
    [|discriminate].
  simpl in K. injection K as K. eauto.
Qed.

Lemma hasEnded_stop id l :
  map ChatUI.hasEnded
    (update_at id (fun s => ChatUI.mkSource (ChatUI.buffer s) true (ChatUI.hasEnded s)) l) =
  map ChatUI.hasEnded l.
Proof.
  revert id. induction l as [|x l IH]; intros [|id]; simpl; auto.
  now rewrite IH.
Qed.

Lemma marked_live_begin i st :
  ChatUI.marked_live st -> ChatUI.marked_live (ChatUI.playAudio_begin i st).
Proof.
  apply marked_live_same; unfold ChatUI.playAudio_begin; cbv zeta;
    destruct (ChatUI.nowPlaying st) as [np|] eqn:E; simpl;
    try destruct (Nat.eqb (ChatUI.index np) i); simpl;
    try destruct (ChatUI.audioContextRef st); simpl;
    rewrite ?hasEnded_stop, ?E; reflexivity.
Qed.

Lemma marked_live_resume i api st :
  ChatUI.marked_live st -> ChatUI.marked_live (ChatUI.playAudio_resume i api st).
Proof.
  intros H. unfold ChatUI.playAudio_resume, ChatUI.playAudio_catch.
  destruct (getTextToSpeech api) as [e|[audioData|]];
    [intros np E; discriminate | | exact H].
  destruct (truthy audioData); [|exact H].
  destruct (decodeFrame audioData) as [b|]; [|intros np E; discriminate].
  intros np E. simpl in E. injection E as <-. simpl.
  eexists. split; [apply nth_error_snoc_new | reflexivity].
Qed.

Lemma marked_live_step e st st' :
  ChatUI.marked_live st -> ChatUI.step e st = Some st' -> ChatUI.marked_live st'.
Proof.
  intros H Hstep. destruct e as [i|k api|id]; cbn [ChatUI.step] in Hstep.
  - injection Hstep as <-. now apply marked_live_begin.
  - destruct (nth_error (ChatUI.requests st) k) as [i|]; [|discriminate].
    injection Hstep as <-. apply marked_live_resume.
    revert H. now apply marked_live_same.
  - destruct (nth_error (ChatUI.sources st) id) as [s|] eqn:Es; [|discriminate].
    destruct (ChatUI.hasEnded s) eqn:He; [discriminate|].
    injection Hstep as <-. intros np E. unfold ChatUI.onended in E. simpl in E.
    destruct (ChatUI.nowPlaying st) as [current|] eqn:En; [|discriminate].
    destruct (Nat.eqb (ChatUI.source current) id) eqn:Eq; [discriminate|].
    injection E as <-. destruct (H current En) as (x & Hx & Hxe).
    exists x. split; [|exact Hxe]. simpl.
    rewrite nth_error_update_at.
    destruct (Nat.eqb id (ChatUI.source current)) eqn:Eq'; [|exact Hx].
    apply Nat.eqb_eq in Eq'. subst id. rewrite Nat.eqb_refl in Eq. discriminate.
Qed.

Lemma marked_live_run events : forall st st',
  ChatUI.marked_live st -> ChatUI.run events st = Some st' -> ChatUI.marked_live st'.
Proof.
  induction events as [|e rest IH]; intros st st' H Hrun; cbn [ChatUI.run] in Hrun.
  - now injection Hrun as <-.
  - destruct (ChatUI.step e st) as [s1|] eqn:E; [|discriminate].
    apply (IH s1); [|exact Hrun]. now apply (marked_live_step e st).
Qed.

(** Property X28.  The message marked as playing in the chat always has
    audio that has not finished: whatever buttons are pressed, however the
    speech requests settle and in whatever order, and whenever sources end,
    the marked source exists and has not fired 'ended'.  Pressing the
    button of the marked message stops that source and makes no request. *)
Theorem playing_mark_names_live_source :
  forall events st,
    ChatUI.run events ChatUI.init = Some st ->
    forall np, ChatUI.nowPlaying st = Some np ->
      (exists s,
         nth_error (ChatUI.sources st) (ChatUI.source np) = Some s /\
         ChatUI.hasEnded s = false) /\
      let st' := ChatUI.playAudio_begin (ChatUI.index np) st in
      ChatUI.requests st' = ChatUI.requests st /\
      exists s',
        nth_error (ChatUI.sources st') (ChatUI.source np) = Some s' /\
        ChatUI.stopCalled s' = true.
Proof.
  intros events st Hrun np E.
  assert (H : ChatUI.marked_live st).
  { apply (marked_live_run events ChatUI.init); [|exact Hrun].
    intros x K. discriminate. }
  destruct (H np E) as (s & Hs & He).
  split; [eauto|]. unfold ChatUI.playAudio_begin. cbv zeta.
  rewrite E, Nat.eqb_refl. simpl. split; [reflexivity|].
  rewrite nth_error_update_at, Nat.eqb_refl, Hs. simpl. eauto.
Qed.

Lemma playing_mark_names_live_source_witness :
  let st := ChatUI.playAudio_resume 2 (ApiResponds (Some "AAAAAAAA"%string))
              (ChatUI.set_requests []
                 (ChatUI.playAudio_begin 2 ChatUI.init)) in
  let np := ChatUI.mkNowPlaying 0 2 in
  (exists s,
     nth_error (ChatUI.sources st) (ChatUI.source np) = Some s /\
     ChatUI.hasEnded s = false) /\
  let st' := ChatUI.playAudio_begin (ChatUI.index np) st in
  ChatUI.requests st' = ChatUI.requests st /\
  exists s',
    nth_error (ChatUI.sources st') (ChatUI.source np) = Some s' /\
    ChatUI.stopCalled s' = true.
Proof.
  apply (playing_mark_names_live_source
           [ChatUI.Pressed 2; ChatUI.Settled 0 (ApiResponds (Some "AAAAAAAA"%string))]).
  - vm_compute. reflexivity.
  - vm_compute. reflexivity.
Defined.

(** Two requests in flight give two sources playing at once. *)
Example two_messages_read_at_once :
  option_map (fun st => map ChatUI.stopCalled (ChatUI.sources st))
    (ChatUI.run [ChatUI.Pressed 0; ChatUI.Pressed 1;
                 ChatUI.Settled 0 (ApiResponds (Some "AAAAAAAA"%string));
                 ChatUI.Settled 0 (ApiResponds (Some "AAAAAAAA"%string))]
       ChatUI.init) =
  Some [false; false].
Proof. vm_compute. reflexivity. Qed.

End Aloud.
